(** * AstroScope: orbit propagation and impact physics

    A shallow embedding of the numerical core of the AstroScope sources:

    - [static/js/model.js] and its sibling copy (the heliocentric viewer):
      [solveKepler], the per-body position computation and the clock of
      [updatePositions], the two scale strategies, the elements stored by
      [createNEOs] and by the random fallback, the orbit lines of
      [createPlanets], [createNEOs] and [updateScales], the time-speed
      slider of [setupUI];
    - the impact calculator module ([calculateImpactRadius],
      [calculateCraterDimensions], [estimateCasualties],
      [convertNasaDataToParameters], [comprehensiveImpactAssessment]);
    - [static/js/impact-calculator.js] ([estimateFBfromDiameter],
      [estimateFBfromEnergy], [energyFromSizeMt] and [recalc]).

    Number model.  A JavaScript number is either [NaN] or a finite value;
    finite values are idealised as mathematical reals ([R]), so [+], [*],
    [Math.sin], [Math.sqrt] ... are the exact real operations.  Rounding
    error, signed zeros and the two infinities are outside the model.
    Exceptions ([throw new Error(msg)]) are modelled by the [Throw]
    constructor of [result].

    Layout.  The embedding comes first (modules [Js], [ImpactCalculator],
    [PalermoCalculator], [THREE], [Model], [ModelCopy], [Spec]), then the
    definitions used to bound the error of [solveKepler] ([Kepler], [Fix],
    [Checker]), then the properties.  The bound on the residual of
    [solveKepler] is obtained from the recurrence of the Newton error
    around a solution [Es] of Kepler's equation, enclosed step by step
    with interval arithmetic over a bisection of the domain
    [Es] in [[0, PI]], [e] in [[0, 0.95]]; the integer bounds are [bigZ]
    so that the bisection is evaluated quickly. *)

From Stdlib Require Import Reals Lra Lia ZArith String List Bool.
From Bignums Require Import BigZ.
Import ListNotations.

Open Scope R_scope.

(** ** JavaScript values and the [Math] functions used by the sources *)

Module Js.

(** A number: [NaN] or a finite real. *)
Inductive num : Type :=
| NaN
| Num (r : R).

(** The argument values the functions below can receive.  [NonNumeric]
    stands for any value whose numeric conversion is [NaN] (a non-numeric
    string, an object, ...). *)
Inductive value : Type :=
| Undefined
| Null
| Boolean (b : bool)
| Number (n : num)
| NonNumeric.

(** [Number(v)]. *)
Definition ToNumber (v : value) : num :=
  match v with
  | Undefined => NaN
  | Null => Num 0
  | Boolean true => Num 1
  | Boolean false => Num 0
  | Number n => n
  | NonNumeric => NaN
  end.

Definition isNaN (n : num) : bool :=
  match n with NaN => true | Num _ => false end.

Definition isFinite (n : num) : bool :=
  match n with NaN => false | Num _ => true end.

(** Comparisons of finite numbers, as booleans. *)
Definition ltb (x y : R) : bool := if Rlt_dec x y then true else false.
Definition leb (x y : R) : bool := if Rle_dec x y then true else false.
Definition gtb (x y : R) : bool := ltb y x.

(** Comparisons with a possibly-[NaN] left operand: false on [NaN]. *)
Definition num_ltb (n : num) (y : R) : bool :=
  match n with NaN => false | Num x => ltb x y end.
Definition num_leb (n : num) (y : R) : bool :=
  match n with NaN => false | Num x => leb x y end.
Definition num_gtb (n : num) (y : R) : bool :=
  match n with NaN => false | Num x => gtb x y end.

(** [!x] for a number: true on [0] and [NaN]. *)
Definition falsy (n : num) : bool :=
  match n with NaN => true | Num x => if Req_dec_T x 0 then true else false end.

(** [Math.cbrt]: the real cube root, odd, with [cbrt 0 = 0]. *)
Definition cbrt (x : R) : R :=
  if Rlt_dec 0 x then Rpower x (/ 3)
  else if Rlt_dec x 0 then - Rpower (- x) (/ 3)
  else 0.

(** [Math.round]: nearest integer, ties toward +infinity. *)
Definition round (x : R) : R := IZR (Int_part (x + / 2)).

(** Truncation toward zero. *)
Definition trunc (x : R) : Z :=
  if Rle_dec 0 x then Int_part x else (- Int_part (- x))%Z.

(** [a % b]: the remainder of the truncated division; it carries the sign
    of the dividend. *)
Definition rem (a b : R) : R := a - b * IZR (trunc (a / b)).

(** [Math.log10] on a positive argument. *)
Definition log10 (x : R) : R := ln x / ln 10.

(** [x || 0] on a number: [0] stands in for [NaN] (and for [0]). *)
Definition or_zero (n : num) : R :=
  match n with NaN => 0 | Num x => x end.

(** [a || b] on strings that may be absent: [b] stands in for an absent
    or empty [a]. *)
Definition string_or (a : option string) (b : string) : string :=
  match a with
  | Some EmptyString => b
  | Some s => s
  | None => b
  end.

(** [Math.sqrt]: [NaN] below zero. *)
Definition Math_sqrt (x : R) : num :=
  if Rlt_dec x 0 then NaN else Num (sqrt x).

(** [n * y] for a number [n] that may be [NaN]. *)
Definition num_mul (n : num) (y : R) : num :=
  match n with NaN => NaN | Num x => Num (x * y) end.

End Js.

(** Outcome of a call that may throw. *)
Inductive result (A : Type) : Type :=
| Ok (a : A)
| Throw (msg : string).
Arguments Ok {A} a.
Arguments Throw {A} msg.

(** ** The impact calculator module *)

Module ImpactCalculator.
Import Js.

Record InputParameters : Type := {
  density_kg_m3 : R;
  speed_m_s : R;
  diameter_m : R
}.

Record ImpactResult : Type := {
  kinetic_energy_joules : R;
  kinetic_energy_megatons : R;
  severe_radius_km : R;
  moderate_radius_km : R;
  light_radius_km : R;
  damage_classification : string;
  input_parameters : InputParameters
}.

Definition severe_k : R := 1.8e-4.
Definition moderate_k : R := 4.0e-4.
Definition light_k : R := 8.0e-4.

(** [calculateImpactRadius(density, speed, diameter)].  The three
    arguments are converted with [Number]; the first check throws as soon
    as one conversion is [NaN], which is the only way the match below
    leaves its first branch. *)
Definition calculateImpactRadius (density speed diameter : value)
  : result ImpactResult :=
  match ToNumber density, ToNumber speed, ToNumber diameter with
  | Num d, Num s, Num dia =>
      if leb d 0 || leb s 0 || leb dia 0 then
        Throw "Density, Speed, and Diameter must be positive values."
      else
        let kineticEnergy := (PI / 12) * d * (dia ^ 3) * (s ^ 2) in
        let impactPowerThird := cbrt kineticEnergy in
        let severe_radius_m := severe_k * impactPowerThird in
        let moderate_radius_m := moderate_k * impactPowerThird in
        let light_radius_m := light_k * impactPowerThird in
        let severe_radius_km := severe_radius_m / 1000 in
        let moderate_radius_km := moderate_radius_m / 1000 in
        let light_radius_km := light_radius_m / 1000 in
        let classification :=
          if gtb severe_radius_km 5 then "Severe"%string
          else if gtb moderate_radius_km 2 then "Moderate"%string
          else "Light"%string in
        Ok {| kinetic_energy_joules := kineticEnergy;
              kinetic_energy_megatons := kineticEnergy / 4.184e15;
              severe_radius_km := severe_radius_km;
              moderate_radius_km := moderate_radius_km;
              light_radius_km := light_radius_km;
              damage_classification := classification;
              input_parameters :=
                {| density_kg_m3 := d; speed_m_s := s; diameter_m := dia |} |}
  | _, _, _ => Throw "All inputs must be numeric values."
  end.

Record AffectedAreas : Type := {
  severe_area_km2 : R;
  moderate_area_km2 : R;
  light_area_km2 : R;
  total_area_km2 : R
}.

Record CasualtyResult : Type := {
  severe_casualties : R;
  moderate_casualties : R;
  light_casualties : R;
  total_casualties : R;
  affected_areas : AffectedAreas
}.

(** A converted input that fails the validation of [estimateCasualties]:
    [NaN] or negative. *)
Definition rejected (n : num) : Prop :=
  n = NaN \/ exists x, n = Num x /\ x < 0.

(** A default parameter value replaces an argument that is [undefined]
    (or absent). *)
Definition default_param (dflt : R) (v : value) : value :=
  match v with
  | Undefined => Number (Num dflt)
  | _ => v
  end.

(** [estimateCasualties(severe_radius_km, moderate_radius_km,
    light_radius_km, population_density = 100)]. *)
Definition estimateCasualties
  (severe_radius_km moderate_radius_km light_radius_km population_density : value)
  : result CasualtyResult :=
  let population_density := default_param 100 population_density in
  let numericInputs :=
    map ToNumber
      [severe_radius_km; moderate_radius_km; light_radius_km; population_density] in
  if existsb isNaN numericInputs || existsb (fun x => num_ltb x 0) numericInputs then
    Throw "All inputs must be non-negative numeric values."
  else
    match numericInputs with
    | [Num severe_r; Num moderate_r; Num light_r; Num pop_density] =>
        let severe_area_km2 := PI * severe_r * severe_r in
        let moderate_area_km2 := PI * moderate_r * moderate_r in
        let light_area_km2 := PI * light_r * light_r in
        let severe_casualties := severe_area_km2 * pop_density * 0.9 in
        let moderate_casualties := moderate_area_km2 * pop_density * 0.3 in
        let light_casualties := light_area_km2 * pop_density * 0.05 in
        let total_casualties :=
          severe_casualties + moderate_casualties + light_casualties in
        Ok {| severe_casualties := round severe_casualties;
              moderate_casualties := round moderate_casualties;
              light_casualties := round light_casualties;
              total_casualties := round total_casualties;
              affected_areas :=
                {| severe_area_km2 := severe_area_km2;
                   moderate_area_km2 := moderate_area_km2;
                   light_area_km2 := light_area_km2;
                   total_area_km2 :=
                     severe_area_km2 + moderate_area_km2 + light_area_km2 |} |}
    | _ => Throw "All inputs must be non-negative numeric values."
    end.

(** A converted input that fails the validation of
    [calculateCraterDimensions]: [NaN], zero or negative. *)
Definition not_positive (n : num) : Prop :=
  n = NaN \/ exists x, n = Num x /\ x <= 0.

(** The object returned by [calculateCraterDimensions]; its energy field
    is [kinetic_energy_joules] in the source. *)
Record CraterResult : Type := {
  crater_diameter_m : R;
  crater_diameter_km : R;
  crater_depth_m : R;
  crater_depth_km : R;
  crater_volume_m3 : R;
  crater_kinetic_energy_joules : R
}.

(** [calculateCraterDimensions(diameter, speed, density)].  [Math.pow] is
    only reached with a positive base. *)
Definition calculateCraterDimensions (diameter speed density : value)
  : result CraterResult :=
  let numericInputs := map ToNumber [diameter; speed; density] in
  if existsb isNaN numericInputs || existsb (fun x => num_leb x 0) numericInputs then
    Throw "All inputs must be positive numeric values."
  else
    match numericInputs with
    | [Num dia; Num s; Num d] =>
        let kineticEnergy := (PI / 12) * d * (dia ^ 3) * (s ^ 2) in
        let crater_diameter_m := 1.2 * Rpower (kineticEnergy / 1e12) 0.294 in
        let crater_depth_m := crater_diameter_m * 0.2 in
        Ok {| crater_diameter_m := crater_diameter_m;
              crater_diameter_km := crater_diameter_m / 1000;
              crater_depth_m := crater_depth_m;
              crater_depth_km := crater_depth_m / 1000;
              crater_volume_m3 := PI * (crater_diameter_m / 2) ^ 2 * crater_depth_m;
              crater_kinetic_energy_joules := kineticEnergy |}
    | _ => Throw "All inputs must be positive numeric values."
    end.

(** The fields of a NASA record that the assessment reads.  The record is
    an object whose [Diameter] and [Velocity] are strings or absent (on a
    field of another type [split] is not a function, and on a record that
    is [null] the field access itself fails; neither is modelled).
    [Diameter] and [Velocity] hold what [parseFloat] makes of the first
    space-separated word of the field: a number, or [NaN] when the field
    is absent or does not start with a number.  [des] and [Full_Name] are
    [None] when absent. *)
Record NasaData : Type := {
  Diameter : num;
  Velocity : num;
  des : option string;
  Full_Name : option string
}.

(** The object returned by [convertNasaDataToParameters] (fields
    [diameter_m], [velocity_m_s], [density_kg_m3], [original_data]). *)
Record Parameters : Type := {
  params_diameter_m : R;
  params_velocity_m_s : R;
  params_density_kg_m3 : R;
  original_data : NasaData
}.

Definition convertNasaDataToParameters (nasaData : NasaData) : Parameters :=
  let diameter_km := or_zero (Diameter nasaData) in
  let velocity_km_s := or_zero (Velocity nasaData) in
  let diameter_m := diameter_km * 1000 in
  let velocity_m_s := velocity_km_s * 1000 in
  let density_kg_m3 := 3000 in
  {| params_diameter_m := diameter_m;
     params_velocity_m_s := velocity_m_s;
     params_density_kg_m3 := density_kg_m3;
     original_data := nasaData |}.

(** The [asteroid_info] part of an assessment (fields [designation],
    [diameter_km], [velocity_km_s], [density_kg_m3]). *)
Record AsteroidInfo : Type := {
  designation : string;
  info_diameter_km : R;
  info_velocity_km_s : R;
  info_density_kg_m3 : R
}.

Record Assessment : Type := {
  asteroid_info : AsteroidInfo;
  impact_assessment : ImpactResult;
  crater_analysis : CraterResult;
  casualty_estimation : CasualtyResult;
  nasa_data : NasaData
}.

(** What [comprehensiveImpactAssessment] returns: the assessment, or the
    object [{ error, nasa_data }] built by its [catch]. *)
Inductive AssessmentOutcome : Type :=
| Assessed (assessment : Assessment)
| Failed (error : string) (nasa_data : NasaData).

(** [comprehensiveImpactAssessment(nasaData, population_density = 100)]. *)
Definition comprehensiveImpactAssessment (nasaData : NasaData)
    (population_density : value) : AssessmentOutcome :=
  let population_density := default_param 100 population_density in
  let params := convertNasaDataToParameters nasaData in
  match calculateImpactRadius
          (Number (Num (params_density_kg_m3 params)))
          (Number (Num (params_velocity_m_s params)))
          (Number (Num (params_diameter_m params))) with
  | Throw msg => Failed msg nasaData
  | Ok impactResults =>
      match calculateCraterDimensions
              (Number (Num (params_diameter_m params)))
              (Number (Num (params_velocity_m_s params)))
              (Number (Num (params_density_kg_m3 params))) with
      | Throw msg => Failed msg nasaData
      | Ok craterResults =>
          match estimateCasualties
                  (Number (Num (severe_radius_km impactResults)))
                  (Number (Num (moderate_radius_km impactResults)))
                  (Number (Num (light_radius_km impactResults)))
                  population_density with
          | Throw msg => Failed msg nasaData
          | Ok casualtyResults =>
              Assessed
                {| asteroid_info :=
                     {| designation :=
                          string_or (des nasaData)
                            (string_or (Full_Name nasaData) "Unknown");
                        info_diameter_km := params_diameter_m params / 1000;
                        info_velocity_km_s := params_velocity_m_s params / 1000;
                        info_density_kg_m3 := params_density_kg_m3 params |};
                   impact_assessment := impactResults;
                   crater_analysis := craterResults;
                   casualty_estimation := casualtyResults;
                   nasa_data := nasaData |}
          end
      end
  end.

End ImpactCalculator.

(** ** The Palermo scale calculator ([static/js/impact-calculator.js]) *)

Module PalermoCalculator.
Import Js.

Definition MT_J : R := 4.184e15.

Definition A_d : R := 6.3e-3.
Definition b_d : R := 2.7.
Definition A_e : R := 1.1774080373049495e-2.
Definition alpha_e : R := 0.9.

(** [estimateFBfromDiameter(d_m)]; [None] is [null].  [Math.pow] is only
    reached with a positive base. *)
Definition estimateFBfromDiameter (d_m : num) : option R :=
  match d_m with
  | NaN => None
  | Num d_m =>
      if falsy (Num d_m) || leb d_m 0 then None
      else
        let d_km := d_m / 1000 in
        let fb := A_d * Rpower d_km (- b_d) in
        if gtb fb 0 then Some fb else None
  end.

(** [estimateFBfromEnergy(E_mt)]. *)
Definition estimateFBfromEnergy (E_mt : num) : option R :=
  match E_mt with
  | NaN => None
  | Num E_mt =>
      if falsy (Num E_mt) || leb E_mt 0 then None
      else
        let fb := A_e * Rpower E_mt (- alpha_e) in
        if gtb fb 0 then Some fb else None
  end.

(** [energyFromSizeMt(d_m, rho, v_kms)]. *)
Definition energyFromSizeMt (d_m rho v_kms : num) : num :=
  match d_m, rho, v_kms with
  | Num d_m, Num rho, Num v_kms =>
      if falsy (Num d_m) || falsy (Num rho) || falsy (Num v_kms)
         || leb d_m 0 || leb rho 0 || leb v_kms 0
      then NaN
      else
        let m := (PI / 6) * rho * (d_m ^ 3) in
        let v := v_kms * 1000 in
        let EJ := 0.5 * m * v * v in
        Num (EJ / MT_J)
  | _, _, _ => NaN
  end.

(** The parsed form fields read by [recalc] ([parseFloat] of each input
    box, and the two check boxes). *)
Record Form : Type := {
  calc_pi : num;
  calc_ti : num;
  calc_E_mt : num;
  calc_diam : num;
  calc_vel : num;
  calc_rho : num;
  calc_fb : num;
  mode_energy : bool;
  calc_auto_fb : bool
}.

(** What [recalc] computes before formatting. *)
Record Readout : Type := {
  out_E_mt : num;
  out_EJ : num;
  out_fb : num;
  out_fb_src : string;
  out_PS : num;
  out_interp : string
}.

(** The Palermo scale value of [recalc]: [NaN] unless the three inputs are
    finite and positive. *)
Definition palermoScale (Pi Ti fbVal : num) : num :=
  match Pi, Ti, fbVal with
  | Num Pi, Num Ti, Num fbVal =>
      if gtb Pi 0 && gtb Ti 0 && gtb fbVal 0
      then Num (log10 ((Pi / Ti) / fbVal))
      else NaN
  | _, _, _ => NaN
  end.

(** The text written to [psInterpEl]. *)
Definition interpretation (PS : num) : string :=
  match PS with
  | Num PS =>
      if gtb PS 0 then "Above background risk"%string
      else if gtb PS (-2) then "Comparable to background"%string
      else "Well below background"%string
  | NaN => "—"%string
  end.

Definition recalc (f : Form) : Readout :=
  let Pi := calc_pi f in
  let Ti := calc_ti f in
  let '(E_mt, fbVal, fbSrc) :=
    if mode_energy f then
      let E_mt := calc_E_mt f in
      if calc_auto_fb f then
        match estimateFBfromEnergy E_mt with
        | Some est => (E_mt, Num est, "auto (from energy)"%string)
        | None => (E_mt, calc_fb f, "manual"%string)
        end
      else (E_mt, calc_fb f, "manual"%string)
    else
      let D := calc_diam f in
      let v := calc_vel f in
      let rho := calc_rho f in
      let E_mt := energyFromSizeMt D rho v in
      if calc_auto_fb f then
        match estimateFBfromDiameter D with
        | Some est => (E_mt, Num est, "auto (from diameter)"%string)
        | None => (E_mt, calc_fb f, "manual"%string)
        end
      else (E_mt, calc_fb f, "manual"%string) in
  let EJ := match E_mt with Num E => Num (E * MT_J) | NaN => NaN end in
  let PS := palermoScale Pi Ti fbVal in
  {| out_E_mt := E_mt;
     out_EJ := EJ;
     out_fb := fbVal;
     out_fb_src := fbSrc;
     out_PS := PS;
     out_interp := interpretation PS |}.

End PalermoCalculator.

(** ** The parts of three.js used by the propagator

    three.js is an external dependency of the viewer; [Vector3], [Matrix4]
    and [MathUtils.degToRad] are transcribed from its implementation
    (a [Matrix4] is given by its entries in row-major reading order, as in
    [Matrix4.set]). *)

Module THREE.

Record Vector3 : Type := { x : R; y : R; z : R }.

Record Matrix4 : Type := {
  n11 : R; n12 : R; n13 : R; n14 : R;
  n21 : R; n22 : R; n23 : R; n24 : R;
  n31 : R; n32 : R; n33 : R; n34 : R;
  n41 : R; n42 : R; n43 : R; n44 : R
}.

Definition DEG2RAD : R := PI / 180.
Definition degToRad (degrees : R) : R := degrees * DEG2RAD.

Definition makeRotationX (theta : R) : Matrix4 :=
  let c := cos theta in
  let s := sin theta in
  {| n11 := 1; n12 := 0; n13 := 0; n14 := 0;
     n21 := 0; n22 := c; n23 := - s; n24 := 0;
     n31 := 0; n32 := s; n33 := c; n34 := 0;
     n41 := 0; n42 := 0; n43 := 0; n44 := 1 |}.

Definition makeRotationY (theta : R) : Matrix4 :=
  let c := cos theta in
  let s := sin theta in
  {| n11 := c; n12 := 0; n13 := s; n14 := 0;
     n21 := 0; n22 := 1; n23 := 0; n24 := 0;
     n31 := - s; n32 := 0; n33 := c; n34 := 0;
     n41 := 0; n42 := 0; n43 := 0; n44 := 1 |}.

Definition makeRotationZ (theta : R) : Matrix4 :=
  let c := cos theta in
  let s := sin theta in
  {| n11 := c; n12 := - s; n13 := 0; n14 := 0;
     n21 := s; n22 := c; n23 := 0; n24 := 0;
     n31 := 0; n32 := 0; n33 := 1; n34 := 0;
     n41 := 0; n42 := 0; n43 := 0; n44 := 1 |}.

(** [a.multiply(b)]: the product [a * b]. *)
Definition multiply (a b : Matrix4) : Matrix4 :=
  {| n11 := n11 a * n11 b + n12 a * n21 b + n13 a * n31 b + n14 a * n41 b;
     n12 := n11 a * n12 b + n12 a * n22 b + n13 a * n32 b + n14 a * n42 b;
     n13 := n11 a * n13 b + n12 a * n23 b + n13 a * n33 b + n14 a * n43 b;
     n14 := n11 a * n14 b + n12 a * n24 b + n13 a * n34 b + n14 a * n44 b;
     n21 := n21 a * n11 b + n22 a * n21 b + n23 a * n31 b + n24 a * n41 b;
     n22 := n21 a * n12 b + n22 a * n22 b + n23 a * n32 b + n24 a * n42 b;
     n23 := n21 a * n13 b + n22 a * n23 b + n23 a * n33 b + n24 a * n43 b;
     n24 := n21 a * n14 b + n22 a * n24 b + n23 a * n34 b + n24 a * n44 b;
     n31 := n31 a * n11 b + n32 a * n21 b + n33 a * n31 b + n34 a * n41 b;
     n32 := n31 a * n12 b + n32 a * n22 b + n33 a * n32 b + n34 a * n42 b;
     n33 := n31 a * n13 b + n32 a * n23 b + n33 a * n33 b + n34 a * n43 b;
     n34 := n31 a * n14 b + n32 a * n24 b + n33 a * n34 b + n34 a * n44 b;
     n41 := n41 a * n11 b + n42 a * n21 b + n43 a * n31 b + n44 a * n41 b;
     n42 := n41 a * n12 b + n42 a * n22 b + n43 a * n32 b + n44 a * n42 b;
     n43 := n41 a * n13 b + n42 a * n23 b + n43 a * n33 b + n44 a * n43 b;
     n44 := n41 a * n14 b + n42 a * n24 b + n43 a * n34 b + n44 a * n44 b |}.

(** [v.applyMatrix4(m)]: the product [m * (x, y, z, 1)] followed by the
    perspective divide. *)
Definition applyMatrix4 (v : Vector3) (m : Matrix4) : Vector3 :=
  let w := 1 / (n41 m * x v + n42 m * y v + n43 m * z v + n44 m) in
  {| x := (n11 m * x v + n12 m * y v + n13 m * z v + n14 m) * w;
     y := (n21 m * x v + n22 m * y v + n23 m * z v + n24 m) * w;
     z := (n31 m * x v + n32 m * y v + n33 m * z v + n34 m) * w |}.

(** [v.lengthSq()]. *)
Definition lengthSq (v : Vector3) : R :=
  x v * x v + y v * y v + z v * z v.

(** A [Vector2]. *)
Module Vector2.
Record t : Type := { x : R; y : R }.
End Vector2.

(** [new EllipseCurve(aX, aY, xRadius, yRadius, 0, 2 * Math.PI, false, 0)],
    the only way the viewer builds a curve: a full turn from angle [0],
    counter-clockwise, unrotated.  For these arguments [getPoint] takes
    [deltaAngle = 2 PI] and skips the clockwise and rotation branches. *)
Record EllipseCurve : Type := {
  aX : R;
  aY : R;
  xRadius : R;
  yRadius : R
}.

Definition getPoint (curve : EllipseCurve) (t : R) : Vector2.t :=
  let twoPi := PI * 2 in
  let deltaAngle := twoPi in
  let angle := 0 + t * deltaAngle in
  {| Vector2.x := aX curve + xRadius curve * cos angle;
     Vector2.y := aY curve + yRadius curve * sin angle |}.

(** [getPoints(divisions)]: the points at [d / divisions] for
    [d = 0 .. divisions]. *)
Definition getPoints (curve : EllipseCurve) (divisions : nat) : list Vector2.t :=
  map (fun d => getPoint curve (INR d / INR divisions)) (seq 0 (S divisions)).

End THREE.

(** ** The propagator ([static/js/model.js])

    The constants, the scale strategies, [solveKepler] and the anomaly and
    orbital-plane computations are textually the same in [model.js] and in
    its sibling copy; they are embedded once.  The two files differ in how
    they rotate the orbital-plane vector, see [Model.bodyPosition] and
    [ModelCopy.bodyPosition]. *)

Module Model.
Import Js THREE.

Definition AU : R := 149597870.7.
Definition SUN_DIAMETER : R := 1392700.
(** [J2000.getTime()]: 2000-01-01T12:00:00Z in milliseconds. *)
Definition J2000 : Z := 946728000000.
Definition TRUE_SCALE_KM_PER_UNIT : R := 10000000.

(** The orbital fields of a [planetaryData] entry or of a NEO's
    [userData]. *)
Record Body : Type := {
  a : R;
  e : R;
  i : R;
  L : R;
  varpi : R;
  Omega : R;
  orbitalPeriod : R
}.

Definition mercury : Body :=
  {| a := 0.387098; e := 0.205630; i := 7.005; L := 252.25084;
     varpi := 77.45645; Omega := 48.33167; orbitalPeriod := 87.9691 |}.
Definition venus : Body :=
  {| a := 0.723332; e := 0.006772; i := 3.395; L := 181.97973;
     varpi := 131.53298; Omega := 76.68069; orbitalPeriod := 224.701 |}.
Definition earth : Body :=
  {| a := 1.000002; e := 0.016708; i := 0.000; L := 100.46435;
     varpi := 102.94719; Omega := 0.0; orbitalPeriod := 365.256 |}.
Definition mars : Body :=
  {| a := 1.523679; e := 0.09340; i := 1.850; L := 355.45332;
     varpi := 336.04084; Omega := 49.57854; orbitalPeriod := 686.980 |}.
Definition jupiter : Body :=
  {| a := 5.2044; e := 0.0489; i := 1.303; L := 34.3964;
     varpi := 14.7284; Omega := 100.492; orbitalPeriod := 4332.59 |}.
Definition saturn : Body :=
  {| a := 9.5826; e := 0.0565; i := 2.485; L := 49.94432;
     varpi := 92.5988; Omega := 113.665; orbitalPeriod := 10759.22 |}.
Definition uranus : Body :=
  {| a := 19.2294; e := 0.0457; i := 0.772; L := 313.23218;
     varpi := 170.96424; Omega := 74.22988; orbitalPeriod := 30688.5 |}.
Definition neptune : Body :=
  {| a := 30.10366; e := 0.0113; i := 1.769; L := 304.88003;
     varpi := 44.97135; Omega := 131.72169; orbitalPeriod := 60182 |}.

Definition planetaryData : list (string * Body) :=
  [("mercury"%string, mercury); ("venus"%string, venus);
   ("earth"%string, earth); ("mars"%string, mars);
   ("jupiter"%string, jupiter); ("saturn"%string, saturn);
   ("uranus"%string, uranus); ("neptune"%string, neptune)].

(** A scale strategy. *)
Record Scale : Type := {
  distance : R -> R;
  size : R -> R
}.

Definition enhancedScale : Scale :=
  {| distance := fun d =>
       log10 (d * AU / 1e6) * sqrt d * 40 + 10 * cbrt (log10 (d * AU / 1e4));
     size := fun s => ln s / ln 2 |}.

Definition trueScale : Scale :=
  {| distance := fun d => (d * AU) / TRUE_SCALE_KM_PER_UNIT;
     size := fun s => s / TRUE_SCALE_KM_PER_UNIT |}.

(** The loop of [solveKepler], [n] passes left. *)
Fixpoint solveKepler_loop (n : nat) (M e E : R) : R :=
  match n with
  | O => E
  | S n' =>
      solveKepler_loop n' M e (E - (E - e * sin E - M) / (1 - e * cos E))
  end.

(** [solveKepler(M, e)]: seed [E = M], seven Newton steps, no test. *)
Definition solveKepler (M e : R) : R := solveKepler_loop 7 M e M.

(** [daysSinceJ2000] for a simulation time in milliseconds. *)
Definition daysSinceJ2000 (simulationTime : Z) : R :=
  (IZR simulationTime - IZR J2000) / 86400000.

(** The mean anomaly [M] (degrees) of [updatePositions]. *)
Definition meanAnomaly (data : Body) (daysSinceJ2000 : R) : R :=
  let M0 := L data - varpi data in
  let n := 360 / orbitalPeriod data in
  rem (M0 + n * daysSinceJ2000) 360.

(** The eccentric anomaly [E] (radians) of [updatePositions]. *)
Definition eccentricAnomaly (data : Body) (daysSinceJ2000 : R) : R :=
  solveKepler (degToRad (meanAnomaly data daysSinceJ2000)) (e data).

(** [x_orb] and [y_orb] of [updatePositions] for an eccentric anomaly. *)
Definition x_orb (currentScale : Scale) (data : Body) (E : R) : R :=
  let a_scaled := distance currentScale (a data) in
  a_scaled * (cos E - e data).

Definition y_orb (currentScale : Scale) (data : Body) (E : R) : R :=
  let a_scaled := distance currentScale (a data) in
  a_scaled * sqrt (1 - e data ^ 2) * sin E.

(** The rotation of [model.js]: the vector [(x_orb, 0, -y_orb)] through
    [makeRotationY(Omega) * makeRotationX(i) * makeRotationY(varpi)].
    The result is what [objGroup.position] receives. *)
Definition rotateOrbitPlane (data : Body) (x_orb y_orb : R) : Vector3 :=
  let pos_orbit_plane := {| x := x_orb; y := 0; z := - y_orb |} in
  let i_rad := degToRad (i data) in
  let Omega_rad := degToRad (Omega data) in
  let varpi_rad := degToRad (varpi data) in
  let rotationMatrix := makeRotationY Omega_rad in
  let rotationMatrix := multiply rotationMatrix (makeRotationX i_rad) in
  let rotationMatrix := multiply rotationMatrix (makeRotationY varpi_rad) in
  applyMatrix4 pos_orbit_plane rotationMatrix.

(** The body of the [forEach] of [updatePositions]: the position given to
    one body. *)
Definition bodyPosition (currentScale : Scale) (data : Body)
    (daysSinceJ2000 : R) : Vector3 :=
  let E := eccentricAnomaly data daysSinceJ2000 in
  rotateOrbitPlane data (x_orb currentScale data E) (y_orb currentScale data E).

(** A [Date].  Its time value is a whole number of milliseconds, at most
    8.64e15 from the epoch in either direction; [new Date(value)] on a
    number beyond that, or on [NaN], is an invalid date, whose
    [getTime()] is [NaN]. *)
Inductive Date : Type :=
| ValidDate (ms : Z)
| InvalidDate.

(** [date.getTime()]. *)
Definition getTime (d : Date) : num :=
  match d with
  | ValidDate ms => Num (IZR ms)
  | InvalidDate => NaN
  end.

(** [new Date(value)] on a number: the value is refused beyond 8.64e15
    and truncated to a whole number otherwise. *)
Definition new_Date (value : num) : Date :=
  match value with
  | NaN => InvalidDate
  | Num t => if gtb (Rabs t) 8.64e15 then InvalidDate else ValidDate (trunc t)
  end.

(** The clock and scale state read and written by [updatePositions]. *)
Record State : Type := {
  isPaused : bool;
  simulationTime : Date;
  timeSpeed : R;
  currentScale : Scale
}.

(** [updatePositions(elapsedTime)] over the bodies [allBodies] (those that
    have a scene object): the new state and the positions assigned.  With
    an invalid date the day count is [NaN] and so is every coordinate of
    every position; [None] stands for that position. *)
Definition updatePositions (allBodies : list (string * Body)) (st : State)
    (elapsedTime : R) : State * list (string * option Vector3) :=
  if isPaused st then (st, [])
  else
    let simulationTime' :=
      new_Date
        match getTime (simulationTime st) with
        | Num t => Num (t + elapsedTime * timeSpeed st * 1000)
        | NaN => NaN
        end in
    ({| isPaused := isPaused st;
        simulationTime := simulationTime';
        timeSpeed := timeSpeed st;
        currentScale := currentScale st |},
     map (fun kd =>
            (fst kd,
             match getTime simulationTime' with
             | Num t =>
                 let daysSinceJ2000 := (t - IZR J2000) / 86400000 in
                 Some (bodyPosition (currentScale st) (snd kd) daysSinceJ2000)
             | NaN => None
             end))
         allBodies).

(** *** Near-Earth objects ([createNEOs] and the random fallback) *)

(** An entry of [neoData]; [M0] and [L] may be absent. *)
Module NeoData.
Record t : Type := {
  name : string;
  a : R;
  e : R;
  i : R;
  Omega : R;
  varpi : R;
  M0 : option R;
  L : option R
}.
End NeoData.

(** The [userData] of a NEO; its period is [NaN] when [Math.sqrt] gets a
    negative argument. *)
Module UserData.
Record t : Type := {
  a : R;
  e : R;
  i : R;
  L : R;
  varpi : R;
  Omega : R;
  orbitalPeriod : num;
  enhancedRadius : R
}.
End UserData.

Definition neoData : list NeoData.t :=
  [ {| NeoData.name := "1979 XB"; NeoData.a := 2.23; NeoData.e := 0.708;
       NeoData.i := 24.7; NeoData.Omega := 86.1; NeoData.varpi := 75.6;
       NeoData.M0 := Some 2444267.667; NeoData.L := None |};
    {| NeoData.name := "2022 KK2"; NeoData.a := 1.2; NeoData.e := 0.513;
       NeoData.i := 3.12; NeoData.Omega := 58.9; NeoData.varpi := 75.3;
       NeoData.M0 := Some 2459660.086; NeoData.L := None |};
    {| NeoData.name := "2000 SG344"; NeoData.a := 0.977; NeoData.e := 0.0669;
       NeoData.i := 0.113; NeoData.Omega := 192.0; NeoData.varpi := 276.0;
       NeoData.M0 := Some 2461083.186; NeoData.L := None |};
    {| NeoData.name := "2012 VS76"; NeoData.a := 0.991; NeoData.e := 0.386;
       NeoData.i := 0.807; NeoData.Omega := 242.0; NeoData.varpi := 285.0;
       NeoData.M0 := Some 2461000.873; NeoData.L := None |} ].

(** The [userData] that the [forEach] of [createNEOs] builds for an entry.
    On a number, [data.varpi || 0] and [data.Omega || 0] are the number
    itself. *)
Definition createNEOs_userData (data : NeoData.t) : UserData.t :=
  let enhancedRadius := 0.8 in
  let a_au := NeoData.a data in
  let orbitalPeriod := num_mul (Math_sqrt (a_au ^ 3)) 365.25 in
  let L :=
    match NeoData.M0 data with
    | Some M0 => rem (M0 + NeoData.varpi data) 360
    | None => match NeoData.L data with Some L => L | None => 0 end
    end in
  {| UserData.a := a_au; UserData.e := NeoData.e data;
     UserData.i := NeoData.i data; UserData.L := L;
     UserData.varpi := NeoData.varpi data;
     UserData.Omega := NeoData.Omega data;
     UserData.orbitalPeriod := orbitalPeriod;
     UserData.enhancedRadius := enhancedRadius |}.

(** The seven values of [Math.random()] drawn for one fallback NEO, in the
    order of the calls. *)
Record Draws : Type := {
  u_radius : R;
  u_a : R;
  u_e : R;
  u_inc : R;
  u_M0 : R;
  u_Omega : R;
  u_varpi : R
}.

(** The [userData] of one NEO of [createNEOsRandomFallback] (and of
    [createFallbackNEOs] in the sibling copy). *)
Definition createNEOsRandomFallback_userData (u : Draws) : UserData.t :=
  let enhancedRadius := u_radius u * 1.5 + 0.5 in
  let a_au := u_a u * 3 + 0.5 in
  let e := u_e u * 0.7 + 0.1 in
  let inc := u_inc u * 20 in
  let M0 := u_M0 u * 360 in
  let Omega := u_Omega u * 360 in
  let varpi := u_varpi u * 360 in
  let period := num_mul (Math_sqrt (a_au ^ 3)) 365.25 in
  {| UserData.a := a_au; UserData.e := e; UserData.i := inc;
     UserData.L := rem (M0 + varpi) 360;
     UserData.varpi := varpi; UserData.Omega := Omega;
     UserData.orbitalPeriod := period;
     UserData.enhancedRadius := enhancedRadius |}.

(** The orbital fields that [updatePositions] reads from a [userData],
    when its period is a number. *)
Definition body_of (u : UserData.t) : option Body :=
  match UserData.orbitalPeriod u with
  | Num period =>
      Some {| a := UserData.a u; e := UserData.e u; i := UserData.i u;
              L := UserData.L u; varpi := UserData.varpi u;
              Omega := UserData.Omega u; orbitalPeriod := period |}
  | NaN => None
  end.

(** *** Orbit lines ([createPlanets], [createNEOs], [updateScales]) *)

(** The ellipse of an orbit: semi-axes [a] and [b], centre at [(-a e, 0)]
    so that a focus is at the origin. *)
Definition orbitCurve (currentScale : Scale) (a_au e_ : R) : EllipseCurve :=
  let a := distance currentScale a_au in
  let b := a * sqrt (1 - e_ ^ 2) in
  {| aX := - a * e_; aY := 0; xRadius := a; yRadius := b |}.

(** [p => new THREE.Vector3(p.x, 0, -p.y)]. *)
Definition transformPoint (p : Vector2.t) : Vector3 :=
  {| x := Vector2.x p; y := 0; z := - Vector2.y p |}.

(** The vertices given to an orbit line: [transformedPoints]. *)
Definition transformedPoints (currentScale : Scale) (a_au e_ : R)
    (divisions : nat) : list Vector3 :=
  map transformPoint (getPoints (orbitCurve currentScale a_au e_) divisions).

(** Where a vertex of an orbit line is drawn.  The line is the child of
    [group_omega] ([rotation.y = omega]), itself in [group_i]
    ([rotation.x = i]), itself in [group_Omega] ([rotation.y = Omega]),
    which is added to the scene; the groups are neither moved nor scaled,
    so each contributes the rotation matrix of its angle. *)
Definition groupWorldPosition (Omega_deg i_deg omega_deg : R) (v : Vector3)
  : Vector3 :=
  let in_group_omega := applyMatrix4 v (makeRotationY (degToRad omega_deg)) in
  let in_group_i := applyMatrix4 in_group_omega (makeRotationX (degToRad i_deg)) in
  applyMatrix4 in_group_i (makeRotationY (degToRad Omega_deg)).

(** The groups of a planet ([createPlanets]). *)
Definition planetOrbitWorld (data : Body) (v : Vector3) : Vector3 :=
  let omega := varpi data - Omega data in
  groupWorldPosition (Omega data) (i data) omega v.

(** The groups of a NEO ([createNEOs] of [model.js]).  Whether the line
    has vertices at all is decided by [updateScales_neoOrbitLine]
    below. *)
Definition neoOrbitWorld (data : NeoData.t) (v : Vector3) : Vector3 :=
  let omega := NeoData.varpi data in
  groupWorldPosition (NeoData.Omega data) (NeoData.i data) omega v.

(** The vertices that [updateScales] gives the orbit line of a NEO: the
    line is regenerated only under [if (userData && userData.a)], so a
    NEO whose semi-major axis is zero gets none. *)
Definition updateScales_neoOrbitLine (currentScale : Scale) (userData : UserData.t)
  : option (list Vector3) :=
  if falsy (Num (UserData.a userData)) then None
  else
    Some (transformedPoints currentScale (UserData.a userData)
            (UserData.e userData) 100).

(** *** The time-speed slider ([setupUI]) *)

(** The speed that [updateSpeed] sets for the slider position [val]. *)
Definition updateSpeed (val : Z) : R :=
  let minp := 0 in
  let maxp := 1000 in
  let minv := ln 1 in
  let maxv := ln (86400 * 365 * 20) in
  let scale := (maxv - minv) / (maxp - minp) in
  exp (minv + scale * (IZR val - minp)).

(** The slider position after a click on the forward and on the backward
    button. *)
Definition time_forward_btn (val : Z) : Z := Z.min (val + 50) 1000.
Definition time_backward_btn (val : Z) : Z := Z.max (val - 50) 0.

End Model.

(** ** The sibling copy of the propagator

    Same file as [model.js] up to the rotation: here the orbital-plane
    vector [(x_orb, y_orb, 0)] goes through [makeRotationZ(omega)], then
    [makeRotationX(i)], then [makeRotationZ(Omega)] with
    [omega = varpi - Omega], and the ecliptic result is mapped to the
    three.js axes afterwards. *)

Module ModelCopy.
Import Js THREE Model.

(** The ecliptic vector [pos] after the three [applyMatrix4] calls. *)
Definition eclipticPosition (data : Body) (x_orb y_orb : R) : Vector3 :=
  let omega := varpi data - Omega data in
  let mOmega := makeRotationZ (degToRad (Omega data)) in
  let mI := makeRotationX (degToRad (i data)) in
  let m_omega := makeRotationZ (degToRad omega) in
  let pos := {| x := x_orb; y := y_orb; z := 0 |} in
  applyMatrix4 (applyMatrix4 (applyMatrix4 pos m_omega) mI) mOmega.

(** [objGroup.position.set(pos.x, pos.z, -pos.y)]. *)
Definition rotateOrbitPlane (data : Body) (x_orb y_orb : R) : Vector3 :=
  let pos := eclipticPosition data x_orb y_orb in
  {| x := x pos; y := z pos; z := - y pos |}.

Definition bodyPosition (currentScale : Scale) (data : Body)
    (daysSinceJ2000 : R) : Vector3 :=
  let E := eccentricAnomaly data daysSinceJ2000 in
  rotateOrbitPlane data (x_orb currentScale data E) (y_orb currentScale data E).

End ModelCopy.

(** ** The rotation of the specification

    [R_z], [R_x] as the usual rotations of the ecliptic frame, and the
    composition [R_z(Omega) . R_x(i) . R_z(omega)] (angles in radians).
    [toThree] is the axis change between the ecliptic frame and the
    three.js scene: ecliptic [(X, Y, Z)] is scene [(X, Z, -Y)]. *)

Module Spec.
Import THREE.

Definition R_z (t : R) (v : Vector3) : Vector3 :=
  {| x := cos t * x v - sin t * y v;
     y := sin t * x v + cos t * y v;
     z := z v |}.

Definition R_x (t : R) (v : Vector3) : Vector3 :=
  {| x := x v;
     y := cos t * y v - sin t * z v;
     z := sin t * y v + cos t * z v |}.

Definition rotation (Omega i omega : R) (v : Vector3) : Vector3 :=
  R_z Omega (R_x i (R_z omega v)).

Definition toThree (v : Vector3) : Vector3 :=
  {| x := x v; y := z v; z := - y v |}.

(** [x mod 360] with a result in [[0, 360)]. *)
Definition mod360 (x : R) : R := x - 360 * IZR (Int_part (x / 360)).

(** The residual of Kepler's equation. *)
Definition keplerResidual (M e E : R) : R := E - e * sin E - M.

(** The kinetic energy of the specification, [(pi/12) rho d^3 v^2]. *)
Definition kineticEnergy (rho d v : R) : R := (PI / 12) * rho * d ^ 3 * v ^ 2.

(** [x] agrees with the stated figure [y] up to the relative error [tol]. *)
Definition approx (tol x y : R) : Prop := Rabs (x - y) <= tol * Rabs y.

End Spec.

(** ** The error of the Newton iteration *)

Module Kepler.

(** One Newton step of [solveKepler]. *)
Definition newton (M e E : R) : R := E - (E - e * sin E - M) / (1 - e * cos E).

(** With [Es] a solution for [M] and [E = Es + d], the next error is
    [Phi e Es d]:  [sin Es * A d + cos Es * B d] is
    [sin (Es + d) - sin Es - d * cos (Es + d)]. *)
Definition A (d : R) : R := cos d - 1 + d * sin d.
Definition B (d : R) : R := sin d - d * cos d.
Definition Phi (e Es d : R) : R :=
  e * (sin Es * A d + cos Es * B d) / (1 - e * cos (Es + d)).

Fixpoint err_loop (n : nat) (e Es d : R) : R :=
  match n with
  | O => d
  | S n' => err_loop n' e Es (Phi e Es d)
  end.

(** The terms of the sine series, without their sign. *)
Definition T (a : R) (i : nat) : R := a ^ (2 * i + 1) / INR (fact (2 * i + 1)).

End Kepler.

(** ** Fixed-point interval arithmetic

    Bounds are integers ([bigZ]) read in units of [2^-32]; an interval is a
    pair of bounds.  Lower bounds are rounded down and upper bounds up. *)

Module Fix.
Local Open Scope bigZ_scope.

Definition scale : bigZ := 4294967296.

(** Floor and ceiling of a quotient. *)
Definition fl (n d : bigZ) : bigZ := n / d.
Definition cl (n d : bigZ) : bigZ := - ((- n) / d).

Definition I : Type := (bigZ * bigZ)%type.

Definition one : I := (scale, scale).
Definition pt (x : bigZ) : I := (x, x).

Definition iadd (a b : I) : I := (fst a + fst b, snd a + snd b).
Definition isub (a b : I) : I := (fst a - snd b, snd a - fst b).
Definition iopp (a : I) : I := (- snd a, - fst a).

Definition imul (a b : I) : I :=
  let p1 := fst a * fst b in
  let p2 := fst a * snd b in
  let p3 := snd a * fst b in
  let p4 := snd a * snd b in
  (fl (BigZ.min (BigZ.min p1 p2) (BigZ.min p3 p4)) scale,
   cl (BigZ.max (BigZ.max p1 p2) (BigZ.max p3 p4)) scale).

(** Division and multiplication by a positive whole number. *)
Definition idivk (a : I) (k : bigZ) : I := (fl (fst a) k, cl (snd a) k).
Definition imulk (a : I) (k : bigZ) : I := (fst a * k, snd a * k).

(** Division by an interval of positive numbers. *)
Definition idiv_pos (n d : I) : I :=
  (if 0 <=? fst n then fl (fst n * scale) (snd d) else fl (fst n * scale) (fst d),
   if 0 <=? snd n then cl (snd n * scale) (fst d) else cl (snd n * scale) (snd d)).

(** The real number a bound stands for, and membership in an interval. *)
Definition val (x : bigZ) : R := (IZR (BigZ.to_Z x) / IZR (BigZ.to_Z scale))%R.
Definition encl (i : I) (x : R) : Prop := (val (fst i) <= x <= val (snd i))%R.

End Fix.

(** ** The certificate checker

    Enclosures of [sin] and [cos] by the partial sums of the sine series,
    of [A], [B] and [cos] over an interval by their monotonicity, and of
    one step of the error recurrence; a box of eccentricities and
    solutions [Es] is accepted when seven enclosed steps from
    [d = - e sin Es] end within [5e-7].  [cover] bisects a box until every
    piece is accepted. *)

Module Checker.
Import Fix.
Local Open Scope bigZ_scope.

(** Whole-number bounds (in units of [2^-32]) of [PI], [PI/2], [5e-7]
    and [0.95]. *)
Definition PI_LO : bigZ := 13492639760.
Definition PI_HI : bigZ := 13493498754.
Definition HPI_LO : bigZ := 6746319880.
Definition HPI_HI : bigZ := 6746749377.
Definition TARGET : bigZ := 2147.
Definition E_MAX : bigZ := 4080218932.

(** Terms [a^(2i+1)/(2i+1)!] and partial sums of the sine series, two
    terms per pass; [k] is [2 i]. *)
Fixpoint sin_terms (n : nat) (k : bigZ) (a2 t acc : I) : I * I :=
  match n with
  | O => (t, acc)
  | S n' =>
      let t1 := idivk (imul t a2) ((k + 2) * (k + 3)) in
      let t2 := idivk (imul t1 a2) ((k + 4) * (k + 5)) in
      sin_terms n' (k + 4) a2 t2 (iadd (isub acc t1) t2)
  end.

(** [sin] over [[al, au]], from the partial sums of orders 9 and 10. *)
Definition sin_encl (al au : bigZ) : I :=
  if (0 <=? al) && (au <=? 4 * scale) then
    let a := (al, au) in
    let a2 := imul a a in
    let '(t, acc) := sin_terms 4 0 a2 a a in
    let t9 := idivk (imul t a2) (18 * 19) in
    let t10 := idivk (imul t9 a2) (20 * 21) in
    let s9 := isub acc t9 in
    (fst s9, snd (iadd s9 t10))
  else (- scale, scale).

Definition sin_pt (x : bigZ) : I := sin_encl x x.

(** [cos x = 1 - 2 sin^2 (x/2)]. *)
Definition cos_pt (x : bigZ) : I :=
  let s := sin_encl (fl x 2) (cl x 2) in
  isub one (imulk (imul s s) 2).

Definition A_pt (x : bigZ) : I :=
  iadd (isub (cos_pt x) one) (imul (pt x) (sin_pt x)).

Definition B_pt (x : bigZ) : I :=
  isub (sin_pt x) (imul (pt x) (cos_pt x)).

(** [A] over [[l, u]] with [0 <= l]: least at an end, greatest at the end
    on the side of [PI/2], or [PI/2 - 1]. *)
Definition A_pos (l u : bigZ) : option I :=
  if u <=? PI_LO then
    Some (BigZ.min (fst (A_pt l)) (fst (A_pt u)),
          if u <=? HPI_LO then snd (A_pt u)
          else if HPI_HI <=? l then snd (A_pt l)
          else HPI_HI - scale)
  else None.

Definition A_rng (l u : bigZ) : option I :=
  if 0 <=? l then A_pos l u
  else if u <=? 0 then A_pos (- u) (- l)
  else
    let m := BigZ.max (- l) u in
    if m <=? HPI_LO then Some (0, snd (A_pt m)) else None.

(** [B] is odd and increasing on [[-PI, PI]]. *)
Definition B_rng (l u : bigZ) : option I :=
  if (- PI_LO <=? l) && (u <=? PI_LO) then
    Some (if 0 <=? l then fst (B_pt l) else - snd (B_pt (- l)),
          if 0 <=? u then snd (B_pt u) else - fst (B_pt (- u)))
  else None.

(** [cos] over [[lo, hi]]. *)
Definition cos_rng (lo hi : bigZ) : I :=
  if 0 <=? lo then
    (if hi <=? PI_LO then fst (cos_pt hi)
     else if (PI_HI <=? lo) && (hi <=? 2 * PI_LO) then fst (cos_pt lo)
     else - scale,
     if hi <=? 2 * PI_LO then BigZ.max (snd (cos_pt lo)) (snd (cos_pt hi))
     else scale)
  else (- scale, scale).

(** [sin Es] for [Es] in [[a, b]] and in [[0, PI]]. *)
Definition sin_rng (a b : bigZ) : I :=
  (if (0 <=? a) && (b <=? PI_LO)
   then BigZ.max 0 (BigZ.min (fst (sin_pt a)) (fst (sin_pt b)))
   else 0,
   if b <=? HPI_LO then snd (sin_pt b)
   else if HPI_HI <=? a then snd (sin_pt a)
   else scale).

(** One step of the error recurrence on the box: [Es] in [[a, b]] with
    [c], [s] enclosing its cosine and sine, [e] the eccentricities and [d]
    the errors. *)
Definition step (a b : bigZ) (c s e d : I) : option I :=
  match A_rng (fst d) (snd d), B_rng (fst d) (snd d) with
  | Some A, Some B =>
      let G := iadd (imul s A) (imul c B) in
      let C := cos_rng (a + fst d) (b + snd d) in
      let D := isub one (imul e C) in
      if 0 <? fst D then
        let r := idiv_pos (imul e G) D in
        let m := BigZ.max (- fst d) (snd d) in
        let m2 := cl (m * m) scale in
        let m3 := cl (m2 * m) scale in
        let q := cl (cl (snd e * (cl m2 2 + cl m3 6)) scale * scale) (fst D) in
        Some (BigZ.max (fst r) (- q), BigZ.min (snd r) q)
      else None
  | _, _ => None
  end.

Fixpoint steps (n : nat) (a b : bigZ) (c s e : I) (d : I) : option I :=
  match n with
  | O => Some d
  | S n' =>
      match step a b c s e d with
      | Some d' => steps n' a b c s e d'
      | None => None
      end
  end.

Definition check (a b e1 e2 : bigZ) : bool :=
  let s := sin_rng a b in
  let c := cos_rng a b in
  let e := (e1, e2) in
  match steps 7 a b c s e (iopp (imul e s)) with
  | Some d => BigZ.max (- fst d) (snd d) <=? TARGET
  | None => false
  end.

(** Bisection of the box [[a, b] x [e1, e2]]. *)
Fixpoint cover (fuel : nat) (a b e1 e2 : bigZ) : bool :=
  if check a b e1 e2 then true
  else
    match fuel with
    | O => false
    | S fuel' =>
        if 3 * (e2 - e1) <=? b - a then
          let m := (a + b) / 2 in
          cover fuel' a m e1 e2 && cover fuel' m b e1 e2
        else
          let m := (e1 + e2) / 2 in
          cover fuel' a b e1 m && cover fuel' a b m e2
    end.

End Checker.

(** * Properties *)

(** Decimal literals with an exponent, evaluated for [field]. *)
Ltac lits :=
  cbv [Q2R QArith_base.Qnum QArith_base.Qden];
  repeat match goal with
  | |- context [Z.pow_pos ?b ?n] =>
      let v := eval vm_compute in (Z.pow_pos b n) in
      change (Z.pow_pos b n) with v
  end.

(** ** Comparisons and [Math] functions *)

Section JsFacts.
Import Js.

Lemma ltb_true (x y : R) : x < y -> ltb x y = true.
Proof. intros H; unfold ltb; destruct (Rlt_dec x y); [reflexivity | contradiction]. Qed.

Lemma ltb_false (x y : R) : y <= x -> ltb x y = false.
Proof. intros H; unfold ltb; destruct (Rlt_dec x y); [lra | reflexivity]. Qed.

Lemma leb_true (x y : R) : x <= y -> leb x y = true.
Proof. intros H; unfold leb; destruct (Rle_dec x y); [reflexivity | contradiction]. Qed.

Lemma leb_false (x y : R) : y < x -> leb x y = false.
Proof. intros H; unfold leb; destruct (Rle_dec x y); [lra | reflexivity]. Qed.

Lemma ltb_spec (x y : R) : ltb x y = true <-> x < y.
Proof.
  unfold ltb; destruct (Rlt_dec x y); split; intros; try assumption;
    try reflexivity; try discriminate; contradiction.
Qed.

Lemma cbrt_pos_eq (x : R) : 0 < x -> cbrt x = Rpower x (/ 3).
Proof. intros H; unfold cbrt; destruct (Rlt_dec 0 x); [reflexivity | contradiction]. Qed.

Lemma cbrt_pos (x : R) : 0 < x -> 0 < cbrt x.
Proof. intros H; rewrite cbrt_pos_eq by assumption; apply exp_pos. Qed.

Lemma cbrt_lt (x y : R) : 0 < x -> x < y -> cbrt x < cbrt y.
Proof.
  intros Hx Hxy; rewrite !cbrt_pos_eq by lra.
  apply Rlt_Rpower_l; lra.
Qed.

(** The cube root is a cube root. *)
Lemma cbrt_cube (x : R) : 0 < x -> cbrt x ^ 3 = x.
Proof.
  intros H; rewrite cbrt_pos_eq by assumption.
  rewrite <- Rpower_pow by apply exp_pos.
  rewrite Rpower_mult.
  replace (/ 3 * INR 3) with 1 by (simpl; field).
  apply Rpower_1; assumption.
Qed.

Lemma round_0 : round 0 = 0.
Proof.
  unfold round; rewrite <- (Int_part_spec (0 + / 2) 0); [reflexivity | simpl; lra].
Qed.

End JsFacts.

(** ** The impact calculator *)

Section ImpactFacts.
Import Js ImpactCalculator.

Lemma kineticEnergy_pos (d s dia : R) :
  0 < d -> 0 < s -> 0 < dia -> 0 < PI / 12 * d * dia ^ 3 * s ^ 2.
Proof.
  intros Hd Hs Hdia.
  assert (HPI := PI_RGT_0).
  apply Rmult_lt_0_compat; [apply Rmult_lt_0_compat |];
    [apply Rmult_lt_0_compat; lra | apply pow_lt; exact Hdia | apply pow_lt; exact Hs].
Qed.

(** On arguments that convert to positive numbers the call returns, with
    the record of the source. *)
Lemma calculateImpactRadius_ok (density speed diameter : value) (d s dia : R) :
  ToNumber density = Num d -> ToNumber speed = Num s ->
  ToNumber diameter = Num dia ->
  0 < d -> 0 < s -> 0 < dia ->
  exists r,
    calculateImpactRadius density speed diameter = Ok r /\
    kinetic_energy_joules r = PI / 12 * d * dia ^ 3 * s ^ 2 /\
    kinetic_energy_megatons r = kinetic_energy_joules r / 4.184e15 /\
    severe_radius_km r = severe_k * cbrt (kinetic_energy_joules r) / 1000 /\
    moderate_radius_km r = moderate_k * cbrt (kinetic_energy_joules r) / 1000 /\
    light_radius_km r = light_k * cbrt (kinetic_energy_joules r) / 1000.
Proof.
  intros Ed Es Edia Hd Hs Hdia.
  eexists; split.
  - unfold calculateImpactRadius; rewrite Ed, Es, Edia.
    rewrite !(leb_false _ 0) by assumption; cbn [orb].
    reflexivity.
  - cbn [kinetic_energy_joules kinetic_energy_megatons severe_radius_km
           moderate_radius_km light_radius_km].
    repeat split; reflexivity.
Qed.

(** The call returns only on arguments that convert to positive numbers. *)
Lemma calculateImpactRadius_ok_inv (density speed diameter : value) r :
  calculateImpactRadius density speed diameter = Ok r ->
  exists d s dia,
    ToNumber density = Num d /\ ToNumber speed = Num s /\
    ToNumber diameter = Num dia /\ 0 < d /\ 0 < s /\ 0 < dia.
Proof.
  unfold calculateImpactRadius.
  destruct (ToNumber density) as [| d]; [discriminate |].
  destruct (ToNumber speed) as [| s]; [discriminate |].
  destruct (ToNumber diameter) as [| dia]; [discriminate |].
  unfold leb.
  destruct (Rle_dec d 0); [discriminate |].
  destruct (Rle_dec s 0); [discriminate |].
  destruct (Rle_dec dia 0); [discriminate |].
  intros _; exists d, s, dia; repeat split; lra.
Qed.

End ImpactFacts.

(** C4.  For every valid input of [calculateImpactRadius] (arguments that
    convert to a positive density, speed and diameter) the call returns,
    each radius is [k * E^(1/3) / 1000] for the same energy [E] with
    [k_severe = 1.8e-4 < k_moderate = 4.0e-4 < k_light = 8.0e-4], and
    [severe_radius_km <= moderate_radius_km <= light_radius_km]. *)
Theorem C4_radii_nested (density speed diameter : Js.value) (d s dia : R) :
  Js.ToNumber density = Js.Num d -> Js.ToNumber speed = Js.Num s ->
  Js.ToNumber diameter = Js.Num dia ->
  0 < d -> 0 < s -> 0 < dia ->
  exists r,
    ImpactCalculator.calculateImpactRadius density speed diameter = Ok r /\
    let E := ImpactCalculator.kinetic_energy_joules r in
    ImpactCalculator.severe_radius_km r = 1.8e-4 * Rpower E (/ 3) / 1000 /\
    ImpactCalculator.moderate_radius_km r = 4.0e-4 * Rpower E (/ 3) / 1000 /\
    ImpactCalculator.light_radius_km r = 8.0e-4 * Rpower E (/ 3) / 1000 /\
    1.8e-4 < 4.0e-4 < 8.0e-4 /\
    ImpactCalculator.severe_radius_km r <= ImpactCalculator.moderate_radius_km r /\
    ImpactCalculator.moderate_radius_km r <= ImpactCalculator.light_radius_km r.
Proof.
  intros Ed Es Edia Hd Hs Hdia.
  destruct (calculateImpactRadius_ok _ _ _ _ _ _ Ed Es Edia Hd Hs Hdia)
    as (r & Hr & HE & _ & Hsev & Hmod & Hlight).
  exists r; split; [exact Hr |].
  cbv zeta.
  assert (HEpos : 0 < ImpactCalculator.kinetic_energy_joules r)
    by (rewrite HE; apply kineticEnergy_pos; assumption).
  assert (Hc := cbrt_pos _ HEpos).
  rewrite <- (cbrt_pos_eq _ HEpos).
  rewrite Hsev, Hmod, Hlight.
  unfold ImpactCalculator.severe_k, ImpactCalculator.moderate_k,
    ImpactCalculator.light_k.
  repeat split; try reflexivity; try lra.
Qed.

Lemma C4_radii_nested_witness :
  exists r,
    ImpactCalculator.calculateImpactRadius
      (Js.Number (Js.Num 3000)) (Js.Number (Js.Num 20000)) (Js.Number (Js.Num 100)) = Ok r /\
    ImpactCalculator.severe_radius_km r <= ImpactCalculator.moderate_radius_km r /\
    ImpactCalculator.moderate_radius_km r <= ImpactCalculator.light_radius_km r.
Proof.
  destruct (C4_radii_nested (Js.Number (Js.Num 3000)) (Js.Number (Js.Num 20000))
              (Js.Number (Js.Num 100)) 3000 20000 100)
    as (r & Hr & _ & _ & _ & _ & H1 & H2);
    [reflexivity | reflexivity | reflexivity | lra | lra | lra |].
  exists r; repeat split; assumption.
Defined.

Lemma PI_bounds : 3.1415 < PI < 3.1417.
Proof.
  assert (H := PI_2_3_7_ineq 2).
  unfold PI_2_3_7_tg, tg_alt, Ratan_seq in H.
  simpl in H.
  lra.
Qed.

(** C5, with the figures of the code.  The kinetic energy computed from
    physical parameters is [(pi/12) rho d^3 v^2], by
    [calculateImpactRadius] in joules and by [energyFromSizeMt] (speed in
    km/s) in megatons; for diameter 100 m, density 3000 kg/m^3 and speed
    20000 m/s it is [pi * 1e17] J, about 3.14e17 J, about 75.1 Mt. *)
Theorem C5_energy_formula (rho d v : R) :
  0 < rho -> 0 < d -> 0 < v ->
  (exists r,
     ImpactCalculator.calculateImpactRadius
       (Js.Number (Js.Num rho)) (Js.Number (Js.Num v)) (Js.Number (Js.Num d)) = Ok r /\
     ImpactCalculator.kinetic_energy_joules r = Spec.kineticEnergy rho d v /\
     ImpactCalculator.kinetic_energy_megatons r = Spec.kineticEnergy rho d v / 4.184e15) /\
  PalermoCalculator.energyFromSizeMt (Js.Num d) (Js.Num rho) (Js.Num (v / 1000)) =
    Js.Num (Spec.kineticEnergy rho d v / 4.184e15) /\
  Spec.kineticEnergy 3000 100 20000 = PI * 1e17 /\
  3.141e17 < Spec.kineticEnergy 3000 100 20000 < 3.142e17 /\
  75.0 < Spec.kineticEnergy 3000 100 20000 / 4.184e15 < 75.1.
Proof.
  intros Hrho Hd Hv.
  assert (HPI := PI_bounds).
  assert (Hex : Spec.kineticEnergy 3000 100 20000 = PI * 1e17)
    by (unfold Spec.kineticEnergy; lra).
  split; [| split; [| split; [exact Hex | rewrite Hex; split; lra]]].
  - destruct (calculateImpactRadius_ok (Js.Number (Js.Num rho)) (Js.Number (Js.Num v))
                (Js.Number (Js.Num d)) rho v d eq_refl eq_refl eq_refl Hrho Hv Hd)
      as (r & Hr & HE & HMt & _).
    exists r; split; [exact Hr |].
    unfold Spec.kineticEnergy; rewrite HMt, HE; split; reflexivity.
  - unfold PalermoCalculator.energyFromSizeMt, Js.falsy.
    destruct (Req_dec_T d 0); [lra |].
    destruct (Req_dec_T rho 0); [lra |].
    destruct (Req_dec_T (v / 1000) 0); [lra |].
    rewrite !(leb_false _ 0) by lra; cbn [orb].
    f_equal; unfold Spec.kineticEnergy, PalermoCalculator.MT_J; lits; field.
Qed.

Lemma C5_energy_formula_witness :
  PalermoCalculator.energyFromSizeMt (Js.Num 100) (Js.Num 3000) (Js.Num (20000 / 1000)) =
    Js.Num (Spec.kineticEnergy 3000 100 20000 / 4.184e15).
Proof.
  apply (C5_energy_formula 3000 100 20000); lra.
Defined.

(** C5, the example as stated: at diameter 100 m, density 3000 kg/m^3 and
    speed 20000 m/s the energy returned is 500 times the 6.28e14 J of the
    example and the megaton value about half of its 150 Mt; neither is
    within a quarter of the stated figure. *)
Lemma C5_example_counterexample :
  exists r,
    ImpactCalculator.calculateImpactRadius
      (Js.Number (Js.Num 3000)) (Js.Number (Js.Num 20000)) (Js.Number (Js.Num 100)) = Ok r /\
    ~ Spec.approx (1 / 4) (ImpactCalculator.kinetic_energy_joules r) 6.28e14 /\
    ~ Spec.approx (1 / 4) (ImpactCalculator.kinetic_energy_megatons r) 150.
Proof.
  assert (HPI := PI_bounds).
  destruct (calculateImpactRadius_ok (Js.Number (Js.Num 3000)) (Js.Number (Js.Num 20000))
              (Js.Number (Js.Num 100)) 3000 20000 100 eq_refl eq_refl eq_refl)
    as (r & Hr & HE & HMt & _); [lra | lra | lra |].
  assert (HE' : ImpactCalculator.kinetic_energy_joules r = PI * 1e17)
    by (rewrite HE; lra).
  exists r; split; [exact Hr |].
  unfold Spec.approx; rewrite HMt, HE'.
  split; intros H.
  - rewrite Rabs_pos_eq in H by lra.
    rewrite (Rabs_pos_eq 6.28e14) in H by lra. lra.
  - rewrite (Rabs_pos_eq 150) in H by lra.
    unfold Rabs in H; destruct (Rcase_abs _) in H; lra.
Qed.

(** C8.  Over positive inputs, the kinetic energy and each of the three
    radii returned by [calculateImpactRadius] strictly increase when one of
    density, speed, diameter increases and the other two are kept. *)
Theorem C8_strictly_increasing (d s dia d' s' dia' : R) :
  0 < d -> 0 < s -> 0 < dia ->
  (d < d' /\ s = s' /\ dia = dia') \/
  (d = d' /\ s < s' /\ dia = dia') \/
  (d = d' /\ s = s' /\ dia < dia') ->
  exists r r',
    ImpactCalculator.calculateImpactRadius
      (Js.Number (Js.Num d)) (Js.Number (Js.Num s)) (Js.Number (Js.Num dia)) = Ok r /\
    ImpactCalculator.calculateImpactRadius
      (Js.Number (Js.Num d')) (Js.Number (Js.Num s')) (Js.Number (Js.Num dia')) = Ok r' /\
    ImpactCalculator.kinetic_energy_joules r < ImpactCalculator.kinetic_energy_joules r' /\
    ImpactCalculator.severe_radius_km r < ImpactCalculator.severe_radius_km r' /\
    ImpactCalculator.moderate_radius_km r < ImpactCalculator.moderate_radius_km r' /\
    ImpactCalculator.light_radius_km r < ImpactCalculator.light_radius_km r'.
Proof.
  intros Hd Hs Hdia Hcase.
  assert (Hd' : 0 < d') by (destruct Hcase as [H | [H | H]]; lra).
  assert (Hs' : 0 < s') by (destruct Hcase as [H | [H | H]]; lra).
  assert (Hdia' : 0 < dia') by (destruct Hcase as [H | [H | H]]; lra).
  destruct (calculateImpactRadius_ok (Js.Number (Js.Num d)) (Js.Number (Js.Num s))
              (Js.Number (Js.Num dia)) d s dia eq_refl eq_refl eq_refl Hd Hs Hdia)
    as (r & Hr & HE & _ & Hsev & Hmod & Hlight).
  destruct (calculateImpactRadius_ok (Js.Number (Js.Num d')) (Js.Number (Js.Num s'))
              (Js.Number (Js.Num dia')) d' s' dia' eq_refl eq_refl eq_refl Hd' Hs' Hdia')
    as (r' & Hr' & HE' & _ & Hsev' & Hmod' & Hlight').
  exists r, r'; split; [exact Hr |]; split; [exact Hr' |].
  assert (Hpos := kineticEnergy_pos d s dia Hd Hs Hdia).
  assert (HPI := PI_RGT_0).
  assert (Hlt : ImpactCalculator.kinetic_energy_joules r <
                ImpactCalculator.kinetic_energy_joules r').
  { rewrite HE, HE'.
    assert (H3 : 0 < dia ^ 3) by (apply pow_lt; exact Hdia).
    assert (H2 : 0 < s ^ 2) by (apply pow_lt; exact Hs).
    destruct Hcase as [(Hlt & <- & <-) | [(<- & Hlt & <-) | (<- & <- & Hlt)]].
    - apply Rmult_lt_compat_r; [exact H2 |].
      apply Rmult_lt_compat_r; [exact H3 |].
      apply Rmult_lt_compat_l; lra.
    - apply Rmult_lt_compat_l.
      + apply Rmult_lt_0_compat; [apply Rmult_lt_0_compat; lra | exact H3].
      + simpl; nra.
    - apply Rmult_lt_compat_r; [exact H2 |].
      apply Rmult_lt_compat_l; [apply Rmult_lt_0_compat; lra |].
      assert (dia * dia < dia' * dia') by nra.
      simpl; nra. }
  split; [exact Hlt |].
  assert (Hc : Js.cbrt (ImpactCalculator.kinetic_energy_joules r) <
               Js.cbrt (ImpactCalculator.kinetic_energy_joules r')).
  { apply cbrt_lt; [rewrite HE; exact Hpos | exact Hlt]. }
  rewrite Hsev, Hmod, Hlight, Hsev', Hmod', Hlight'.
  unfold ImpactCalculator.severe_k, ImpactCalculator.moderate_k,
    ImpactCalculator.light_k.
  repeat split; lra.
Qed.

Lemma C8_strictly_increasing_witness :
  exists r r',
    ImpactCalculator.calculateImpactRadius
      (Js.Number (Js.Num 3000)) (Js.Number (Js.Num 20000)) (Js.Number (Js.Num 100)) = Ok r /\
    ImpactCalculator.calculateImpactRadius
      (Js.Number (Js.Num 3000)) (Js.Number (Js.Num 20000)) (Js.Number (Js.Num 200)) = Ok r' /\
    ImpactCalculator.kinetic_energy_joules r < ImpactCalculator.kinetic_energy_joules r' /\
    ImpactCalculator.severe_radius_km r < ImpactCalculator.severe_radius_km r' /\
    ImpactCalculator.moderate_radius_km r < ImpactCalculator.moderate_radius_km r' /\
    ImpactCalculator.light_radius_km r < ImpactCalculator.light_radius_km r'.
Proof.
  apply (C8_strictly_increasing 3000 20000 100 3000 20000 200);
    [lra | lra | lra | right; right; repeat split; lra].
Defined.

(** ** [estimateCasualties] *)

Section CasualtyFacts.
Import Js ImpactCalculator.

Lemma rejected_spec (n : num) :
  isNaN n || num_ltb n 0 = true <-> ImpactCalculator.rejected n.
Proof.
  unfold rejected; destruct n as [| x]; cbn.
  - split; [intros _; left; reflexivity | reflexivity].
  - rewrite ltb_spec; split.
    + intros H; right; exists x; split; [reflexivity | exact H].
    + intros [H | (y & Hy & Hlt)]; [discriminate | congruence].
Qed.

(** The validation of [estimateCasualties] on the converted inputs. *)
Lemma validation_spec (ns : list num) :
  existsb isNaN ns || existsb (fun x => num_ltb x 0) ns = true <->
  exists n, In n ns /\ ImpactCalculator.rejected n.
Proof.
  split.
  - intros H; apply orb_true_iff in H; destruct H as [H | H];
      apply existsb_exists in H; destruct H as (n & Hin & Hn);
      exists n; split; try exact Hin; apply rejected_spec; rewrite Hn;
      [reflexivity | apply orb_true_r].
  - intros (n & Hin & Hn); apply rejected_spec in Hn.
    apply orb_true_iff in Hn; apply orb_true_iff; destruct Hn as [Hn | Hn];
      [left | right]; apply existsb_exists; exists n; split; assumption.
Qed.

Lemma estimateCasualties_throws
    (severe_radius_km moderate_radius_km light_radius_km population_density : value) :
  (exists msg,
     estimateCasualties severe_radius_km moderate_radius_km light_radius_km
       population_density = Throw msg) <->
  exists n,
    In n (map ToNumber [severe_radius_km; moderate_radius_km; light_radius_km;
                        default_param 100 population_density]) /\
    ImpactCalculator.rejected n.
Proof.
  rewrite <- validation_spec.
  unfold estimateCasualties.
  set (ns := map ToNumber _).
  destruct (existsb isNaN ns || existsb (fun x => num_ltb x 0) ns) eqn:Hv.
  - split; [reflexivity | intros _; eexists; reflexivity].
  - split; [| discriminate].
    intros (msg & Hmsg); exfalso; revert Hv Hmsg; subst ns; cbn [map].
    destruct (ToNumber severe_radius_km); [discriminate |].
    destruct (ToNumber moderate_radius_km); [discriminate |].
    destruct (ToNumber light_radius_km); [discriminate |].
    destruct (ToNumber (default_param 100 population_density));
      [cbn; discriminate |].
    discriminate.
Qed.

Lemma estimateCasualties_ok
    (severe_radius_km moderate_radius_km light_radius_km population_density : value)
    (severe_r moderate_r light_r pop_density : R) :
  ToNumber severe_radius_km = Num severe_r ->
  ToNumber moderate_radius_km = Num moderate_r ->
  ToNumber light_radius_km = Num light_r ->
  ToNumber (default_param 100 population_density) = Num pop_density ->
  0 <= severe_r -> 0 <= moderate_r -> 0 <= light_r -> 0 <= pop_density ->
  estimateCasualties severe_radius_km moderate_radius_km light_radius_km
    population_density =
  Ok {| severe_casualties := round (PI * severe_r * severe_r * pop_density * 0.9);
        moderate_casualties := round (PI * moderate_r * moderate_r * pop_density * 0.3);
        light_casualties := round (PI * light_r * light_r * pop_density * 0.05);
        total_casualties :=
          round (PI * severe_r * severe_r * pop_density * 0.9 +
                 PI * moderate_r * moderate_r * pop_density * 0.3 +
                 PI * light_r * light_r * pop_density * 0.05);
        affected_areas :=
          {| severe_area_km2 := PI * severe_r * severe_r;
             moderate_area_km2 := PI * moderate_r * moderate_r;
             light_area_km2 := PI * light_r * light_r;
             total_area_km2 :=
               PI * severe_r * severe_r + PI * moderate_r * moderate_r +
               PI * light_r * light_r |} |}.
Proof.
  intros Es Em El Ep Hs Hm Hl Hp.
  unfold estimateCasualties; cbn [map]; rewrite Es, Em, El, Ep.
  cbn [existsb isNaN num_ltb orb].
  rewrite !(ltb_false _ 0) by assumption.
  reflexivity.
Qed.

End CasualtyFacts.

(** C10.  [estimateCasualties] throws exactly when one converted input is
    [NaN] or negative, so zero-valued inputs are accepted; with the three
    radii zero every casualty count, the total and every area are zero; an
    omitted [population_density] is 100. *)
Theorem C10_estimateCasualties_zero_inputs :
  (forall sr mr lr pd,
     (exists msg, ImpactCalculator.estimateCasualties sr mr lr pd = Throw msg) <->
     (exists n,
        In n (map Js.ToNumber [sr; mr; lr; ImpactCalculator.default_param 100 pd]) /\
        ImpactCalculator.rejected n)) /\
  (forall sr mr lr pd p,
     Js.ToNumber sr = Js.Num 0 -> Js.ToNumber mr = Js.Num 0 ->
     Js.ToNumber lr = Js.Num 0 ->
     Js.ToNumber (ImpactCalculator.default_param 100 pd) = Js.Num p -> 0 <= p ->
     exists r,
       ImpactCalculator.estimateCasualties sr mr lr pd = Ok r /\
       ImpactCalculator.severe_casualties r = 0 /\
       ImpactCalculator.moderate_casualties r = 0 /\
       ImpactCalculator.light_casualties r = 0 /\
       ImpactCalculator.total_casualties r = 0 /\
       ImpactCalculator.severe_area_km2 (ImpactCalculator.affected_areas r) = 0 /\
       ImpactCalculator.moderate_area_km2 (ImpactCalculator.affected_areas r) = 0 /\
       ImpactCalculator.light_area_km2 (ImpactCalculator.affected_areas r) = 0 /\
       ImpactCalculator.total_area_km2 (ImpactCalculator.affected_areas r) = 0) /\
  (forall sr mr lr,
     ImpactCalculator.estimateCasualties sr mr lr Js.Undefined =
     ImpactCalculator.estimateCasualties sr mr lr (Js.Number (Js.Num 100))).
Proof.
  split; [exact estimateCasualties_throws |]; split.
  - intros sr mr lr pd p Es Em El Ep Hp.
    eexists; split.
    + apply (estimateCasualties_ok sr mr lr pd 0 0 0 p Es Em El Ep); lra.
    + cbn [ImpactCalculator.severe_casualties ImpactCalculator.moderate_casualties
             ImpactCalculator.light_casualties ImpactCalculator.total_casualties
             ImpactCalculator.affected_areas ImpactCalculator.severe_area_km2
             ImpactCalculator.moderate_area_km2 ImpactCalculator.light_area_km2
             ImpactCalculator.total_area_km2].
      replace (PI * 0 * 0 * p * 0.9) with 0 by ring.
      replace (PI * 0 * 0 * p * 0.3) with 0 by ring.
      replace (PI * 0 * 0 * p * 0.05) with 0 by ring.
      replace (0 + 0 + 0) with 0 by ring.
      rewrite round_0.
      repeat split; ring.
  - reflexivity.
Qed.

Lemma C10_estimateCasualties_zero_inputs_witness :
  exists r,
    ImpactCalculator.estimateCasualties
      (Js.Number (Js.Num 0)) (Js.Number (Js.Num 0)) (Js.Number (Js.Num 0))
      Js.Undefined = Ok r /\
    ImpactCalculator.total_casualties r = 0.
Proof.
  destruct (proj1 (proj2 C10_estimateCasualties_zero_inputs)
              (Js.Number (Js.Num 0)) (Js.Number (Js.Num 0)) (Js.Number (Js.Num 0))
              Js.Undefined 100 eq_refl eq_refl eq_refl eq_refl)
    as (r & Hr & _ & _ & _ & Ht & _); [lra |].
  exists r; split; assumption.
Defined.

(** ** The Palermo scale *)

Section PalermoFacts.
Import Js PalermoCalculator.

Lemma recalc_PS (f : Form) :
  out_PS (recalc f) = palermoScale (calc_pi f) (calc_ti f) (out_fb (recalc f)) /\
  out_interp (recalc f) = interpretation (out_PS (recalc f)).
Proof.
  unfold recalc.
  destruct (mode_energy f), (calc_auto_fb f);
    try destruct (estimateFBfromEnergy _);
    try destruct (estimateFBfromDiameter _); split; reflexivity.
Qed.

Lemma palermoScale_pos (Pi Ti fB : R) :
  0 < Pi -> 0 < Ti -> 0 < fB ->
  palermoScale (Num Pi) (Num Ti) (Num fB) = Num (log10 ((Pi / Ti) / fB)).
Proof.
  intros HPi HTi HfB; unfold palermoScale, gtb.
  rewrite !ltb_true by assumption; reflexivity.
Qed.

Lemma log10_1 : log10 1 = 0.
Proof. unfold log10; rewrite ln_1; unfold Rdiv; ring. Qed.

(** The background frequency that [recalc] uses, read off the form: the
    typed one when the auto-estimate box is not ticked or the estimate of
    the current mode is [null], the estimate otherwise. *)
Lemma recalc_out_fb (f : Form) (fB : R) :
  (calc_fb f = Num fB /\
   (calc_auto_fb f = false \/
    (mode_energy f = true /\ estimateFBfromEnergy (calc_E_mt f) = None) \/
    (mode_energy f = false /\ estimateFBfromDiameter (calc_diam f) = None))) \/
  (calc_auto_fb f = true /\ mode_energy f = true /\
   estimateFBfromEnergy (calc_E_mt f) = Some fB) \/
  (calc_auto_fb f = true /\ mode_energy f = false /\
   estimateFBfromDiameter (calc_diam f) = Some fB) ->
  out_fb (recalc f) = Num fB.
Proof.
  unfold recalc.
  intros [[Hfb [Ha | [[Hm He] | [Hm Hd]]]] | [(Ha & Hm & He) | (Ha & Hm & Hd)]].
  - rewrite Ha; destruct (mode_energy f); exact Hfb.
  - rewrite Hm, He; destruct (calc_auto_fb f); exact Hfb.
  - rewrite Hm, Hd; destruct (calc_auto_fb f); exact Hfb.
  - rewrite Ha, Hm, He; reflexivity.
  - rewrite Ha, Hm, Hd; reflexivity.
Qed.

(** The three readings of a finite Palermo scale value. *)
Lemma interpretation_bands (PS : R) :
  (interpretation (Num PS) = "Above background risk"%string <-> 0 < PS) /\
  (interpretation (Num PS) = "Comparable to background"%string <-> -2 < PS <= 0) /\
  (interpretation (Num PS) = "Well below background"%string <-> PS <= -2).
Proof.
  unfold interpretation, gtb, ltb.
  destruct (Rlt_dec 0 PS) as [Ha | Ha];
    [| destruct (Rlt_dec (-2) PS) as [Hb | Hb]].
  - split; [split; [intros _; exact Ha | reflexivity] |].
    split; split; try discriminate; intros; exfalso; lra.
  - split; [split; [discriminate | intros; exfalso; lra] |].
    split; [split; [intros _; lra | reflexivity] |].
    split; [discriminate | intros; exfalso; lra].
  - split; [split; [discriminate | intros; exfalso; lra] |].
    split; [split; [discriminate | intros; exfalso; lra] |].
    split; [intros _; lra | reflexivity].
Qed.

End PalermoFacts.

(** C6.  For positive finite [Pi], [Ti] and [fB] the value computed by
    [recalc] is [log10 ((Pi / Ti) / fB)], where [fB] is the background
    frequency supplied by the form: the number typed in the frequency box
    when the auto-estimate box is not ticked or the estimate of the
    current mode is [null], and otherwise the estimate from the energy
    (energy mode) or from the diameter (size mode).  The reading is "above
    background" exactly when [PS > 0], "comparable to background" exactly
    when [-2 < PS <= 0] and "well below background" exactly when
    [PS <= -2]; [Pi = 1e-4], [Ti = 10], [fB = 1e-5] give [PS = 0], read as
    comparable. *)
Theorem C6_palermo_scale (f : PalermoCalculator.Form) (Pi Ti fB : R) :
  PalermoCalculator.calc_pi f = Js.Num Pi ->
  PalermoCalculator.calc_ti f = Js.Num Ti ->
  (PalermoCalculator.calc_fb f = Js.Num fB /\
   (PalermoCalculator.calc_auto_fb f = false \/
    (PalermoCalculator.mode_energy f = true /\
     PalermoCalculator.estimateFBfromEnergy (PalermoCalculator.calc_E_mt f) = None) \/
    (PalermoCalculator.mode_energy f = false /\
     PalermoCalculator.estimateFBfromDiameter (PalermoCalculator.calc_diam f) = None))) \/
  (PalermoCalculator.calc_auto_fb f = true /\
   PalermoCalculator.mode_energy f = true /\
   PalermoCalculator.estimateFBfromEnergy (PalermoCalculator.calc_E_mt f) = Some fB) \/
  (PalermoCalculator.calc_auto_fb f = true /\
   PalermoCalculator.mode_energy f = false /\
   PalermoCalculator.estimateFBfromDiameter (PalermoCalculator.calc_diam f) = Some fB) ->
  0 < Pi -> 0 < Ti -> 0 < fB ->
  let PS := Js.log10 ((Pi / Ti) / fB) in
  PalermoCalculator.out_fb (PalermoCalculator.recalc f) = Js.Num fB /\
  PalermoCalculator.out_PS (PalermoCalculator.recalc f) = Js.Num PS /\
  (PalermoCalculator.out_interp (PalermoCalculator.recalc f) =
     "Above background risk"%string <-> 0 < PS) /\
  (PalermoCalculator.out_interp (PalermoCalculator.recalc f) =
     "Comparable to background"%string <-> -2 < PS <= 0) /\
  (PalermoCalculator.out_interp (PalermoCalculator.recalc f) =
     "Well below background"%string <-> PS <= -2) /\
  Js.log10 ((1e-4 / 10) / 1e-5) = 0.
Proof.
  intros EPi ETi Hsupplied HPi HTi HfB PS.
  assert (Efb := recalc_out_fb f fB Hsupplied).
  destruct (recalc_PS f) as [HPS Hint].
  rewrite EPi, ETi, Efb, palermoScale_pos in HPS by assumption.
  fold PS in HPS.
  rewrite Hint, HPS.
  split; [exact Efb |].
  split; [reflexivity |].
  destruct (interpretation_bands PS) as (Ha & Hb & Hc).
  split; [exact Ha |]. split; [exact Hb |]. split; [exact Hc |].
  replace ((1e-4 / 10) / 1e-5) with 1 by lra.
  apply log10_1.
Qed.

Lemma C6_palermo_scale_witness :
  let f := {| PalermoCalculator.calc_pi := Js.Num 1e-4;
              PalermoCalculator.calc_ti := Js.Num 10;
              PalermoCalculator.calc_E_mt := Js.NaN;
              PalermoCalculator.calc_diam := Js.NaN;
              PalermoCalculator.calc_vel := Js.NaN;
              PalermoCalculator.calc_rho := Js.NaN;
              PalermoCalculator.calc_fb := Js.Num 1e-5;
              PalermoCalculator.mode_energy := true;
              PalermoCalculator.calc_auto_fb := false |} in
  PalermoCalculator.out_PS (PalermoCalculator.recalc f) = Js.Num 0 /\
  PalermoCalculator.out_interp (PalermoCalculator.recalc f) =
    "Comparable to background"%string.
Proof.
  intros f.
  destruct (C6_palermo_scale f 1e-4 10 1e-5 eq_refl eq_refl)
    as (_ & HPS & _ & Hcmp & _ & H0);
    [left; split; [reflexivity | left; reflexivity] | lra | lra | lra |].
  rewrite H0 in HPS, Hcmp.
  split; [exact HPS | apply Hcmp; lra].
Defined.

(** ** The propagator *)

Section KeplerFacts.
Import Model.

(** A Newton step at a solution of Kepler's equation stays there. *)
Lemma solveKepler_loop_fixed (n : nat) (M e E : R) :
  E - e * sin E - M = 0 -> solveKepler_loop n M e E = E.
Proof.
  intros H; induction n as [| n IH]; [reflexivity |].
  cbn [solveKepler_loop].
  rewrite H; unfold Rdiv; rewrite Rmult_0_l, Rminus_0_r.
  exact IH.
Qed.

Lemma solveKepler_0 (e : R) : solveKepler 0 e = 0.
Proof.
  apply solveKepler_loop_fixed; rewrite sin_0; ring.
Qed.

End KeplerFacts.

(** C9.  For every mean anomaly [M], [solveKepler(M, 0) = M]: with zero
    eccentricity every Newton step maps the seed [M] to [M]. *)
Theorem C9_solveKepler_circular (M : R) :
  Model.solveKepler M 0 = M /\
  forall n : nat, Model.solveKepler_loop n M 0 M = M.
Proof.
  assert (H : forall n, Model.solveKepler_loop n M 0 M = M)
    by (intros n; apply solveKepler_loop_fixed; ring).
  split; [apply H | exact H].
Qed.

(** The point [(x_orb, y_orb)] satisfies the equation of the ellipse
    cleared of its denominators, for every scaled semi-major axis. *)
Lemma on_ellipse_polynomial (currentScale : Model.Scale) (data : Model.Body) (E : R) :
  0 <= Model.e data < 1 ->
  let a_s := Model.distance currentScale (Model.a data) in
  let e := Model.e data in
  (Model.x_orb currentScale data E + a_s * e) ^ 2 * (1 - e ^ 2) +
  Model.y_orb currentScale data E ^ 2 = a_s ^ 2 * (1 - e ^ 2).
Proof.
  intros He a_s e; unfold Model.x_orb, Model.y_orb; fold a_s e.
  assert (Hs : sqrt (1 - e ^ 2) ^ 2 = 1 - e ^ 2)
    by (rewrite <- Rsqr_pow2; apply Rsqr_sqrt; subst e; nra).
  assert (Hsc := sin2_cos2 E); unfold Rsqr in Hsc.
  replace ((a_s * sqrt (1 - e ^ 2) * sin E) ^ 2)
    with (a_s ^ 2 * sqrt (1 - e ^ 2) ^ 2 * (sin E * sin E)) by ring.
  rewrite Hs.
  transitivity (a_s ^ 2 * (1 - e ^ 2) * (sin E * sin E + cos E * cos E));
    [ring | rewrite Hsc; ring].
Qed.

(** C7.  For [0 <= e < 1], a nonzero scaled semi-major axis [a_s] and every
    eccentric anomaly [E], the point [(x_orb, y_orb)] of [updatePositions]
    satisfies the equation of the ellipse of semi-major axis [a_s] and
    eccentricity [e] with a focus at the origin. *)
Theorem C7_on_ellipse (currentScale : Model.Scale) (data : Model.Body) (E : R) :
  0 <= Model.e data < 1 ->
  Model.distance currentScale (Model.a data) <> 0 ->
  let a_s := Model.distance currentScale (Model.a data) in
  let e := Model.e data in
  Model.x_orb currentScale data E = a_s * (cos E - e) /\
  Model.y_orb currentScale data E = a_s * sqrt (1 - e ^ 2) * sin E /\
  (Model.x_orb currentScale data E + a_s * e) ^ 2 / a_s ^ 2 +
  Model.y_orb currentScale data E ^ 2 / (a_s ^ 2 * (1 - e ^ 2)) = 1.
Proof.
  intros He Ha a_s e.
  split; [reflexivity |]; split; [reflexivity |].
  unfold Model.x_orb, Model.y_orb; fold a_s e.
  assert (H1 : 0 < 1 - e ^ 2) by (subst e; nra).
  assert (Hs : sqrt (1 - e ^ 2) ^ 2 = 1 - e ^ 2)
    by (rewrite <- Rsqr_pow2; apply Rsqr_sqrt; lra).
  assert (Hsc := sin2_cos2 E); unfold Rsqr in Hsc.
  replace ((a_s * (cos E - e) + a_s * e) ^ 2) with (a_s ^ 2 * (cos E * cos E)) by ring.
  replace ((a_s * sqrt (1 - e ^ 2) * sin E) ^ 2)
    with (a_s ^ 2 * sqrt (1 - e ^ 2) ^ 2 * (sin E * sin E)) by ring.
  rewrite Hs.
  transitivity (sin E * sin E + cos E * cos E); [| exact Hsc].
  field; split; [lra | exact Ha].
Qed.

Lemma C7_on_ellipse_witness :
  (Model.x_orb Model.trueScale Model.earth 0 +
   Model.distance Model.trueScale (Model.a Model.earth) * Model.e Model.earth) ^ 2 /
  Model.distance Model.trueScale (Model.a Model.earth) ^ 2 +
  Model.y_orb Model.trueScale Model.earth 0 ^ 2 /
  (Model.distance Model.trueScale (Model.a Model.earth) ^ 2 *
   (1 - Model.e Model.earth ^ 2)) = 1.
Proof.
  apply (C7_on_ellipse Model.trueScale Model.earth 0).
  - simpl; lra.
  - unfold Model.trueScale, Model.earth, Model.AU, Model.TRUE_SCALE_KM_PER_UNIT;
      simpl; lra.
Defined.

(** ** The remainder operator and the mean anomaly *)

Section RemFacts.
Import Js.

Lemma trunc_nonneg (x : R) : 0 <= x -> trunc x = Int_part x.
Proof. intros H; unfold trunc; destruct (Rle_dec 0 x); [reflexivity | contradiction]. Qed.

Lemma trunc_neg (x : R) : x < 0 -> trunc x = (- Int_part (- x))%Z.
Proof. intros H; unfold trunc; destruct (Rle_dec 0 x); [lra | reflexivity]. Qed.

Lemma trunc_small (x : R) : -1 < x < 1 -> trunc x = 0%Z.
Proof.
  intros H; destruct (Rle_dec 0 x) as [Hx | Hx].
  - rewrite trunc_nonneg by exact Hx.
    symmetry; apply Int_part_spec; simpl; lra.
  - rewrite trunc_neg by lra.
    rewrite <- (Int_part_spec (- x) 0); [reflexivity | simpl; lra].
Qed.

(** The remainder keeps the sign of the dividend and is smaller than the
    divisor. *)
Lemma rem_nonneg (a b : R) : 0 < b -> 0 <= a -> 0 <= rem a b < b.
Proof.
  intros Hb Ha; unfold rem.
  assert (Hq : 0 <= a / b) by (apply Rmult_le_pos; [lra | left; apply Rinv_0_lt_compat; lra]).
  rewrite trunc_nonneg by exact Hq.
  destruct (base_Int_part (a / b)) as [H1 H2].
  assert (Hab : a = b * (a / b)) by (field; lra).
  split; nra.
Qed.

Lemma rem_nonpos (a b : R) : 0 < b -> a <= 0 -> - b < rem a b <= 0.
Proof.
  intros Hb Ha; destruct (Req_dec_T a 0) as [-> | Hne].
  - unfold rem, Rdiv; rewrite Rmult_0_l, trunc_small by lra; simpl; lra.
  - unfold rem.
    assert (Hq : a / b < 0).
    { unfold Rdiv; assert (0 < / b) by (apply Rinv_0_lt_compat; lra); nra. }
    rewrite trunc_neg by exact Hq.
    destruct (base_Int_part (- (a / b))) as [H1 H2].
    rewrite opp_IZR.
    assert (Hab : a = b * (a / b)) by (field; lra).
    split; nra.
Qed.

Lemma rem_mod360_nonneg (x : R) : 0 <= x -> rem x 360 = Spec.mod360 x.
Proof.
  intros H; unfold rem, Spec.mod360.
  rewrite trunc_nonneg; [reflexivity |].
  apply Rmult_le_pos; [exact H | lra].
Qed.

End RemFacts.

(** C3, as stated: for Earth at the J2000 epoch itself the mean anomaly of
    [updatePositions] is negative, so it is not the value in [[0, 360)]. *)
Lemma C3_mean_anomaly_counterexample :
  let days := Model.daysSinceJ2000 Model.J2000 in
  let M0 := Model.L Model.earth - Model.varpi Model.earth in
  let n := 360 / Model.orbitalPeriod Model.earth in
  Model.meanAnomaly Model.earth days = -2.48284 /\
  ~ (0 <= Model.meanAnomaly Model.earth days < 360) /\
  Model.meanAnomaly Model.earth days <> Spec.mod360 (M0 + n * days).
Proof.
  intros days M0 n.
  assert (Hd : days = 0) by (unfold days, Model.daysSinceJ2000; lra).
  assert (HM : Model.meanAnomaly Model.earth days = -2.48284).
  { unfold Model.meanAnomaly, Js.rem; rewrite Hd.
    rewrite trunc_small by (simpl; lra). simpl; lra. }
  split; [exact HM |]; split; [rewrite HM; lra |].
  rewrite HM; unfold Spec.mod360.
  rewrite <- (Int_part_spec ((M0 + n * days) / 360) (-1)).
  - subst M0 n; rewrite Hd; simpl; lra.
  - subst M0 n; rewrite Hd; simpl; lra.
Qed.

(** C3, with the remainder of the code.  For every body with a nonzero
    orbital period and every simulated time, the mean anomaly is the
    remainder of [x = M0 + n * days] by 360 with [M0 = L - varpi] and
    [n = 360 / orbitalPeriod]: it differs from [x] by a whole number of
    turns and has the sign of [x]; it is the value of [x mod 360] in
    [[0, 360)] when [x >= 0], and lies in [(-360, 0]] when [x <= 0]. *)
Theorem C3_mean_anomaly_remainder (data : Model.Body) (days : R) :
  Model.orbitalPeriod data <> 0 ->
  let M0 := Model.L data - Model.varpi data in
  let n := 360 / Model.orbitalPeriod data in
  let x := M0 + n * days in
  let M := Model.meanAnomaly data days in
  (exists k : Z, M = x - 360 * IZR k) /\
  (0 <= x -> 0 <= M < 360 /\ M = Spec.mod360 x) /\
  (x <= 0 -> -360 < M <= 0).
Proof.
  intros _ M0 n x M.
  split; [exists (Js.trunc (x / 360)); reflexivity |].
  split.
  - intros Hx; split; [apply rem_nonneg; [lra | exact Hx] | apply rem_mod360_nonneg; exact Hx].
  - intros Hx; apply rem_nonpos; [lra | exact Hx].
Qed.

Lemma C3_mean_anomaly_remainder_witness :
  -360 < Model.meanAnomaly Model.earth 0 <= 0.
Proof.
  apply (C3_mean_anomaly_remainder Model.earth 0).
  - simpl; lra.
  - simpl; lra.
Defined.

(** ** The rotation into the ecliptic frame *)

Section RotationFacts.
Import THREE Model.

Lemma Vector3_eq (x1 y1 z1 x2 y2 z2 : R) :
  x1 = x2 -> y1 = y2 -> z1 = z2 ->
  {| x := x1; y := y1; z := z1 |} = {| x := x2; y := y2; z := z2 |}.
Proof. intros -> -> ->; reflexivity. Qed.

(** The sibling copy rotates by [R_z(Omega) . R_x(i) . R_z(varpi - Omega)]. *)
Lemma ModelCopy_eclipticPosition (data : Body) (x_orb y_orb : R) :
  ModelCopy.eclipticPosition data x_orb y_orb =
  Spec.rotation (degToRad (Omega data)) (degToRad (i data))
    (degToRad (varpi data - Omega data)) {| x := x_orb; y := y_orb; z := 0 |}.
Proof.
  unfold ModelCopy.eclipticPosition, Spec.rotation, Spec.R_z, Spec.R_x,
    applyMatrix4, makeRotationZ, makeRotationX.
  cbn [x y z n11 n12 n13 n14 n21 n22 n23 n24 n31 n32 n33 n34 n41 n42 n43 n44].
  apply Vector3_eq; field_simplify; try reflexivity; lra.
Qed.

Lemma ModelCopy_rotateOrbitPlane (data : Body) (x_orb y_orb : R) :
  ModelCopy.rotateOrbitPlane data x_orb y_orb =
  Spec.toThree
    (Spec.rotation (degToRad (Omega data)) (degToRad (i data))
       (degToRad (varpi data - Omega data)) {| x := x_orb; y := y_orb; z := 0 |}).
Proof.
  unfold ModelCopy.rotateOrbitPlane; rewrite ModelCopy_eclipticPosition; reflexivity.
Qed.

(** [model.js] rotates by [R_z(Omega) . R_x(i) . R_z(varpi)]. *)
Lemma Model_rotateOrbitPlane (data : Body) (x_orb y_orb : R) :
  Model.rotateOrbitPlane data x_orb y_orb =
  Spec.toThree
    (Spec.rotation (degToRad (Omega data)) (degToRad (i data))
       (degToRad (varpi data)) {| x := x_orb; y := y_orb; z := 0 |}).
Proof.
  unfold Model.rotateOrbitPlane, Spec.toThree, Spec.rotation, Spec.R_z, Spec.R_x,
    applyMatrix4, multiply, makeRotationY, makeRotationX.
  cbn [x y z n11 n12 n13 n14 n21 n22 n23 n24 n31 n32 n33 n34 n41 n42 n43 n44].
  apply Vector3_eq; field_simplify; try reflexivity; lra.
Qed.

End RotationFacts.

Section RotationExample.
Import THREE Model.

Lemma degToRad_0 : degToRad 0 = 0.
Proof. unfold degToRad; ring. Qed.

Lemma degToRad_90 : degToRad 90 = PI / 2.
Proof. unfold degToRad, DEG2RAD; field. Qed.

Lemma rem_0 (b : R) : Js.rem 0 b = 0.
Proof.
  unfold Js.rem, Rdiv; rewrite Rmult_0_l, trunc_small by lra; simpl; ring.
Qed.

(** A body on which the mean anomaly vanishes at the epoch sits at its
    perihelion: [E = 0], [x_orb = a_s (1 - e)], [y_orb = 0]. *)
Lemma perihelion_at_epoch (currentScale : Scale) (data : Body) :
  L data = varpi data ->
  eccentricAnomaly data 0 = 0 /\
  x_orb currentScale data 0 = distance currentScale (a data) * (1 - e data) /\
  y_orb currentScale data 0 = 0.
Proof.
  intros HL; split; [| split].
  - unfold eccentricAnomaly, meanAnomaly.
    replace (L data - varpi data + 360 / orbitalPeriod data * 0) with 0
      by (rewrite HL; ring).
    rewrite rem_0, degToRad_0; apply solveKepler_0.
  - unfold x_orb; rewrite cos_0; reflexivity.
  - unfold y_orb; rewrite sin_0; ring.
Qed.

End RotationExample.

(** *** Where the two rotations part

    The rotations are invertible, so the two files give the same position
    only when turning by [Omega] leaves the orbital-plane vector in place. *)

Section RotationDivergence.
Import THREE Model.

Lemma R_z_R_z (s t : R) (v : Vector3) :
  Spec.R_z s (Spec.R_z t v) = Spec.R_z (s + t) v.
Proof.
  unfold Spec.R_z; cbn [x y z]; rewrite sin_plus, cos_plus.
  apply Vector3_eq; ring.
Qed.

Lemma R_z_0 (v : Vector3) : Spec.R_z 0 v = v.
Proof.
  destruct v as [vx vy vz]; unfold Spec.R_z; cbn [x y z]; rewrite sin_0, cos_0.
  apply Vector3_eq; ring.
Qed.

Lemma R_z_inv (t : R) (v : Vector3) : Spec.R_z (- t) (Spec.R_z t v) = v.
Proof. rewrite R_z_R_z; replace (- t + t) with 0 by ring; apply R_z_0. Qed.

Lemma R_x_inv (t : R) (v : Vector3) : Spec.R_x (- t) (Spec.R_x t v) = v.
Proof.
  destruct v as [vx vy vz]; unfold Spec.R_x; cbn [x y z]; rewrite sin_neg, cos_neg.
  assert (H := sin2_cos2 t); unfold Rsqr in H.
  apply Vector3_eq; [reflexivity | |].
  - transitivity (vy * (sin t * sin t + cos t * cos t)); [ring | rewrite H; ring].
  - transitivity (vz * (sin t * sin t + cos t * cos t)); [ring | rewrite H; ring].
Qed.

Lemma toThree_inj (u v : Vector3) : Spec.toThree u = Spec.toThree v -> u = v.
Proof.
  destruct u as [ux uy uz], v as [vx vy vz]; unfold Spec.toThree; cbn [x y z].
  intros H; injection H as Hx Hz Hy.
  apply Vector3_eq; lra.
Qed.

Lemma degToRad_minus (p q : R) : degToRad p - degToRad (p - q) = degToRad q.
Proof. unfold degToRad; ring. Qed.

(** [model.js] gives the specified position only if the node longitude is
    a whole number of turns or the orbital-plane vector is null. *)
Lemma Model_rotateOrbitPlane_agrees (data : Body) (x_orb y_orb : R) :
  Model.rotateOrbitPlane data x_orb y_orb =
  ModelCopy.rotateOrbitPlane data x_orb y_orb ->
  cos (degToRad (Omega data)) = 1 \/ (x_orb = 0 /\ y_orb = 0).
Proof.
  rewrite Model_rotateOrbitPlane, ModelCopy_rotateOrbitPlane; intros H.
  apply toThree_inj in H; unfold Spec.rotation in H.
  apply (f_equal (Spec.R_z (- degToRad (Omega data)))) in H; rewrite !R_z_inv in H.
  apply (f_equal (Spec.R_x (- degToRad (i data)))) in H; rewrite !R_x_inv in H.
  apply (f_equal (Spec.R_z (- degToRad (varpi data - Omega data)))) in H.
  rewrite R_z_inv, R_z_R_z in H.
  replace (- degToRad (varpi data - Omega data) + degToRad (varpi data))
    with (degToRad (Omega data)) in H
    by (rewrite <- (degToRad_minus (varpi data) (Omega data)); ring).
  unfold Spec.R_z in H; cbn [x y z] in H.
  injection H as Hx Hy.
  set (c := cos (degToRad (Omega data))) in *.
  set (s := sin (degToRad (Omega data))) in *.
  assert (Hc : (c - 1) * (x_orb * x_orb + y_orb * y_orb) = 0).
  { transitivity (x_orb * (c * x_orb - s * y_orb - x_orb) +
                  y_orb * (s * x_orb + c * y_orb - y_orb)); [ring |].
    replace (c * x_orb - s * y_orb - x_orb) with 0 by lra.
    replace (s * x_orb + c * y_orb - y_orb) with 0 by lra.
    ring. }
  apply Rmult_integral in Hc; destruct Hc as [Hc | Hc]; [left; lra | right].
  split; nra.
Qed.

Lemma cos_lt_1 (t : R) : 0 < t < 2 * PI -> cos t < 1.
Proof.
  intros Ht.
  replace t with (2 * (t / 2)) by field; rewrite cos_2a_sin.
  assert (H : 0 < sin (t / 2)) by (apply sin_gt_0; lra).
  nra.
Qed.

(** The orbital-plane vector of a bound orbit is never null. *)
Lemma orbit_plane_nonzero (currentScale : Scale) (data : Body) (E : R) :
  0 <= e data < 1 -> distance currentScale (a data) <> 0 ->
  ~ (x_orb currentScale data E = 0 /\ y_orb currentScale data E = 0).
Proof.
  intros He Ha [Hx Hy]; unfold x_orb, y_orb in *.
  apply Rmult_integral in Hx; destruct Hx as [Hx | Hx]; [contradiction |].
  assert (Hs : 0 < sqrt (1 - e data ^ 2)) by (apply sqrt_lt_R0; nra).
  assert (Hsin : sin E = 0).
  { apply Rmult_integral in Hy; destruct Hy as [Hy | Hy]; [| exact Hy].
    apply Rmult_integral in Hy; destruct Hy as [Hy | Hy]; [contradiction | lra]. }
  assert (H := sin2_cos2 E); unfold Rsqr in H; rewrite Hsin in H.
  assert (Hc : cos E = e data) by lra.
  rewrite Hc in H; nra.
Qed.

(** For Mercury, at every time, the position of [model.js] is not the
    position of the sibling copy. *)
Lemma Mercury_positions_differ (daysSinceJ2000 : R) :
  Model.bodyPosition trueScale mercury daysSinceJ2000 <>
  ModelCopy.bodyPosition trueScale mercury daysSinceJ2000.
Proof.
  unfold Model.bodyPosition, ModelCopy.bodyPosition; intros H.
  apply Model_rotateOrbitPlane_agrees in H; destruct H as [H | H].
  - assert (HPI := PI_bounds).
    assert (Hlt : cos (degToRad (Omega mercury)) < 1).
    { apply cos_lt_1; unfold degToRad, DEG2RAD; simpl; lra. }
    lra.
  - revert H; apply orbit_plane_nonzero; [simpl; lra |].
    unfold trueScale, AU, TRUE_SCALE_KM_PER_UNIT; simpl; lra.
Qed.

End RotationDivergence.

(** C1 on [model.js].  A body with [Omega = varpi = L = 90], [i = 0],
    [e = 0.5], [a = 1] at the J2000 epoch, true scale: the specified
    rotation (argument of perihelion [varpi - Omega = 0]) puts it at scene
    position [(0, 0, -a_s / 2)], which is what the sibling copy computes;
    [model.js], turning by [varpi] itself, puts it at [(-a_s / 2, 0, 0)]. *)
Theorem C1_model_js_rotates_by_varpi :
  let data := {| Model.a := 1; Model.e := 0.5; Model.i := 0; Model.L := 90;
                 Model.varpi := 90; Model.Omega := 90;
                 Model.orbitalPeriod := 365.25 |} in
  let days := Model.daysSinceJ2000 Model.J2000 in
  let a_s := Model.distance Model.trueScale 1 in
  let E := Model.eccentricAnomaly data days in
  let v := {| THREE.x := Model.x_orb Model.trueScale data E;
              THREE.y := Model.y_orb Model.trueScale data E;
              THREE.z := 0 |} in
  a_s <> 0 /\
  Spec.toThree
    (Spec.rotation (THREE.degToRad 90) (THREE.degToRad 0)
       (THREE.degToRad (90 - 90)) v) =
    {| THREE.x := 0; THREE.y := 0; THREE.z := - (a_s / 2) |} /\
  ModelCopy.bodyPosition Model.trueScale data days =
    {| THREE.x := 0; THREE.y := 0; THREE.z := - (a_s / 2) |} /\
  Model.bodyPosition Model.trueScale data days =
    {| THREE.x := - (a_s / 2); THREE.y := 0; THREE.z := 0 |} /\
  Model.bodyPosition Model.trueScale data days <>
  ModelCopy.bodyPosition Model.trueScale data days.
Proof.
  intros data days a_s E v.
  assert (Hd : days = 0) by (unfold days, Model.daysSinceJ2000; lra).
  assert (Ha : a_s <> 0).
  { unfold a_s, Model.trueScale, Model.AU, Model.TRUE_SCALE_KM_PER_UNIT; simpl; lra. }
  destruct (perihelion_at_epoch Model.trueScale data eq_refl) as (HE & Hx & Hy).
  assert (HE' : E = 0) by (unfold E; rewrite Hd; exact HE).
  assert (Hv : v = {| THREE.x := a_s / 2; THREE.y := 0; THREE.z := 0 |}).
  { unfold v; rewrite HE', Hx, Hy; apply Vector3_eq; try reflexivity.
    change (Model.distance Model.trueScale (Model.a data)) with a_s.
    change (Model.e data) with 0.5; lra. }
  assert (Hspec :
    Spec.toThree
      (Spec.rotation (THREE.degToRad 90) (THREE.degToRad 0)
         (THREE.degToRad (90 - 90)) v) =
    {| THREE.x := 0; THREE.y := 0; THREE.z := - (a_s / 2) |}).
  { rewrite Hv; replace (90 - 90) with 0 by ring.
    rewrite degToRad_0, degToRad_90.
    unfold Spec.toThree, Spec.rotation, Spec.R_z, Spec.R_x; cbn [THREE.x THREE.y THREE.z].
    rewrite cos_0, sin_0, cos_PI2, sin_PI2.
    apply Vector3_eq; ring. }
  assert (Hcopy :
    ModelCopy.bodyPosition Model.trueScale data days =
    {| THREE.x := 0; THREE.y := 0; THREE.z := - (a_s / 2) |}).
  { unfold ModelCopy.bodyPosition; rewrite ModelCopy_rotateOrbitPlane.
    exact Hspec. }
  assert (Hmodel :
    Model.bodyPosition Model.trueScale data days =
    {| THREE.x := - (a_s / 2); THREE.y := 0; THREE.z := 0 |}).
  { unfold Model.bodyPosition; rewrite Model_rotateOrbitPlane.
    fold E; fold v; rewrite Hv.
    change (Model.Omega data) with 90; change (Model.i data) with 0;
      change (Model.varpi data) with 90.
    rewrite degToRad_0, degToRad_90.
    unfold Spec.toThree, Spec.rotation, Spec.R_z, Spec.R_x; cbn [THREE.x THREE.y THREE.z].
    rewrite cos_0, sin_0, cos_PI2, sin_PI2.
    apply Vector3_eq; ring. }
  split; [exact Ha |]; split; [exact Hspec |]; split; [exact Hcopy |];
    split; [exact Hmodel |].
  rewrite Hmodel, Hcopy; intros Heq.
  apply (f_equal THREE.z) in Heq; cbn [THREE.z] in Heq.
  apply Ha; lra.
Qed.

(** ** Convergence of [solveKepler]: the analysis *)

Section KeplerAnalysis.
Import Kepler.

Lemma solveKepler_loop_S (n : nat) (M e E : R) :
  Model.solveKepler_loop (S n) M e E = Model.solveKepler_loop n M e (newton M e E).
Proof. reflexivity. Qed.

(** The loop of [solveKepler] iterates the Newton step. *)
Lemma solveKepler_loop_iter (n : nat) (M e E : R) :
  Model.solveKepler_loop n M e E = Nat.iter n (newton M e) E.
Proof.
  revert E; induction n as [| n IH]; intros E; [reflexivity |].
  rewrite solveKepler_loop_S, IH, <- Nat.iter_succ_r; reflexivity.
Qed.

Lemma denominator_pos (e x : R) : 0 <= e < 1 -> 0 < 1 - e * cos x.
Proof.
  intros He; assert (Hc := COS_bound x).
  assert (e * cos x <= e * 1) by (apply Rmult_le_compat_l; lra).
  lra.
Qed.

(** *** Symmetries: whole turns and sign *)

Lemma newton_shift (M e E : R) (k : nat) :
  newton (M + 2 * INR k * PI) e (E + 2 * INR k * PI) = newton M e E + 2 * INR k * PI.
Proof.
  unfold newton; rewrite sin_period, cos_period.
  replace (E + 2 * INR k * PI - e * sin E - (M + 2 * INR k * PI))
    with (E - e * sin E - M) by ring.
  ring.
Qed.

Lemma loop_shift (n : nat) (M e E : R) (k : nat) :
  Model.solveKepler_loop n (M + 2 * INR k * PI) e (E + 2 * INR k * PI) =
  Model.solveKepler_loop n M e E + 2 * INR k * PI.
Proof.
  revert E; induction n as [| n IH]; intros E; [reflexivity |].
  rewrite !solveKepler_loop_S, newton_shift; apply IH.
Qed.

Lemma newton_opp (M e E : R) : newton (- M) e (- E) = - newton M e E.
Proof.
  unfold newton; rewrite sin_neg, cos_neg.
  replace (- E - e * - sin E - - M) with (- (E - e * sin E - M)) by ring.
  unfold Rdiv; ring.
Qed.

Lemma loop_opp (n : nat) (M e E : R) :
  Model.solveKepler_loop n (- M) e (- E) = - Model.solveKepler_loop n M e E.
Proof.
  revert E; induction n as [| n IH]; intros E; [reflexivity |].
  rewrite !solveKepler_loop_S, newton_opp; apply IH.
Qed.

Lemma residual_shift (M e E : R) (k : nat) :
  Spec.keplerResidual (M + 2 * INR k * PI) e (E + 2 * INR k * PI) =
  Spec.keplerResidual M e E.
Proof. unfold Spec.keplerResidual; rewrite sin_period; ring. Qed.

Lemma residual_opp (M e E : R) :
  Spec.keplerResidual (- M) e (- E) = - Spec.keplerResidual M e E.
Proof. unfold Spec.keplerResidual; rewrite sin_neg; ring. Qed.

(** Every mean anomaly is a whole number of turns away from [[-PI, PI]]. *)
Lemma reduce_turns (M : R) :
  exists (k : nat) (M' : R),
    - PI <= M' <= PI /\ (M = M' + 2 * INR k * PI \/ M' = M + 2 * INR k * PI).
Proof.
  assert (HPI := PI_RGT_0).
  set (q := Int_part ((M + PI) / (2 * PI))).
  destruct (base_Int_part ((M + PI) / (2 * PI))) as [H1 H2]; fold q in H1, H2.
  assert (Hq : 2 * PI * IZR q <= M + PI < 2 * PI * IZR q + 2 * PI).
  { assert (E : M + PI = 2 * PI * ((M + PI) / (2 * PI))) by (field; lra).
    split; nra. }
  destruct (Z_le_gt_dec 0 q) as [Hpos | Hneg].
  - exists (Z.to_nat q), (M - 2 * IZR q * PI).
    rewrite INR_IZR_INZ, Z2Nat.id by exact Hpos.
    split; [lra | left; ring].
  - exists (Z.to_nat (- q)), (M - 2 * IZR q * PI).
    rewrite INR_IZR_INZ, Z2Nat.id by lia.
    rewrite opp_IZR.
    split; [lra | right; ring].
Qed.

(** *** The error recurrence *)

Lemma AB_sum (Es d : R) :
  sin Es * A d + cos Es * B d = sin (Es + d) - sin Es - d * cos (Es + d).
Proof. unfold A, B; rewrite sin_plus, cos_plus; ring. Qed.

Lemma newton_error (e Es d : R) :
  0 <= e < 1 ->
  newton (Es - e * sin Es) e (Es + d) = Es + Phi e Es d.
Proof.
  intros He; unfold newton, Phi; rewrite AB_sum.
  assert (Hd := denominator_pos e (Es + d) He).
  field; lra.
Qed.

Lemma loop_error (n : nat) (e Es d : R) :
  0 <= e < 1 ->
  Model.solveKepler_loop n (Es - e * sin Es) e (Es + d) = Es + err_loop n e Es d.
Proof.
  intros He; revert d; induction n as [| n IH]; intros d; [reflexivity |].
  rewrite solveKepler_loop_S, newton_error by exact He.
  apply IH.
Qed.

(** *** Elementary bounds *)

Lemma sin_abs_le (x : R) : Rabs (sin x) <= Rabs x.
Proof.
  assert (Hpos : forall y, 0 <= y -> sin y <= y).
  { intros y [Hy | <-]; [left; apply sin_lt_x; exact Hy | rewrite sin_0; lra]. }
  assert (Hb := SIN_bound x).
  destruct (Rle_dec 0 x) as [Hx | Hx].
  - rewrite (Rabs_pos_eq x) by exact Hx.
    apply Rabs_le; split; [| apply Hpos; exact Hx].
    destruct (Rle_dec x PI) as [Hp | Hp].
    + assert (0 <= sin x) by (apply sin_ge_0; lra). lra.
    + assert (HPI := PI_bounds). lra.
  - assert (Hx' : 0 <= - x) by lra.
    rewrite <- (Rabs_Ropp x), (Rabs_pos_eq (- x)) by exact Hx'.
    rewrite <- (Rabs_Ropp (sin x)), <- sin_neg.
    apply Rabs_le; split; [| apply Hpos; exact Hx'].
    destruct (Rle_dec (- x) PI) as [Hp | Hp].
    + assert (0 <= sin (- x)) by (apply sin_ge_0; lra). lra.
    + assert (HPI := PI_bounds). assert (Hb' := SIN_bound (- x)). lra.
Qed.

Lemma sin_lipschitz (x y : R) : Rabs (sin x - sin y) <= Rabs (x - y).
Proof.
  rewrite form4, !Rabs_mult, (Rabs_pos_eq 2) by lra.
  assert (Hc : Rabs (cos ((x + y) / 2)) <= 1)
    by (apply Rabs_le; assert (H := COS_bound ((x + y) / 2)); lra).
  assert (Hs := sin_abs_le ((x - y) / 2)).
  assert (E : Rabs ((x - y) / 2) = Rabs (x - y) / 2).
  { unfold Rdiv; rewrite Rabs_mult, (Rabs_pos_eq (/ 2)) by lra; reflexivity. }
  rewrite E in Hs.
  assert (H0 := Rabs_pos (sin ((x - y) / 2))).
  assert (H1 := Rabs_pos (cos ((x + y) / 2))).
  nra.
Qed.

(** The residual at [Es + d] is at most [(1 + e) |d|]. *)
Lemma residual_error (e Es d : R) :
  0 <= e ->
  Rabs (Spec.keplerResidual (Es - e * sin Es) e (Es + d)) <= (1 + e) * Rabs d.
Proof.
  intros He; unfold Spec.keplerResidual.
  replace (Es + d - e * sin (Es + d) - (Es - e * sin Es))
    with (d - e * (sin (Es + d) - sin Es)) by ring.
  assert (H := sin_lipschitz (Es + d) Es).
  replace (Es + d - Es) with d in H by ring.
  eapply Rle_trans; [apply Rabs_triang |].
  rewrite Rabs_Ropp, Rabs_mult, (Rabs_pos_eq e) by exact He.
  assert (H0 := Rabs_pos d). nra.
Qed.

(** *** A solution of Kepler's equation in [[0, PI]] *)

Lemma kepler_root (e M : R) :
  0 <= M <= PI ->
  exists Es, 0 <= Es <= PI /\ Es - e * sin Es = M.
Proof.
  intros HM.
  assert (Hcont : continuity (fun x => x - e * sin x - M)).
  { apply continuity_minus;
      [apply continuity_minus;
         [apply derivable_continuous, derivable_id
         | apply continuity_scal, continuity_sin]
      | apply continuity_const; intros x y; reflexivity]. }
  destruct (IVT_cor (fun x => x - e * sin x - M) 0 PI Hcont) as (Es & HEs & Hz).
  - assert (H := PI_RGT_0); lra.
  - rewrite sin_0, sin_PI.
    replace (0 - e * 0 - M) with (- M) by ring.
    replace (PI - e * 0 - M) with (PI - M) by ring.
    nra.
  - exists Es; split; [exact HEs | lra].
Qed.

End KeplerAnalysis.

Section KeplerShape.
Import Kepler.

Lemma MVT_sin (x y : R) :
  x < y -> exists c, sin y - sin x = cos c * (y - x) /\ x < c < y.
Proof.
  intros H; apply (MVT_cor2 sin cos x y H); intros c _; apply derivable_pt_lim_sin.
Qed.

Lemma MVT_cos (x y : R) :
  x < y -> exists c, cos y - cos x = - sin c * (y - x) /\ x < c < y.
Proof.
  intros H; apply (MVT_cor2 cos (fun c => - sin c) x y H); intros c _;
    apply derivable_pt_lim_cos.
Qed.

Lemma A_0 : A 0 = 0.
Proof. unfold A; rewrite cos_0, sin_0; ring. Qed.

Lemma B_0 : B 0 = 0.
Proof. unfold B; rewrite cos_0, sin_0; ring. Qed.

Lemma A_PI2 : A (PI / 2) = PI / 2 - 1.
Proof. unfold A; rewrite cos_PI2, sin_PI2; ring. Qed.

Lemma A_even (x : R) : A (- x) = A x.
Proof. unfold A; rewrite cos_neg, sin_neg; ring. Qed.

Lemma B_odd (x : R) : B (- x) = - B x.
Proof. unfold B; rewrite cos_neg, sin_neg; ring. Qed.

(** [A] increases on [[0, PI/2]] and decreases on [[PI/2, PI]]. *)
Lemma A_incr (x y : R) : 0 <= x -> x <= y -> y <= PI / 2 -> A x <= A y.
Proof.
  intros Hx [Hxy | ->] Hy; [| lra].
  destruct (MVT_cos x y Hxy) as (c & Hc & Hxc).
  assert (HPI := PI_RGT_0).
  assert (Hs1 : sin c <= sin y) by (apply sin_incr_1; lra).
  assert (Hs2 : sin x <= sin y) by (apply sin_incr_1; lra).
  unfold A; nra.
Qed.

Lemma A_decr (x y : R) : PI / 2 <= x -> x <= y -> y <= PI -> A y <= A x.
Proof.
  intros Hx [Hxy | ->] Hy; [| lra].
  destruct (MVT_cos x y Hxy) as (c & Hc & Hxc).
  assert (HPI := PI_RGT_0).
  assert (Hs1 : sin y <= sin c) by (apply sin_decr_1; lra).
  assert (Hs2 : sin y <= sin x) by (apply sin_decr_1; lra).
  unfold A; nra.
Qed.

Lemma A_nonneg (x : R) : 0 <= x <= PI / 2 -> 0 <= A x.
Proof. intros H; rewrite <- A_0; apply A_incr; lra. Qed.

Lemma A_max (x : R) : 0 <= x <= PI -> A x <= PI / 2 - 1.
Proof.
  intros H; rewrite <- A_PI2.
  destruct (Rle_dec x (PI / 2)); [apply A_incr | apply A_decr]; lra.
Qed.

(** On [[0, PI]] the least value of [A] over an interval is at an end. *)
Lemma A_min_ends (l u x : R) :
  0 <= l -> l <= x -> x <= u -> u <= PI -> Rmin (A l) (A u) <= A x.
Proof.
  intros Hl Hlx Hxu Hu.
  destruct (Rle_dec x (PI / 2)).
  - eapply Rle_trans; [apply Rmin_l | apply A_incr; lra].
  - eapply Rle_trans; [apply Rmin_r | apply A_decr; lra].
Qed.

(** [B] increases on [[-PI, PI]]. *)
Lemma B_incr_pos (x y : R) : 0 <= x -> x <= y -> y <= PI -> B x <= B y.
Proof.
  intros Hx [Hxy | ->] Hy; [| lra].
  destruct (MVT_sin x y Hxy) as (c & Hc & Hxc).
  assert (Hc1 : cos y <= cos c) by (apply cos_decr_1; lra).
  assert (Hc2 : cos y <= cos x) by (apply cos_decr_1; lra).
  unfold B; nra.
Qed.

Lemma B_incr (x y : R) : - PI <= x -> x <= y -> y <= PI -> B x <= B y.
Proof.
  intros Hx Hxy Hy.
  destruct (Rle_dec 0 x) as [H0x | H0x]; [apply B_incr_pos; lra |].
  destruct (Rle_dec 0 y) as [H0y | H0y].
  - assert (H1 : 0 <= B y) by (rewrite <- B_0; apply B_incr_pos; lra).
    assert (H2 : 0 <= B (- x)) by (rewrite <- B_0; apply B_incr_pos; lra).
    rewrite B_odd in H2; lra.
  - assert (H : B (- y) <= B (- x)) by (apply B_incr_pos; lra).
    rewrite !B_odd in H; lra.
Qed.

(** *** The quadratic bound *)

Lemma one_minus_cos (d : R) : 0 <= 1 - cos d <= d * d / 2.
Proof.
  replace d with (2 * (d / 2)) at 1 2 by field.
  rewrite cos_2a_sin.
  assert (H := sin_abs_le (d / 2)).
  assert (E : Rabs (d / 2) = Rabs d / 2).
  { unfold Rdiv; rewrite Rabs_mult, (Rabs_pos_eq (/ 2)) by lra; reflexivity. }
  rewrite E in H.
  assert (Hs : sin (d / 2) * sin (d / 2) = Rabs (sin (d / 2)) * Rabs (sin (d / 2))).
  { rewrite <- Rabs_mult; symmetry; apply Rabs_pos_eq; nra. }
  assert (Hd : d * d = Rabs d * Rabs d).
  { rewrite <- Rabs_mult; symmetry; apply Rabs_pos_eq; nra. }
  assert (H0 := Rabs_pos (sin (d / 2))).
  assert (H1 := Rabs_pos d).
  nra.
Qed.

Lemma x_minus_sin_pos (d : R) : 0 <= d -> 0 <= d - sin d <= d * d * d / 6.
Proof.
  intros Hd; split.
  - destruct Hd as [Hd | <-]; [left; apply Rlt_0_minus, sin_lt_x; exact Hd |].
    rewrite sin_0; lra.
  - destruct (Rle_dec d 4) as [H4 | H4].
    + destruct (pre_sin_bound d 0 Hd H4) as [H _].
      unfold sin_approx, sin_term in H; simpl in H; lra.
    + assert (Hb := SIN_bound d).
      assert (16 <= d * d) by nra.
      nra.
Qed.

Lemma x_minus_sin (d : R) : Rabs (sin d - d) <= Rabs d * Rabs d * Rabs d / 6.
Proof.
  destruct (Rle_dec 0 d) as [Hd | Hd].
  - destruct (x_minus_sin_pos d Hd) as [H1 H2].
    rewrite (Rabs_pos_eq d) by exact Hd.
    rewrite <- Rabs_Ropp, Rabs_pos_eq by lra. lra.
  - destruct (x_minus_sin_pos (- d)) as [H1 H2]; [lra |].
    rewrite sin_neg in H1, H2.
    rewrite <- (Rabs_Ropp d), (Rabs_pos_eq (- d)) by lra.
    rewrite Rabs_pos_eq by lra. lra.
Qed.

(** The numerator of [Phi] is of second order in the error. *)
Lemma numerator_quadratic (Es d : R) :
  Rabs (sin Es * A d + cos Es * B d) <=
  Rabs d * Rabs d / 2 + Rabs d * Rabs d * Rabs d / 6.
Proof.
  assert (E : sin Es * A d + cos Es * B d =
              sin (Es + d) * (1 - cos d) + cos (Es + d) * (sin d - d)).
  { unfold A, B; rewrite sin_plus, cos_plus.
    assert (H1 := sin2_cos2 d); unfold Rsqr in H1.
    transitivity
      ((sin Es * cos d + cos Es * sin d) * (1 - cos d) +
       (cos Es * cos d - sin Es * sin d) * (sin d - d) -
       sin Es * (1 - (sin d * sin d + cos d * cos d))); [ring |].
    rewrite H1; ring. }
  rewrite E.
  eapply Rle_trans; [apply Rabs_triang |].
  rewrite !Rabs_mult.
  destruct (one_minus_cos d) as [Hc1 Hc2].
  rewrite (Rabs_pos_eq (1 - cos d)) by exact Hc1.
  assert (Hx := x_minus_sin d).
  assert (Hs : Rabs (sin (Es + d)) <= 1)
    by (apply Rabs_le; assert (H := SIN_bound (Es + d)); lra).
  assert (Hc : Rabs (cos (Es + d)) <= 1)
    by (apply Rabs_le; assert (H := COS_bound (Es + d)); lra).
  assert (Hd : d * d = Rabs d * Rabs d).
  { rewrite <- Rabs_mult; symmetry; apply Rabs_pos_eq; nra. }
  assert (H0 := Rabs_pos (sin (Es + d))).
  assert (H1 := Rabs_pos (cos (Es + d))).
  assert (H2 := Rabs_pos (sin d - d)).
  nra.
Qed.

End KeplerShape.

(** ** Soundness of the interval operations *)

Section FixFacts.
Import Fix.
Local Open Scope R_scope.


Lemma S_val : (BigZ.to_Z scale) = 4294967296%Z.
Proof. reflexivity. Qed.

Lemma IZR_S_pos : 0 < IZR (BigZ.to_Z scale).
Proof. rewrite S_val; lra. Qed.

Lemma val_S : val scale = 1.
Proof. unfold val; field; apply Rgt_not_eq, IZR_S_pos. Qed.

Lemma val_0 : val 0%bigZ = 0.
Proof. unfold val; change (BigZ.to_Z 0%bigZ) with 0%Z; unfold Rdiv; ring. Qed.

Lemma val_add (x y : bigZ) : val (x + y)%bigZ = val x + val y.
Proof. unfold val; rewrite BigZ.spec_add, plus_IZR; unfold Rdiv; ring. Qed.

Lemma val_sub (x y : bigZ) : val (x - y)%bigZ = val x - val y.
Proof. unfold val; rewrite BigZ.spec_sub, minus_IZR; unfold Rdiv; ring. Qed.

Lemma val_opp (x : bigZ) : val (- x)%bigZ = - val x.
Proof. unfold val; rewrite BigZ.spec_opp, opp_IZR; unfold Rdiv; ring. Qed.

Lemma val_le (x y : bigZ) : (x <=? y)%bigZ = true -> val x <= val y.
Proof.
  rewrite BigZ.spec_leb, Z.leb_le; intros H; apply IZR_le in H.
  unfold val; apply Rmult_le_compat_r; [left; apply Rinv_0_lt_compat, IZR_S_pos | exact H].
Qed.

Lemma val_gt (x y : bigZ) : (x <=? y)%bigZ = false -> val y < val x.
Proof.
  rewrite BigZ.spec_leb, Z.leb_gt; intros H; apply IZR_lt in H.
  unfold val; apply Rmult_lt_compat_r; [apply Rinv_0_lt_compat, IZR_S_pos | exact H].
Qed.

Lemma val_lt (x y : bigZ) : (x <? y)%bigZ = true -> val x < val y.
Proof.
  rewrite BigZ.spec_ltb, Z.ltb_lt; intros H; apply IZR_lt in H.
  unfold val; apply Rmult_lt_compat_r; [apply Rinv_0_lt_compat, IZR_S_pos | exact H].
Qed.

Lemma val_min (x y : bigZ) : val (BigZ.min x y) = Rmin (val x) (val y).
Proof.
  unfold val; rewrite BigZ.spec_min.
  assert (Hs := IZR_S_pos).
  destruct (Z.min_spec (BigZ.to_Z x) (BigZ.to_Z y)) as [[Hlt ->] | [Hle ->]].
  - apply IZR_lt in Hlt; rewrite Rmin_left; [reflexivity |].
    apply Rmult_le_compat_r; [left; apply Rinv_0_lt_compat; exact Hs | lra].
  - apply IZR_le in Hle; rewrite Rmin_right; [reflexivity |].
    apply Rmult_le_compat_r; [left; apply Rinv_0_lt_compat; exact Hs | lra].
Qed.

Lemma val_max (x y : bigZ) : val (BigZ.max x y) = Rmax (val x) (val y).
Proof.
  unfold val; rewrite BigZ.spec_max.
  assert (Hs := IZR_S_pos).
  destruct (Z.max_spec (BigZ.to_Z x) (BigZ.to_Z y)) as [[Hlt ->] | [Hle ->]].
  - apply IZR_lt in Hlt; rewrite Rmax_right; [reflexivity |].
    apply Rmult_le_compat_r; [left; apply Rinv_0_lt_compat; exact Hs | lra].
  - apply IZR_le in Hle; rewrite Rmax_left; [reflexivity |].
    apply Rmult_le_compat_r; [left; apply Rinv_0_lt_compat; exact Hs | lra].
Qed.

(** Rounded quotients. *)
Lemma floor_div (n d : Z) : (0 < d)%Z -> IZR (n / d) <= IZR n / IZR d < IZR (n / d) + 1.
Proof.
  intros Hd.
  assert (Hd' : 0 < IZR d) by (apply IZR_lt in Hd; exact Hd).
  assert (H1 := Z.mul_div_le n d Hd).
  assert (H2 := Z.mul_succ_div_gt n d Hd).
  apply IZR_le in H1; apply IZR_lt in H2.
  rewrite mult_IZR in H1; rewrite mult_IZR, succ_IZR in H2.
  split.
  - apply Rmult_le_reg_r with (IZR d); [exact Hd' |].
    unfold Rdiv; rewrite Rmult_assoc, Rinv_l by lra. lra.
  - apply Rmult_lt_reg_r with (IZR d); [exact Hd' |].
    unfold Rdiv; rewrite Rmult_assoc, Rinv_l by lra. lra.
Qed.

Lemma fl_le (n d : bigZ) :
  (0 < (BigZ.to_Z d))%Z -> IZR (BigZ.to_Z (fl n d)) <= IZR (BigZ.to_Z n) / IZR (BigZ.to_Z d).
Proof.
  intros Hd; unfold fl; rewrite BigZ.spec_div; apply floor_div; exact Hd.
Qed.

Lemma cl_ge (n d : bigZ) :
  (0 < (BigZ.to_Z d))%Z -> IZR (BigZ.to_Z n) / IZR (BigZ.to_Z d) <= IZR (BigZ.to_Z (cl n d)).
Proof.
  intros Hd; unfold cl; rewrite BigZ.spec_opp, BigZ.spec_div, BigZ.spec_opp, opp_IZR.
  destruct (floor_div (- (BigZ.to_Z n)) (BigZ.to_Z d) Hd) as [H _].
  rewrite opp_IZR in H; unfold Rdiv in *; lra.
Qed.

(** A product of two bounds, rescaled. *)
Lemma val_mul (x y : bigZ) :
  IZR (BigZ.to_Z (x * y)%bigZ) / IZR (BigZ.to_Z scale) / IZR (BigZ.to_Z scale) =
  val x * val y.
Proof.
  unfold val; rewrite BigZ.spec_mul, mult_IZR; field.
  apply Rgt_not_eq, IZR_S_pos.
Qed.

Lemma val_fl_S (n : bigZ) :
  val (fl n scale) <= IZR (BigZ.to_Z n) / IZR (BigZ.to_Z scale) / IZR (BigZ.to_Z scale).
Proof.
  unfold val; apply Rmult_le_compat_r;
    [left; apply Rinv_0_lt_compat, IZR_S_pos | apply fl_le; reflexivity].
Qed.

Lemma val_cl_S (n : bigZ) :
  IZR (BigZ.to_Z n) / IZR (BigZ.to_Z scale) / IZR (BigZ.to_Z scale) <= val (cl n scale).
Proof.
  unfold val; apply Rmult_le_compat_r;
    [left; apply Rinv_0_lt_compat, IZR_S_pos | apply cl_ge; reflexivity].
Qed.

Lemma scaled_le (m n : bigZ) :
  ((BigZ.to_Z m) <= (BigZ.to_Z n))%Z ->
  IZR (BigZ.to_Z m) / IZR (BigZ.to_Z scale) / IZR (BigZ.to_Z scale) <=
  IZR (BigZ.to_Z n) / IZR (BigZ.to_Z scale) / IZR (BigZ.to_Z scale).
Proof.
  intros H; apply IZR_le in H; assert (Hs := IZR_S_pos).
  assert (Hi : 0 < / IZR (BigZ.to_Z scale)) by (apply Rinv_0_lt_compat; exact Hs).
  unfold Rdiv; apply Rmult_le_compat_r; [lra |].
  apply Rmult_le_compat_r; lra.
Qed.

(** Products of members of two intervals lie between the extreme products
    of the ends. *)
Lemma Rmult_interval (a b c d x y : R) :
  a <= x <= b -> c <= y <= d ->
  Rmin (Rmin (a * c) (a * d)) (Rmin (b * c) (b * d)) <= x * y <=
  Rmax (Rmax (a * c) (a * d)) (Rmax (b * c) (b * d)).
Proof.
  intros Hx Hy.
  assert (L1 := Rmin_l (a * c) (a * d)). assert (L2 := Rmin_r (a * c) (a * d)).
  assert (L3 := Rmin_l (b * c) (b * d)). assert (L4 := Rmin_r (b * c) (b * d)).
  assert (L5 := Rmin_l (Rmin (a * c) (a * d)) (Rmin (b * c) (b * d))).
  assert (L6 := Rmin_r (Rmin (a * c) (a * d)) (Rmin (b * c) (b * d))).
  assert (U1 := Rmax_l (a * c) (a * d)). assert (U2 := Rmax_r (a * c) (a * d)).
  assert (U3 := Rmax_l (b * c) (b * d)). assert (U4 := Rmax_r (b * c) (b * d)).
  assert (U5 := Rmax_l (Rmax (a * c) (a * d)) (Rmax (b * c) (b * d))).
  assert (U6 := Rmax_r (Rmax (a * c) (a * d)) (Rmax (b * c) (b * d))).
  destruct (Rle_dec 0 y) as [Hy0 | Hy0]; destruct (Rle_dec 0 a) as [Ha0 | Ha0];
    destruct (Rle_dec 0 b) as [Hb0 | Hb0]; split; nra.
Qed.

Lemma imul_encl (a b : I) (x y : R) :
  encl a x -> encl b y -> encl (imul a b) (x * y).
Proof.
  unfold encl; intros Hx Hy.
  destruct (Rmult_interval _ _ _ _ _ _ Hx Hy) as [Hlo Hhi].
  unfold imul; cbn [fst snd]; split.
  - eapply Rle_trans; [apply val_fl_S |].
    eapply Rle_trans; [| exact Hlo].
    rewrite <- !val_mul.
    set (p1 := (fst a * fst b)%bigZ); set (p2 := (fst a * snd b)%bigZ).
    set (p3 := (snd a * fst b)%bigZ); set (p4 := (snd a * snd b)%bigZ).
    repeat apply Rmin_glb; apply scaled_le; rewrite !BigZ.spec_min; lia.
  - eapply Rle_trans; [| apply val_cl_S].
    eapply Rle_trans; [exact Hhi |].
    rewrite <- !val_mul.
    set (p1 := (fst a * fst b)%bigZ); set (p2 := (fst a * snd b)%bigZ).
    set (p3 := (snd a * fst b)%bigZ); set (p4 := (snd a * snd b)%bigZ).
    repeat apply Rmax_lub; apply scaled_le; rewrite !BigZ.spec_max; lia.
Qed.

Lemma iadd_encl (a b : I) (x y : R) :
  encl a x -> encl b y -> encl (iadd a b) (x + y).
Proof.
  unfold encl, iadd; cbn [fst snd]; rewrite !val_add; intros Hx Hy; lra.
Qed.

Lemma isub_encl (a b : I) (x y : R) :
  encl a x -> encl b y -> encl (isub a b) (x - y).
Proof.
  unfold encl, isub; cbn [fst snd]; rewrite !val_sub; intros Hx Hy; lra.
Qed.

Lemma iopp_encl (a : I) (x : R) : encl a x -> encl (iopp a) (- x).
Proof.
  unfold encl, iopp; cbn [fst snd]; rewrite !val_opp; intros Hx; lra.
Qed.

Lemma one_encl : encl one 1.
Proof. unfold encl, one; cbn [fst snd]; rewrite val_S; lra. Qed.

Lemma pt_encl (x : bigZ) : encl (pt x) (val x).
Proof. unfold encl, pt; cbn [fst snd]; lra. Qed.

Lemma val_divk_lo (x k : bigZ) :
  (0 < (BigZ.to_Z k))%Z -> val (fl x k) <= val x / IZR (BigZ.to_Z k).
Proof.
  intros Hk; unfold val.
  assert (H := fl_le x k Hk). assert (Hs := IZR_S_pos).
  assert (Hk' : 0 < IZR (BigZ.to_Z k)) by (apply IZR_lt in Hk; exact Hk).
  replace (IZR (BigZ.to_Z x) / IZR (BigZ.to_Z scale) / IZR (BigZ.to_Z k))
    with (IZR (BigZ.to_Z x) / IZR (BigZ.to_Z k) / IZR (BigZ.to_Z scale))
    by (field; lra).
  apply Rmult_le_compat_r; [left; apply Rinv_0_lt_compat; exact Hs | exact H].
Qed.

Lemma val_divk_hi (x k : bigZ) :
  (0 < (BigZ.to_Z k))%Z -> val x / IZR (BigZ.to_Z k) <= val (cl x k).
Proof.
  intros Hk; unfold val.
  assert (H := cl_ge x k Hk). assert (Hs := IZR_S_pos).
  assert (Hk' : 0 < IZR (BigZ.to_Z k)) by (apply IZR_lt in Hk; exact Hk).
  replace (IZR (BigZ.to_Z x) / IZR (BigZ.to_Z scale) / IZR (BigZ.to_Z k))
    with (IZR (BigZ.to_Z x) / IZR (BigZ.to_Z k) / IZR (BigZ.to_Z scale))
    by (field; lra).
  apply Rmult_le_compat_r; [left; apply Rinv_0_lt_compat; exact Hs | exact H].
Qed.

Lemma idivk_encl (a : I) (k : bigZ) (x : R) :
  (0 < (BigZ.to_Z k))%Z -> encl a x -> encl (idivk a k) (x / IZR (BigZ.to_Z k)).
Proof.
  intros Hk [Hlo Hhi]; unfold encl, idivk; cbn [fst snd].
  assert (Hk' : 0 < / IZR (BigZ.to_Z k))
    by (apply Rinv_0_lt_compat; apply IZR_lt in Hk; exact Hk).
  split.
  - eapply Rle_trans; [apply val_divk_lo; exact Hk |].
    apply Rmult_le_compat_r; lra.
  - eapply Rle_trans; [| apply val_divk_hi; exact Hk].
    apply Rmult_le_compat_r; lra.
Qed.

Lemma imulk_encl (a : I) (k : bigZ) (x : R) :
  (0 <= (BigZ.to_Z k))%Z -> encl a x -> encl (imulk a k) (x * IZR (BigZ.to_Z k)).
Proof.
  intros Hk [Hlo Hhi]; unfold encl, imulk, val; cbn [fst snd].
  rewrite !BigZ.spec_mul, !mult_IZR.
  apply IZR_le in Hk; unfold val in Hlo, Hhi.
  split.
  - replace (IZR (BigZ.to_Z (fst a)) * IZR (BigZ.to_Z k) / IZR (BigZ.to_Z scale))
      with (IZR (BigZ.to_Z (fst a)) / IZR (BigZ.to_Z scale) * IZR (BigZ.to_Z k))
      by (unfold Rdiv; ring).
    apply Rmult_le_compat_r; assumption.
  - replace (IZR (BigZ.to_Z (snd a)) * IZR (BigZ.to_Z k) / IZR (BigZ.to_Z scale))
      with (IZR (BigZ.to_Z (snd a)) / IZR (BigZ.to_Z scale) * IZR (BigZ.to_Z k))
      by (unfold Rdiv; ring).
    apply Rmult_le_compat_r; assumption.
Qed.

(** Quotient of two bounds, rescaled. *)
Lemma val_quot_lo (n d : bigZ) :
  (0 < (BigZ.to_Z d))%Z -> val (fl (n * scale) d) <= val n / val d.
Proof.
  intros Hd; assert (H := fl_le (n * scale)%bigZ d Hd).
  rewrite BigZ.spec_mul, mult_IZR in H.
  assert (Hs := IZR_S_pos).
  assert (Hd' : 0 < IZR (BigZ.to_Z d)) by (apply IZR_lt in Hd; exact Hd).
  unfold val at 1.
  replace (val n / val d)
    with (IZR (BigZ.to_Z n) * IZR (BigZ.to_Z scale) / IZR (BigZ.to_Z d) /
          IZR (BigZ.to_Z scale))
    by (unfold val; field; lra).
  apply Rmult_le_compat_r; [left; apply Rinv_0_lt_compat; exact Hs | exact H].
Qed.

Lemma val_quot_hi (n d : bigZ) :
  (0 < (BigZ.to_Z d))%Z -> val n / val d <= val (cl (n * scale) d).
Proof.
  intros Hd; assert (H := cl_ge (n * scale)%bigZ d Hd).
  rewrite BigZ.spec_mul, mult_IZR in H.
  assert (Hs := IZR_S_pos).
  assert (Hd' : 0 < IZR (BigZ.to_Z d)) by (apply IZR_lt in Hd; exact Hd).
  unfold val at 3.
  replace (val n / val d)
    with (IZR (BigZ.to_Z n) * IZR (BigZ.to_Z scale) / IZR (BigZ.to_Z d) /
          IZR (BigZ.to_Z scale))
    by (unfold val; field; lra).
  apply Rmult_le_compat_r; [left; apply Rinv_0_lt_compat; exact Hs | exact H].
Qed.

Lemma val_pos (d : bigZ) : (0 < (BigZ.to_Z d))%Z -> 0 < val d.
Proof.
  intros H; apply IZR_lt in H; unfold val.
  apply Rmult_lt_0_compat; [exact H | apply Rinv_0_lt_compat, IZR_S_pos].
Qed.

Lemma val_nonneg (x : bigZ) : (0 <=? x)%bigZ = true -> 0 <= val x.
Proof. intros H; apply val_le in H; rewrite val_0 in H; exact H. Qed.

Lemma val_neg (x : bigZ) : (0 <=? x)%bigZ = false -> val x < 0.
Proof. intros H; apply val_gt in H; rewrite val_0 in H; exact H. Qed.

Lemma Rdiv_interval_lo (n d nl dl dh : R) :
  0 < dl -> dl <= d <= dh -> nl <= n ->
  (if Rle_dec 0 nl then nl / dh else nl / dl) <= n / d.
Proof.
  intros Hdl Hd Hn.
  assert (Hi1 : / dh <= / d) by (apply Rinv_le_contravar; lra).
  assert (Hi2 : / d <= / dl) by (apply Rinv_le_contravar; lra).
  assert (Hi3 : 0 < / dh) by (apply Rinv_0_lt_compat; lra).
  assert (Hi4 : 0 < / d) by (apply Rinv_0_lt_compat; lra).
  unfold Rdiv; destruct (Rle_dec 0 nl); nra.
Qed.

Lemma Rdiv_interval_hi (n d nh dl dh : R) :
  0 < dl -> dl <= d <= dh -> n <= nh ->
  n / d <= (if Rle_dec 0 nh then nh / dl else nh / dh).
Proof.
  intros Hdl Hd Hn.
  assert (Hi1 : / dh <= / d) by (apply Rinv_le_contravar; lra).
  assert (Hi2 : / d <= / dl) by (apply Rinv_le_contravar; lra).
  assert (Hi3 : 0 < / dh) by (apply Rinv_0_lt_compat; lra).
  assert (Hi4 : 0 < / d) by (apply Rinv_0_lt_compat; lra).
  unfold Rdiv; destruct (Rle_dec 0 nh); nra.
Qed.

Lemma idiv_pos_encl (n d : I) (x y : R) :
  (0 < (BigZ.to_Z (fst d)))%Z -> encl n x -> encl d y -> encl (idiv_pos n d) (x / y).
Proof.
  intros Hd [Hnl Hnh] [Hdl Hdh].
  assert (Hdl' := val_pos _ Hd).
  assert (Hsd : (0 < (BigZ.to_Z (snd d)))%Z).
  { apply lt_IZR. assert (Hs := IZR_S_pos).
    assert (H : val (fst d) <= val (snd d)) by lra.
    unfold val in H, Hdl'.
    apply Rmult_le_reg_r in H; [| apply Rinv_0_lt_compat; exact Hs].
    apply Rmult_lt_reg_r with (/ IZR (BigZ.to_Z scale)); [apply Rinv_0_lt_compat; exact Hs |].
    rewrite Rmult_0_l. unfold Rdiv in Hdl'.
    eapply Rlt_le_trans; [exact Hdl' |].
    apply Rmult_le_compat_r; [left; apply Rinv_0_lt_compat; exact Hs | exact H]. }
  unfold encl, idiv_pos; cbn [fst snd]; split.
  - assert (H := Rdiv_interval_lo x y (val (fst n)) (val (fst d)) (val (snd d))
                   Hdl' (conj Hdl Hdh) Hnl).
    destruct (0 <=? fst n)%bigZ eqn:E.
    + apply val_nonneg in E.
      destruct (Rle_dec 0 (val (fst n))); [| contradiction].
      eapply Rle_trans; [apply val_quot_lo; exact Hsd | exact H].
    + apply val_neg in E.
      destruct (Rle_dec 0 (val (fst n))); [lra |].
      eapply Rle_trans; [apply val_quot_lo; exact Hd | exact H].
  - assert (H := Rdiv_interval_hi x y (val (snd n)) (val (fst d)) (val (snd d))
                   Hdl' (conj Hdl Hdh) Hnh).
    destruct (0 <=? snd n)%bigZ eqn:E.
    + apply val_nonneg in E.
      destruct (Rle_dec 0 (val (snd n))); [| contradiction].
      eapply Rle_trans; [exact H | apply val_quot_hi; exact Hd].
    + apply val_neg in E.
      destruct (Rle_dec 0 (val (snd n))); [lra |].
      eapply Rle_trans; [exact H | apply val_quot_hi; exact Hsd].
Qed.

End FixFacts.

(** ** Soundness of the enclosures of [sin] and [cos] *)

Section TrigEnclosures.
Import Kepler Fix Checker.
Local Open Scope R_scope.

Lemma T_S (a : R) (i : nat) :
  T a (S i) = T a i * (a * a) / (INR (2 * i + 2) * INR (2 * i + 3)).
Proof.
  unfold T.
  replace (2 * S i + 1)%nat with (S (S (2 * i + 1))) by lia.
  replace (2 * i + 3)%nat with (S (S (2 * i + 1))) by lia.
  replace (2 * i + 2)%nat with (S (2 * i + 1)) by lia.
  rewrite (fact_simpl (S (2 * i + 1))), (fact_simpl (2 * i + 1)).
  rewrite !mult_INR.
  assert (H1 := INR_fact_neq_0 (2 * i + 1)).
  assert (H2 : INR (S (2 * i + 1)) <> 0) by (apply not_0_INR; lia).
  assert (H3 : INR (S (S (2 * i + 1))) <> 0) by (apply not_0_INR; lia).
  simpl pow; field; repeat split; assumption.
Qed.

Lemma sin_approx_S (a : R) (n : nat) :
  sin_approx a (S n) = sin_approx a n + (-1) ^ S n * T a (S n).
Proof. reflexivity. Qed.

Lemma sin_approx_odd (a : R) (j : nat) :
  sin_approx a (S (2 * j)) = sin_approx a (2 * j) - T a (S (2 * j)).
Proof. rewrite sin_approx_S, pow_1_odd; ring. Qed.

Lemma sin_approx_even (a : R) (j : nat) :
  sin_approx a (2 * S j) = sin_approx a (S (2 * j)) + T a (2 * S j).
Proof.
  replace (2 * S j)%nat with (S (S (2 * j))) at 1 by lia.
  rewrite sin_approx_S.
  replace (S (S (2 * j))) with (2 * S j)%nat by lia.
  rewrite pow_1_even; ring.
Qed.

Lemma T_0 (a : R) : T a (2 * 0) = a.
Proof. unfold T; simpl; field. Qed.

Lemma sin_approx_0 (a : R) : sin_approx a (2 * 0) = a.
Proof. unfold sin_approx, sin_term; simpl; field. Qed.

#[local] Opaque T sin_approx.

(** The next term from the enclosure of a term; [kk] is
    [(2 i + 2) (2 i + 3)]. *)
Lemma next_term_encl (a : R) (i : nat) (kk : bigZ) (a2 t : I) :
  BigZ.to_Z kk = (Z.of_nat (2 * i + 2) * Z.of_nat (2 * i + 3))%Z ->
  encl a2 (a * a) -> encl t (T a i) ->
  encl (idivk (imul t a2) kk) (T a (S i)).
Proof.
  intros Hkk Ha2 Ht.
  rewrite T_S, !INR_IZR_INZ, <- mult_IZR, <- Hkk.
  apply idivk_encl; [rewrite Hkk; lia |].
  apply imul_encl; assumption.
Qed.

Lemma sin_terms_sound (n : nat) :
  forall (j : nat) (k : bigZ) (a2 t acc : I) (a : R),
    BigZ.to_Z k = Z.of_nat (2 * (2 * j)) ->
    encl a2 (a * a) ->
    encl t (T a (2 * j)) ->
    encl acc (sin_approx a (2 * j)) ->
    encl (fst (sin_terms n k a2 t acc)) (T a (2 * (j + n))) /\
    encl (snd (sin_terms n k a2 t acc)) (sin_approx a (2 * (j + n))).
Proof.
  induction n as [| n IH]; intros j k a2 t acc a Hk Ha2 Ht Hacc.
  - rewrite Nat.add_0_r; split; assumption.
  - cbn [sin_terms].
    set (t1 := idivk (imul t a2) ((k + 2) * (k + 3))%bigZ).
    set (t2 := idivk (imul t1 a2) ((k + 4) * (k + 5))%bigZ).
    assert (Ht1 : encl t1 (T a (S (2 * j)))).
    { apply next_term_encl; try assumption.
      rewrite BigZ.spec_mul, !BigZ.spec_add, Hk.
      change (BigZ.to_Z 2) with 2%Z; change (BigZ.to_Z 3) with 3%Z; lia. }
    assert (Ht2 : encl t2 (T a (2 * S j))).
    { replace (2 * S j)%nat with (S (S (2 * j))) by lia.
      apply next_term_encl; try assumption.
      rewrite BigZ.spec_mul, !BigZ.spec_add, Hk.
      change (BigZ.to_Z 4) with 4%Z; change (BigZ.to_Z 5) with 5%Z; lia. }
    replace (j + S n)%nat with (S j + n)%nat by lia.
    apply IH.
    + rewrite BigZ.spec_add, Hk; change (BigZ.to_Z 4) with 4%Z; lia.
    + exact Ha2.
    + exact Ht2.
    + rewrite sin_approx_even, sin_approx_odd.
      apply iadd_encl; [apply isub_encl |]; assumption.
Qed.

Lemma sin_encl_sound (al au : bigZ) (a : R) :
  val al <= a <= val au -> encl (sin_encl al au) (sin a).
Proof.
  intros Ha; unfold sin_encl.
  destruct ((0 <=? al)%bigZ && (au <=? 4 * scale)%bigZ) eqn:Hg.
  - apply andb_true_iff in Hg; destruct Hg as [H0 H4].
    apply val_nonneg in H0; apply val_le in H4.
    assert (E4 : val (4 * scale)%bigZ = 4).
    { unfold val; rewrite BigZ.spec_mul, mult_IZR; change (BigZ.to_Z 4) with 4%Z.
      field; apply Rgt_not_eq, IZR_S_pos. }
    rewrite E4 in H4.
    assert (Ha0 : 0 <= a) by lra. assert (Ha4 : a <= 4) by lra.
    set (Ia := (al, au)).
    assert (HIa : encl Ia a) by exact Ha.
    assert (Ha2 : encl (imul Ia Ia) (a * a)) by (apply imul_encl; exact HIa).
    assert (HT0 : encl Ia (T a (2 * 0))) by (rewrite T_0; exact HIa).
    assert (HS0 : encl Ia (sin_approx a (2 * 0))) by (rewrite sin_approx_0; exact HIa).
    destruct (sin_terms_sound 4 0 0%bigZ (imul Ia Ia) Ia Ia a eq_refl Ha2 HT0 HS0)
      as [Ht8 Hs8].
    destruct (sin_terms 4 0 (imul Ia Ia) Ia Ia) as [t acc]; cbn [fst snd] in Ht8, Hs8.
    change (0 + 4)%nat with 4%nat in Ht8, Hs8.
    set (t9 := idivk (imul t (imul Ia Ia)) (18 * 19)%bigZ).
    set (t10 := idivk (imul t9 (imul Ia Ia)) (20 * 21)%bigZ).
    assert (Ht9 : encl t9 (T a (S (2 * 4))))
      by (apply next_term_encl; [reflexivity | exact Ha2 | exact Ht8]).
    assert (Ht10 : encl t10 (T a (S (S (2 * 4)))))
      by (apply next_term_encl; [reflexivity | exact Ha2 | exact Ht9]).
    assert (Hs9 : encl (isub acc t9) (sin_approx a (S (2 * 4))))
      by (rewrite sin_approx_odd; apply isub_encl; [exact Hs8 | exact Ht9]).
    assert (Hs10 : encl (iadd (isub acc t9) t10) (sin_approx a (2 * S 4))).
    { rewrite sin_approx_even; apply iadd_encl; [exact Hs9 |].
      replace (2 * S 4)%nat with (S (S (2 * 4))) by reflexivity; exact Ht10. }
    destruct (pre_sin_bound a 4 Ha0 Ha4) as [Hlo Hhi].
    replace (2 * 4 + 1)%nat with (S (2 * 4)) in Hlo by reflexivity.
    replace (2 * (4 + 1))%nat with (2 * S 4)%nat in Hhi by reflexivity.
    destruct Hs9 as [Hs9 _]; destruct Hs10 as [_ Hs10].
    unfold encl; cbn [fst snd]; lra.
  - assert (Hb := SIN_bound a).
    unfold encl; cbn [fst snd]; rewrite val_opp, val_S; lra.
Qed.

Lemma sin_pt_sound (x : bigZ) : encl (sin_pt x) (sin (val x)).
Proof. apply sin_encl_sound; lra. Qed.

Lemma val_half (x : bigZ) : val (fl x 2) <= val x / 2 <= val (cl x 2).
Proof.
  split; [apply (val_divk_lo x 2%bigZ) | apply (val_divk_hi x 2%bigZ)]; reflexivity.
Qed.

Lemma cos_pt_sound (x : bigZ) : encl (cos_pt x) (cos (val x)).
Proof.
  unfold cos_pt.
  assert (Hs := sin_encl_sound (fl x 2) (cl x 2) (val x / 2) (val_half x)).
  replace (cos (val x)) with (1 - sin (val x / 2) * sin (val x / 2) * 2).
  - apply isub_encl; [apply one_encl |].
    apply (imulk_encl _ 2%bigZ); [discriminate |].
    apply imul_encl; exact Hs.
  - replace (val x) with (2 * (val x / 2)) at 3 by field.
    rewrite cos_2a_sin; ring.
Qed.

Lemma A_pt_sound (x : bigZ) : encl (A_pt x) (A (val x)).
Proof.
  unfold A_pt, A.
  apply iadd_encl; [apply isub_encl; [apply cos_pt_sound | apply one_encl] |].
  apply imul_encl; [apply pt_encl | apply sin_pt_sound].
Qed.

Lemma B_pt_sound (x : bigZ) : encl (B_pt x) (B (val x)).
Proof.
  unfold B_pt, B.
  apply isub_encl; [apply sin_pt_sound |].
  apply imul_encl; [apply pt_encl | apply cos_pt_sound].
Qed.

End TrigEnclosures.

(** ** Soundness of the enclosures over an interval *)

Section RangeEnclosures.
Import Kepler Fix Checker.
Local Open Scope R_scope.

Lemma PI_LO_val : val PI_LO <= PI.
Proof.
  assert (H := PI_bounds); unfold val.
  change (BigZ.to_Z PI_LO) with 13492639760%Z; rewrite S_val; lra.
Qed.

Lemma PI_HI_val : PI <= val PI_HI.
Proof.
  assert (H := PI_bounds); unfold val.
  change (BigZ.to_Z PI_HI) with 13493498754%Z; rewrite S_val; lra.
Qed.

Lemma HPI_LO_val : val HPI_LO <= PI / 2.
Proof.
  assert (H := PI_bounds); unfold val.
  change (BigZ.to_Z HPI_LO) with 6746319880%Z; rewrite S_val; lra.
Qed.

Lemma HPI_HI_val : PI / 2 <= val HPI_HI.
Proof.
  assert (H := PI_bounds); unfold val.
  change (BigZ.to_Z HPI_HI) with 6746749377%Z; rewrite S_val; lra.
Qed.

Lemma HPI_HI_minus_1 : PI / 2 - 1 <= val (HPI_HI - scale)%bigZ.
Proof. rewrite val_sub, val_S; assert (H := HPI_HI_val); lra. Qed.

Lemma TARGET_val : val TARGET <= 5e-7.
Proof.
  unfold val; change (BigZ.to_Z TARGET) with 2147%Z; rewrite S_val; lra.
Qed.

Lemma E_MAX_val : 0.95 <= val E_MAX.
Proof.
  unfold val; change (BigZ.to_Z E_MAX) with 4080218932%Z; rewrite S_val; lra.
Qed.

Lemma val_2PI_LO : val (2 * PI_LO)%bigZ <= 2 * PI.
Proof.
  assert (H := PI_LO_val); unfold val in *.
  rewrite BigZ.spec_mul, mult_IZR; change (BigZ.to_Z 2) with 2%Z.
  unfold Rdiv in *; lra.
Qed.

(** *** [cos] and [sin] over an interval *)

Lemma cos_max_ends (lo hi x : R) :
  0 <= lo -> lo <= x -> x <= hi -> hi <= 2 * PI ->
  cos x <= Rmax (cos lo) (cos hi).
Proof.
  intros Hlo Hx1 Hx2 Hhi.
  destruct (Rle_dec x PI).
  - eapply Rle_trans; [| apply Rmax_l]. apply cos_decr_1; lra.
  - eapply Rle_trans; [| apply Rmax_r]. apply cos_incr_1; lra.
Qed.

Lemma sin_min_ends (a b x : R) :
  0 <= a -> a <= x -> x <= b -> b <= PI ->
  Rmin (sin a) (sin b) <= sin x.
Proof.
  intros Ha Hx1 Hx2 Hb. assert (HPI := PI_RGT_0).
  destruct (Rle_dec x (PI / 2)).
  - eapply Rle_trans; [apply Rmin_l |]. apply sin_incr_1; lra.
  - eapply Rle_trans; [apply Rmin_r |]. apply sin_decr_1; lra.
Qed.

Lemma cos_rng_sound (lo hi : bigZ) (x : R) :
  val lo <= x <= val hi -> encl (cos_rng lo hi) (cos x).
Proof.
  intros Hx; assert (Hb := COS_bound x).
  assert (H1 := PI_LO_val). assert (H2 := PI_HI_val). assert (H3 := val_2PI_LO).
  assert (HPI := PI_RGT_0).
  unfold cos_rng.
  destruct (0 <=? lo)%bigZ eqn:E0.
  2:{ unfold encl; cbn [fst snd]; rewrite val_opp, val_S; lra. }
  apply val_nonneg in E0.
  unfold encl; cbn [fst snd]; split.
  - destruct (hi <=? PI_LO)%bigZ eqn:E1.
    + apply val_le in E1.
      destruct (cos_pt_sound hi) as [Hc _].
      eapply Rle_trans; [exact Hc |]. apply cos_decr_1; lra.
    + destruct ((PI_HI <=? lo)%bigZ && (hi <=? 2 * PI_LO)%bigZ) eqn:E2.
      * apply andb_true_iff in E2; destruct E2 as [E2 E3].
        apply val_le in E2; apply val_le in E3.
        destruct (cos_pt_sound lo) as [Hc _].
        eapply Rle_trans; [exact Hc |]. apply cos_incr_1; lra.
      * cbv iota; rewrite val_opp, val_S; lra.
  - destruct (hi <=? 2 * PI_LO)%bigZ eqn:E1.
    + apply val_le in E1.
      destruct (cos_pt_sound lo) as [_ Hc1]. destruct (cos_pt_sound hi) as [_ Hc2].
      rewrite val_max.
      eapply Rle_trans; [apply (cos_max_ends (val lo) (val hi)); lra |].
      apply Rmax_lub.
      * eapply Rle_trans; [exact Hc1 | apply Rmax_l].
      * eapply Rle_trans; [exact Hc2 | apply Rmax_r].
    + cbv iota; rewrite val_S; lra.
Qed.

Lemma sin_rng_sound (a b : bigZ) (Es : R) :
  val a <= Es <= val b -> 0 <= Es <= PI -> encl (sin_rng a b) (sin Es).
Proof.
  intros Hx HEs. assert (Hb := SIN_bound Es).
  assert (H0 : 0 <= sin Es) by (apply sin_ge_0; lra).
  assert (H1 := PI_LO_val). assert (H2 := HPI_LO_val). assert (H3 := HPI_HI_val).
  assert (HPI := PI_RGT_0).
  unfold sin_rng, encl; cbn [fst snd]; split.
  - destruct ((0 <=? a)%bigZ && (b <=? PI_LO)%bigZ) eqn:E1.
    + apply andb_true_iff in E1; destruct E1 as [Ea Eb].
      apply val_nonneg in Ea; apply val_le in Eb.
      rewrite val_max, val_min, val_0.
      apply Rmax_lub; [exact H0 |].
      destruct (sin_pt_sound a) as [Hs1 _]. destruct (sin_pt_sound b) as [Hs2 _].
      eapply Rle_trans; [| apply (sin_min_ends (val a) (val b)); lra].
      apply Rmin_glb.
      * eapply Rle_trans; [apply Rmin_l | exact Hs1].
      * eapply Rle_trans; [apply Rmin_r | exact Hs2].
    + cbv iota; rewrite val_0; exact H0.
  - destruct (b <=? HPI_LO)%bigZ eqn:E1.
    + apply val_le in E1.
      destruct (sin_pt_sound b) as [_ Hs].
      eapply Rle_trans; [| exact Hs]. apply sin_incr_1; lra.
    + destruct (HPI_HI <=? a)%bigZ eqn:E2.
      * apply val_le in E2.
        destruct (sin_pt_sound a) as [_ Hs].
        eapply Rle_trans; [| exact Hs]. apply sin_decr_1; lra.
      * cbv iota; rewrite val_S; lra.
Qed.

(** *** [A] and [B] over an interval *)

Lemma Some_inj (X : Type) (x y : X) : Some x = Some y -> x = y.
Proof. intros H; injection H as H; exact H. Qed.

Lemma A_pos_sound (l u : bigZ) (i : I) (x : R) :
  A_pos l u = Some i -> 0 <= val l -> val l <= x <= val u -> encl i (A x).
Proof.
  unfold A_pos; intros Hi Hl Hx.
  assert (H1 := PI_LO_val). assert (H2 := HPI_LO_val). assert (H3 := HPI_HI_val).
  destruct (u <=? PI_LO)%bigZ eqn:E1; [| discriminate].
  apply val_le in E1.
  apply Some_inj in Hi; subst i.
  unfold encl; cbn [fst snd]; split.
  - rewrite val_min.
    destruct (A_pt_sound l) as [Hl1 _]. destruct (A_pt_sound u) as [Hu1 _].
    eapply Rle_trans; [| apply (A_min_ends (val l) (val u)); lra].
    apply Rmin_glb.
    + eapply Rle_trans; [apply Rmin_l | exact Hl1].
    + eapply Rle_trans; [apply Rmin_r | exact Hu1].
  - destruct (u <=? HPI_LO)%bigZ eqn:E2.
    + apply val_le in E2. destruct (A_pt_sound u) as [_ Hu2].
      eapply Rle_trans; [| exact Hu2]. apply A_incr; lra.
    + destruct (HPI_HI <=? l)%bigZ eqn:E3.
      * apply val_le in E3. destruct (A_pt_sound l) as [_ Hl2].
        eapply Rle_trans; [| exact Hl2]. apply A_decr; lra.
      * eapply Rle_trans; [apply A_max; lra | exact HPI_HI_minus_1].
Qed.

Lemma A_rng_sound (l u : bigZ) (i : I) (x : R) :
  A_rng l u = Some i -> val l <= x <= val u -> encl i (A x).
Proof.
  unfold A_rng; intros Hi Hx.
  destruct (0 <=? l)%bigZ eqn:E0.
  - apply val_nonneg in E0. apply (A_pos_sound l u); assumption.
  - apply val_neg in E0.
    destruct (u <=? 0)%bigZ eqn:E1.
    + apply val_le in E1; rewrite val_0 in E1.
      rewrite <- A_even.
      apply (A_pos_sound (- u) (- l)); rewrite ?val_opp; [exact Hi | lra | lra].
    + apply val_gt in E1; rewrite val_0 in E1.
      destruct (BigZ.max (- l) u <=? HPI_LO)%bigZ eqn:E2; [| discriminate].
      apply val_le in E2; rewrite val_max, val_opp in E2.
      assert (H2 := HPI_LO_val).
      assert (Hm1 := Rmax_l (- val l) (val u)). assert (Hm2 := Rmax_r (- val l) (val u)).
      apply Some_inj in Hi; subst i.
      destruct (A_pt_sound (BigZ.max (- l) u)) as [_ Hm].
      rewrite val_max, val_opp in Hm.
      unfold encl; cbn [fst snd]; rewrite val_0.
      destruct (Rle_dec 0 x) as [H0x | H0x].
      * split; [apply A_nonneg; lra |].
        eapply Rle_trans; [| exact Hm]. apply A_incr; lra.
      * rewrite <- A_even.
        split; [apply A_nonneg; lra |].
        eapply Rle_trans; [| exact Hm]. apply A_incr; lra.
Qed.

Lemma B_rng_sound (l u : bigZ) (i : I) (x : R) :
  B_rng l u = Some i -> val l <= x <= val u -> encl i (B x).
Proof.
  unfold B_rng; intros Hi Hx.
  destruct ((- PI_LO <=? l)%bigZ && (u <=? PI_LO)%bigZ) eqn:E0; [| discriminate].
  apply andb_true_iff in E0; destruct E0 as [El Eu].
  apply val_le in El; apply val_le in Eu; rewrite val_opp in El.
  assert (H1 := PI_LO_val).
  apply Some_inj in Hi; subst i.
  unfold encl; cbn [fst snd]; split.
  - apply Rle_trans with (B (val l)); [| apply B_incr; lra].
    destruct (0 <=? l)%bigZ; cbv iota.
    + destruct (B_pt_sound l) as [H _]; exact H.
    + rewrite val_opp. destruct (B_pt_sound (- l)) as [_ H].
      rewrite val_opp, B_odd in H. lra.
  - apply Rle_trans with (B (val u)); [apply B_incr; lra |].
    destruct (0 <=? u)%bigZ; cbv iota.
    + destruct (B_pt_sound u) as [_ H]; exact H.
    + rewrite val_opp. destruct (B_pt_sound (- u)) as [H _].
      rewrite val_opp, B_odd in H. lra.
Qed.

End RangeEnclosures.

(** ** Soundness of the checker *)

Section CheckerSoundness.
Import Kepler Fix Checker.
Local Open Scope R_scope.

Lemma Rabs_le_both (x a : R) : Rabs x <= a -> - a <= x <= a.
Proof. unfold Rabs; destruct (Rcase_abs x); lra. Qed.

Lemma val_mul_up (x y : bigZ) : val x * val y <= val (cl (x * y) scale).
Proof. rewrite <- val_mul; apply val_cl_S. Qed.

Lemma val_abs_max (l u : bigZ) (x : R) :
  val l <= x <= val u -> Rabs x <= val (BigZ.max (- l) u).
Proof.
  intros Hx; rewrite val_max, val_opp.
  assert (H1 := Rmax_l (- val l) (val u)). assert (H2 := Rmax_r (- val l) (val u)).
  apply Rabs_le; lra.
Qed.

(** The quadratic bound, rounded up. *)
Lemma quadratic_bound (e D : I) (m : bigZ) (e_ x y den : R) :
  (0 < BigZ.to_Z (fst D))%Z ->
  encl e e_ -> 0 <= e_ -> encl D den ->
  Rabs x <= val m ->
  Rabs y <= Rabs x * Rabs x / 2 + Rabs x * Rabs x * Rabs x / 6 ->
  let m2 := cl (m * m) scale in
  let m3 := cl (m2 * m) scale in
  Rabs (e_ * y / den) <=
  val (cl (cl (snd e * (cl m2 2 + cl m3 6)) scale * scale) (fst D)).
Proof.
  intros HD [_ He] He0 [HD1 HD2] Hx Hy m2 m3.
  assert (HDpos := val_pos _ HD).
  assert (Hax := Rabs_pos x).
  assert (Hm2 : Rabs x * Rabs x <= val m2).
  { eapply Rle_trans; [| apply val_mul_up]. nra. }
  assert (Hm3 : Rabs x * Rabs x * Rabs x <= val m3).
  { eapply Rle_trans; [| apply val_mul_up]. nra. }
  assert (Hh2 : val m2 / 2 <= val (cl m2 2)) by (apply (val_divk_hi m2 2%bigZ); reflexivity).
  assert (Hh3 : val m3 / 6 <= val (cl m3 6)) by (apply (val_divk_hi m3 6%bigZ); reflexivity).
  set (h := (cl m2 2 + cl m3 6)%bigZ).
  assert (Hh : Rabs y <= val h) by (unfold h; rewrite val_add; lra).
  assert (Hay := Rabs_pos y).
  set (num := cl (snd e * h) scale).
  assert (Hnum : e_ * Rabs y <= val num).
  { eapply Rle_trans; [| apply val_mul_up]. nra. }
  eapply Rle_trans; [| apply val_quot_hi; exact HD].
  unfold Rdiv at 1; rewrite !Rabs_mult, (Rabs_pos_eq e_) by exact He0.
  rewrite Rabs_inv, (Rabs_pos_eq den) by lra.
  assert (Hi : / den <= / val (fst D)) by (apply Rinv_le_contravar; lra).
  assert (Hi0 : 0 < / den) by (apply Rinv_0_lt_compat; lra).
  assert (Hn0 : 0 <= e_ * Rabs y) by nra.
  unfold Rdiv; nra.
Qed.

Lemma step_sound (a b : bigZ) (c s e d d' : I) (e_ Es x : R) :
  step a b c s e d = Some d' ->
  val a <= Es <= val b ->
  encl c (cos Es) -> encl s (sin Es) ->
  encl e e_ -> 0 <= e_ ->
  encl d x ->
  encl d' (Phi e_ Es x).
Proof.
  unfold step; intros Hstep HEs Hc Hs He He0 Hd.
  destruct (A_rng (fst d) (snd d)) as [IA |] eqn:EA; [| discriminate].
  destruct (B_rng (fst d) (snd d)) as [IB |] eqn:EB; [| discriminate].
  assert (HA := A_rng_sound _ _ _ x EA Hd).
  assert (HB := B_rng_sound _ _ _ x EB Hd).
  set (G := iadd (imul s IA) (imul c IB)) in *.
  set (C := cos_rng (a + fst d) (b + snd d)) in *.
  set (D := isub one (imul e C)) in *.
  destruct (0 <? fst D)%bigZ eqn:ED; [| discriminate].
  apply Some_inj in Hstep; subst d'.
  assert (HDpos : (0 < BigZ.to_Z (fst D))%Z)
    by (rewrite BigZ.spec_ltb in ED; apply Z.ltb_lt in ED; exact ED).
  assert (HG : encl G (sin Es * A x + cos Es * B x))
    by (apply iadd_encl; apply imul_encl; assumption).
  assert (HC : encl C (cos (Es + x))).
  { apply cos_rng_sound; rewrite !val_add; destruct Hd; lra. }
  assert (HD : encl D (1 - e_ * cos (Es + x)))
    by (apply isub_encl; [apply one_encl | apply imul_encl; assumption]).
  assert (Hr : encl (idiv_pos (imul e G) D) (Phi e_ Es x)).
  { unfold Phi; apply idiv_pos_encl; [exact HDpos | | exact HD].
    apply imul_encl; assumption. }
  assert (Hq := quadratic_bound e D (BigZ.max (- fst d) (snd d)) e_ x
                  (sin Es * A x + cos Es * B x) (1 - e_ * cos (Es + x))
                  HDpos He He0 HD (val_abs_max _ _ _ Hd) (numerator_quadratic Es x)).
  cbv zeta in Hq; fold (Phi e_ Es x) in Hq.
  set (q := cl _ (fst D)) in *.
  apply Rabs_le_both in Hq.
  destruct Hr as [Hr1 Hr2].
  unfold encl; cbn [fst snd]; rewrite val_max, val_min, val_opp; split.
  - apply Rmax_lub; lra.
  - apply Rmin_glb; lra.
Qed.

Lemma steps_sound (n : nat) (a b : bigZ) (c s e : I) (e_ Es : R) :
  val a <= Es <= val b ->
  encl c (cos Es) -> encl s (sin Es) ->
  encl e e_ -> 0 <= e_ ->
  forall (d d' : I) (x : R),
    steps n a b c s e d = Some d' -> encl d x -> encl d' (err_loop n e_ Es x).
Proof.
  intros HEs Hc Hs He He0; induction n as [| n IH]; intros d d' x Hst Hd.
  - apply Some_inj in Hst; subst d'; exact Hd.
  - cbn [steps] in Hst.
    destruct (step a b c s e d) as [d1 |] eqn:E1; [| discriminate].
    cbn [err_loop]; apply (IH d1 d' _ Hst).
    apply (step_sound a b c s e d d1); assumption.
Qed.

Lemma check_sound (a b e1 e2 : bigZ) (e_ Es : R) :
  check a b e1 e2 = true ->
  val a <= Es <= val b -> 0 <= Es <= PI ->
  val e1 <= e_ <= val e2 -> 0 <= e_ ->
  Rabs (err_loop 7 e_ Es (- (e_ * sin Es))) <= 5e-7.
Proof.
  unfold check; intros Hchk HEs HEs' He He0.
  set (s := sin_rng a b) in *. set (c := cos_rng a b) in *.
  assert (Hs : encl s (sin Es)) by (apply sin_rng_sound; assumption).
  assert (Hc : encl c (cos Es)) by (apply cos_rng_sound; assumption).
  assert (Hee : encl (e1, e2) e_) by exact He.
  assert (Hd0 : encl (iopp (imul (e1, e2) s)) (- (e_ * sin Es)))
    by (apply iopp_encl, imul_encl; assumption).
  destruct (steps 7 a b c s (e1, e2) (iopp (imul (e1, e2) s))) as [d |] eqn:E;
    [| discriminate].
  assert (Hd := steps_sound 7 a b c s (e1, e2) e_ Es HEs Hc Hs Hee He0 _ _ _ E Hd0).
  apply val_le in Hchk.
  eapply Rle_trans; [apply (val_abs_max _ _ _ Hd) |].
  eapply Rle_trans; [exact Hchk | apply TARGET_val].
Qed.

Lemma cover_sound (fuel : nat) :
  forall (a b e1 e2 : bigZ) (e_ Es : R),
    cover fuel a b e1 e2 = true ->
    val a <= Es <= val b -> 0 <= Es <= PI ->
    val e1 <= e_ <= val e2 -> 0 <= e_ ->
    Rabs (err_loop 7 e_ Es (- (e_ * sin Es))) <= 5e-7.
Proof.
  induction fuel as [| fuel IH]; intros a b e1 e2 e_ Es Hcov HEs HEs' He He0.
  - cbn [cover] in Hcov.
    destruct (check a b e1 e2) eqn:E; [| discriminate].
    apply (check_sound a b e1 e2); assumption.
  - cbn [cover] in Hcov.
    destruct (check a b e1 e2) eqn:E; [apply (check_sound a b e1 e2); assumption |].
    destruct (3 * (e2 - e1) <=? b - a)%bigZ.
    + apply andb_true_iff in Hcov; destruct Hcov as [H1 H2].
      destruct (Rle_dec Es (val ((a + b) / 2)%bigZ)).
      * apply (IH _ _ _ _ _ _ H1); try assumption; lra.
      * apply (IH _ _ _ _ _ _ H2); try assumption; lra.
    + apply andb_true_iff in Hcov; destruct Hcov as [H1 H2].
      destruct (Rle_dec e_ (val ((e1 + e2) / 2)%bigZ)).
      * apply (IH _ _ _ _ _ _ H1); try assumption; lra.
      * apply (IH _ _ _ _ _ _ H2); try assumption; lra.
Qed.

Lemma certificate_true : cover 20 0%bigZ PI_HI 0%bigZ E_MAX = true.
Proof. vm_compute; reflexivity. Qed.

(** After seven steps the error is below [5e-7] on the whole domain. *)
Lemma error_after_seven (e Es : R) :
  0 <= e <= 0.95 -> 0 <= Es <= PI ->
  Rabs (err_loop 7 e Es (- (e * sin Es))) <= 5e-7.
Proof.
  intros He HEs.
  apply (cover_sound 20 0%bigZ PI_HI 0%bigZ E_MAX);
    [exact certificate_true | | exact HEs | | lra].
  - rewrite val_0; assert (H := PI_HI_val); lra.
  - rewrite val_0; assert (H := E_MAX_val); lra.
Qed.

(** The residual of [solveKepler] for a mean anomaly in [[0, PI]]. *)
Lemma residual_principal (e M : R) :
  0 <= e <= 0.95 -> 0 <= M <= PI ->
  Rabs (Spec.keplerResidual M e (Model.solveKepler M e)) < 1e-6.
Proof.
  intros He HM.
  destruct (kepler_root e M HM) as (Es & HEs & Hroot).
  unfold Model.solveKepler.
  replace M with (Es + - (e * sin Es)) at 3 by lra.
  rewrite <- Hroot.
  rewrite loop_error by lra.
  eapply Rle_lt_trans; [apply residual_error; lra |].
  assert (H := error_after_seven e Es He HEs).
  assert (H0 := Rabs_pos (err_loop 7 e Es (- (e * sin Es)))).
  nra.
Qed.

Lemma residual_half_turn (e M : R) :
  0 <= e <= 0.95 -> - PI <= M <= PI ->
  Rabs (Spec.keplerResidual M e (Model.solveKepler M e)) < 1e-6.
Proof.
  intros He HM.
  destruct (Rle_dec 0 M) as [H0 | H0]; [apply residual_principal; lra |].
  assert (H := residual_principal e (- M) He).
  unfold Model.solveKepler in *.
  replace M with (- - M) at 1 2 3 by ring.
  rewrite loop_opp, residual_opp, Rabs_Ropp.
  apply H; lra.
Qed.

End CheckerSoundness.

(** C2.  For [0 <= e < 0.95] and every mean anomaly [M], the value [E]
    returned by [solveKepler M e] -- the Newton step
    [E - (E - e sin E - M) / (1 - e cos E)] applied seven times to the
    seed [M], with no convergence test -- satisfies
    [|E - e sin E - M| < 1e-6]. *)
Theorem C2_solveKepler_residual (e M : R) :
  0 <= e < 0.95 ->
  Model.solveKepler M e = Nat.iter 7 (Kepler.newton M e) M /\
  Rabs (Model.solveKepler M e - e * sin (Model.solveKepler M e) - M) < 1e-6.
Proof.
  intros He; split; [apply solveKepler_loop_iter |].
  change (Rabs (Spec.keplerResidual M e (Model.solveKepler M e)) < 1e-6).
  assert (He' : 0 <= e <= 0.95) by lra.
  destruct (reduce_turns M) as (k & M' & HM' & [HM | HM]).
  - assert (H := residual_half_turn e M' He' HM').
    unfold Model.solveKepler in *.
    rewrite HM, loop_shift, residual_shift; exact H.
  - assert (H := residual_half_turn e M' He' HM').
    unfold Model.solveKepler in *.
    rewrite HM, loop_shift, residual_shift in H; exact H.
Qed.

Lemma C2_solveKepler_residual_witness :
  Rabs (Model.solveKepler 1 0.5 - 0.5 * sin (Model.solveKepler 1 0.5) - 1) < 1e-6.
Proof. apply (C2_solveKepler_residual 0.5 1); lra. Defined.

(** * Further properties of the sources *)

(** ** Rounding, roots and logarithms *)

Section MoreJsFacts.
Import Js.

Lemma leb_spec (x y : R) : leb x y = true <-> x <= y.
Proof.
  unfold leb; destruct (Rle_dec x y); split; intros; try assumption;
    try reflexivity; try discriminate; contradiction.
Qed.

Lemma round_bounds (x : R) : x - / 2 < round x <= x + / 2.
Proof. unfold round; destruct (base_Int_part (x + / 2)) as [H1 H2]; lra. Qed.

Lemma round_le (x y : R) : x <= y -> round x <= round y.
Proof.
  intros H; unfold round; apply IZR_le.
  destruct (base_Int_part (x + / 2)) as [H1 H2].
  destruct (base_Int_part (y + / 2)) as [H3 H4].
  apply Z.lt_succ_r, lt_IZR; rewrite succ_IZR; lra.
Qed.

Lemma round_nonneg (x : R) : 0 <= x -> 0 <= round x.
Proof. intros H; rewrite <- round_0; apply round_le; exact H. Qed.

Lemma cbrt_of_cube (c : R) : 0 < c -> cbrt (c ^ 3) = c.
Proof.
  intros H; rewrite cbrt_pos_eq by (apply pow_lt; exact H).
  rewrite <- Rpower_pow by exact H.
  rewrite Rpower_mult.
  replace (INR 3 * / 3) with 1 by (simpl; field).
  apply Rpower_1; exact H.
Qed.

Lemma cbrt_mult (x y : R) : 0 < x -> 0 < y -> cbrt (x * y) = cbrt x * cbrt y.
Proof.
  intros Hx Hy; rewrite !cbrt_pos_eq by (try apply Rmult_lt_0_compat; assumption).
  symmetry; apply Rpower_mult_distr; assumption.
Qed.

Lemma cube_lt (x y : R) : 0 < x -> x < y -> x ^ 3 < y ^ 3.
Proof.
  intros Hx Hxy; assert (H2 : x * x < y * y) by nra.
  simpl; nra.
Qed.

(** The cube root passes a bound exactly when the argument passes the cube
    of the bound. *)
Lemma cbrt_gt_iff (x c : R) : 0 < x -> 0 < c -> (c < cbrt x <-> c ^ 3 < x).
Proof.
  intros Hx Hc; split; intros H.
  - rewrite <- (cbrt_cube x Hx); apply cube_lt; assumption.
  - rewrite <- (cbrt_of_cube c Hc); apply cbrt_lt; [apply pow_lt |]; assumption.
Qed.

End MoreJsFacts.

(** ** The impact calculator: outcomes, thresholds and scaling *)

Section MoreImpactFacts.
Import Js ImpactCalculator.

Lemma kineticEnergy_lt (d s dia d' s' dia' : R) :
  0 < d -> 0 < s -> 0 < dia ->
  (d < d' /\ s = s' /\ dia = dia') \/
  (d = d' /\ s < s' /\ dia = dia') \/
  (d = d' /\ s = s' /\ dia < dia') ->
  PI / 12 * d * dia ^ 3 * s ^ 2 < PI / 12 * d' * dia' ^ 3 * s' ^ 2.
Proof.
  intros Hd Hs Hdia Hcase.
  assert (HPI := PI_RGT_0).
  assert (H3 : 0 < dia ^ 3) by (apply pow_lt; exact Hdia).
  assert (H2 : 0 < s ^ 2) by (apply pow_lt; exact Hs).
  destruct Hcase as [(Hlt & <- & <-) | [(<- & Hlt & <-) | (<- & <- & Hlt)]].
  - apply Rmult_lt_compat_r; [exact H2 |].
    apply Rmult_lt_compat_r; [exact H3 |].
    apply Rmult_lt_compat_l; lra.
  - apply Rmult_lt_compat_l.
    + apply Rmult_lt_0_compat; [apply Rmult_lt_0_compat; lra | exact H3].
    + simpl; nra.
  - apply Rmult_lt_compat_r; [exact H2 |].
    apply Rmult_lt_compat_l; [apply Rmult_lt_0_compat; lra |].
    apply cube_lt; assumption.
Qed.

(** The class written by [calculateImpactRadius]. *)
Lemma calculateImpactRadius_class (density speed diameter : value) r :
  calculateImpactRadius density speed diameter = Ok r ->
  damage_classification r =
    if gtb (severe_radius_km r) 5 then "Severe"%string
    else if gtb (moderate_radius_km r) 2 then "Moderate"%string
    else "Light"%string.
Proof.
  unfold calculateImpactRadius.
  destruct (ToNumber density) as [| d]; [discriminate |].
  destruct (ToNumber speed) as [| s]; [discriminate |].
  destruct (ToNumber diameter) as [| dia]; [discriminate |].
  destruct (leb d 0 || leb s 0 || leb dia 0); [discriminate |].
  intros H; injection H as <-; reflexivity.
Qed.

Lemma not_positive_spec (n : num) :
  isNaN n || num_leb n 0 = true <-> not_positive n.
Proof.
  unfold not_positive; destruct n as [| x]; cbn.
  - split; [intros _; left; reflexivity | reflexivity].
  - rewrite leb_spec; split.
    + intros H; right; exists x; split; [reflexivity | exact H].
    + intros [H | (y & Hy & Hle)]; [discriminate | congruence].
Qed.

Lemma not_positive_Num (x : R) : not_positive (Num x) <-> x <= 0.
Proof.
  unfold not_positive; split.
  - intros [H | (y & Hy & Hle)]; [discriminate | congruence].
  - intros H; right; exists x; split; [reflexivity | exact H].
Qed.

(** The record returned on inputs that convert to positive numbers. *)
Lemma calculateCraterDimensions_ok (diameter speed density : value) (dia s d : R) :
  ToNumber diameter = Num dia -> ToNumber speed = Num s ->
  ToNumber density = Num d ->
  0 < dia -> 0 < s -> 0 < d ->
  calculateCraterDimensions diameter speed density =
  Ok {| crater_diameter_m :=
          1.2 * Rpower (PI / 12 * d * dia ^ 3 * s ^ 2 / 1e12) 0.294;
        crater_diameter_km :=
          1.2 * Rpower (PI / 12 * d * dia ^ 3 * s ^ 2 / 1e12) 0.294 / 1000;
        crater_depth_m :=
          1.2 * Rpower (PI / 12 * d * dia ^ 3 * s ^ 2 / 1e12) 0.294 * 0.2;
        crater_depth_km :=
          1.2 * Rpower (PI / 12 * d * dia ^ 3 * s ^ 2 / 1e12) 0.294 * 0.2 / 1000;
        crater_volume_m3 :=
          PI * (1.2 * Rpower (PI / 12 * d * dia ^ 3 * s ^ 2 / 1e12) 0.294 / 2) ^ 2 *
          (1.2 * Rpower (PI / 12 * d * dia ^ 3 * s ^ 2 / 1e12) 0.294 * 0.2);
        crater_kinetic_energy_joules := PI / 12 * d * dia ^ 3 * s ^ 2 |}.
Proof.
  intros Edia Es Ed Hdia Hs Hd.
  unfold calculateCraterDimensions; cbn [map]; rewrite Edia, Es, Ed.
  cbn [existsb isNaN num_leb orb].
  rewrite !(leb_false _ 0) by assumption.
  reflexivity.
Qed.

(** The validation of [calculateCraterDimensions]. *)
Lemma calculateCraterDimensions_validation (diameter speed density : value) :
  (let numericInputs := map ToNumber [diameter; speed; density] in
   existsb isNaN numericInputs || existsb (fun x => num_leb x 0) numericInputs) = true <->
  not_positive (ToNumber diameter) \/ not_positive (ToNumber speed) \/
  not_positive (ToNumber density).
Proof.
  cbv zeta; cbn [map existsb].
  rewrite <- !not_positive_spec.
  destruct (isNaN (ToNumber diameter)), (isNaN (ToNumber speed)),
    (isNaN (ToNumber density)), (num_leb (ToNumber diameter) 0),
    (num_leb (ToNumber speed) 0), (num_leb (ToNumber density) 0); cbn;
    intuition discriminate.
Qed.

Lemma calculateCraterDimensions_throws (diameter speed density : value) msg :
  calculateCraterDimensions diameter speed density = Throw msg ->
  msg = "All inputs must be positive numeric values."%string /\
  (not_positive (ToNumber diameter) \/ not_positive (ToNumber speed) \/
   not_positive (ToNumber density)).
Proof.
  rewrite <- calculateCraterDimensions_validation.
  unfold calculateCraterDimensions; cbv zeta.
  destruct (existsb isNaN _ || existsb _ _) eqn:Hv.
  - intros H; injection H as <-; split; reflexivity.
  - revert Hv; cbn [map].
    destruct (ToNumber diameter); [discriminate |].
    destruct (ToNumber speed); [discriminate |].
    destruct (ToNumber density); [cbn; discriminate |].
    discriminate.
Qed.

Lemma calculateCraterDimensions_ok_inv (diameter speed density : value) c :
  calculateCraterDimensions diameter speed density = Ok c ->
  exists dia s d,
    ToNumber diameter = Num dia /\ ToNumber speed = Num s /\
    ToNumber density = Num d /\ 0 < dia /\ 0 < s /\ 0 < d.
Proof.
  unfold calculateCraterDimensions; cbv zeta; cbn [map existsb isNaN].
  destruct (ToNumber diameter) as [| dia]; [discriminate |].
  destruct (ToNumber speed) as [| s]; [discriminate |].
  destruct (ToNumber density) as [| d]; [cbn; discriminate |].
  cbn [isNaN num_leb orb]; unfold leb.
  destruct (Rle_dec dia 0); [discriminate |].
  destruct (Rle_dec s 0); [discriminate |].
  destruct (Rle_dec d 0); [discriminate |].
  intros _; exists dia, s, d; repeat split; lra.
Qed.

End MoreImpactFacts.

(** X1.  [calculateImpactRadius] checks for [NaN] before it checks signs:
    it throws "All inputs must be numeric values." exactly when one
    argument converts to [NaN], throws "Density, Speed, and Diameter must
    be positive values." exactly when all three convert to numbers and one
    is zero or negative, and returns exactly when all three convert to
    positive numbers. *)
Theorem X1_calculateImpactRadius_outcomes (density speed diameter : Js.value) :
  (ImpactCalculator.calculateImpactRadius density speed diameter =
     Throw "All inputs must be numeric values." <->
   Js.ToNumber density = Js.NaN \/ Js.ToNumber speed = Js.NaN \/
   Js.ToNumber diameter = Js.NaN) /\
  (ImpactCalculator.calculateImpactRadius density speed diameter =
     Throw "Density, Speed, and Diameter must be positive values." <->
   exists d s dia,
     Js.ToNumber density = Js.Num d /\ Js.ToNumber speed = Js.Num s /\
     Js.ToNumber diameter = Js.Num dia /\ (d <= 0 \/ s <= 0 \/ dia <= 0)) /\
  ((exists r, ImpactCalculator.calculateImpactRadius density speed diameter = Ok r) <->
   exists d s dia,
     Js.ToNumber density = Js.Num d /\ Js.ToNumber speed = Js.Num s /\
     Js.ToNumber diameter = Js.Num dia /\ 0 < d /\ 0 < s /\ 0 < dia).
Proof.
  unfold ImpactCalculator.calculateImpactRadius.
  destruct (Js.ToNumber density) as [| d].
  { split; [| split].
    - split; [intros _; left; reflexivity | reflexivity].
    - split; [discriminate | intros (? & ? & ? & H & _); discriminate].
    - split; [intros (r & H); discriminate | intros (? & ? & ? & H & _); discriminate]. }
  destruct (Js.ToNumber speed) as [| s].
  { split; [| split].
    - split; [intros _; right; left; reflexivity | reflexivity].
    - split; [discriminate | intros (? & ? & ? & _ & H & _); discriminate].
    - split; [intros (r & H); discriminate | intros (? & ? & ? & _ & H & _); discriminate]. }
  destruct (Js.ToNumber diameter) as [| dia].
  { split; [| split].
    - split; [intros _; right; right; reflexivity | reflexivity].
    - split; [discriminate | intros (? & ? & ? & _ & _ & H & _); discriminate].
    - split; [intros (r & H); discriminate
             | intros (? & ? & ? & _ & _ & H & _); discriminate]. }
  unfold Js.leb.
  destruct (Rle_dec d 0) as [Hd | Hd]; [| destruct (Rle_dec s 0) as [Hs | Hs];
    [| destruct (Rle_dec dia 0) as [Hdia | Hdia]]]; cbn [orb].
  1-3: split; [| split];
    [ split; [discriminate | intros [H | [H | H]]; discriminate]
    | split; [intros _; exists d, s, dia; repeat split; tauto | reflexivity]
    | split; [intros (r & H); discriminate
             | intros (d' & s' & dia' & E1 & E2 & E3 & H1 & H2 & H3);
               injection E1 as <-; injection E2 as <-; injection E3 as <-; lra] ].
  split; [| split].
  - split; [discriminate | intros [H | [H | H]]; discriminate].
  - split; [discriminate |].
    intros (d' & s' & dia' & E1 & E2 & E3 & H).
    injection E1 as <-; injection E2 as <-; injection E3 as <-; lra.
  - split; [intros _; exists d, s, dia; repeat split; lra |].
    intros _; eexists; reflexivity.
Qed.

(** X2.  The damage class of [calculateImpactRadius] is decided by the
    kinetic energy [E] alone: "Light" up to [(2000 / 4.0e-4)^3] J (the
    energy at which the moderate radius reaches 2 km, 1.25e20 J),
    "Moderate" above that and up to [(5000 / 1.8e-4)^3] J (the energy at
    which the severe radius reaches 5 km), "Severe" above. *)
Theorem X2_damage_class_thresholds (d s dia : R) :
  0 < d -> 0 < s -> 0 < dia ->
  exists r,
    ImpactCalculator.calculateImpactRadius
      (Js.Number (Js.Num d)) (Js.Number (Js.Num s)) (Js.Number (Js.Num dia)) = Ok r /\
    let E := ImpactCalculator.kinetic_energy_joules r in
    (2000 / 4.0e-4) ^ 3 = 1.25e20 /\
    (ImpactCalculator.damage_classification r = "Light"%string <->
     E <= (2000 / 4.0e-4) ^ 3) /\
    (ImpactCalculator.damage_classification r = "Moderate"%string <->
     (2000 / 4.0e-4) ^ 3 < E <= (5000 / 1.8e-4) ^ 3) /\
    (ImpactCalculator.damage_classification r = "Severe"%string <->
     (5000 / 1.8e-4) ^ 3 < E).
Proof.
  intros Hd Hs Hdia.
  destruct (calculateImpactRadius_ok (Js.Number (Js.Num d)) (Js.Number (Js.Num s))
              (Js.Number (Js.Num dia)) d s dia eq_refl eq_refl eq_refl Hd Hs Hdia)
    as (r & Hr & HE & _ & Hsev & Hmod & _).
  exists r; split; [exact Hr |]; cbv zeta.
  assert (HEpos : 0 < ImpactCalculator.kinetic_energy_joules r)
    by (rewrite HE; apply kineticEnergy_pos; assumption).
  set (E := ImpactCalculator.kinetic_energy_joules r) in *.
  assert (Hlt : (2000 / 4.0e-4) ^ 3 < (5000 / 1.8e-4) ^ 3)
    by (apply cube_lt; lra).
  assert (Hm : 2 < ImpactCalculator.moderate_radius_km r <-> (2000 / 4.0e-4) ^ 3 < E).
  { rewrite <- (cbrt_gt_iff E (2000 / 4.0e-4)) by lra.
    rewrite Hmod; unfold ImpactCalculator.moderate_k; split; lra. }
  assert (Hv : 5 < ImpactCalculator.severe_radius_km r <-> (5000 / 1.8e-4) ^ 3 < E).
  { rewrite <- (cbrt_gt_iff E (5000 / 1.8e-4)) by lra.
    rewrite Hsev; unfold ImpactCalculator.severe_k; split; lra. }
  split; [lra |].
  rewrite (calculateImpactRadius_class _ _ _ _ Hr); unfold Js.gtb, Js.ltb.
  destruct (Rlt_dec 5 (ImpactCalculator.severe_radius_km r)) as [H5 | H5];
    [| destruct (Rlt_dec 2 (ImpactCalculator.moderate_radius_km r)) as [H2 | H2]].
  - apply Hv in H5.
    split; [split; [discriminate | intros; exfalso; lra] |].
    split; [split; [discriminate | intros; exfalso; lra] |].
    split; [intros _; exact H5 | reflexivity].
  - assert (H5' : ~ (5000 / 1.8e-4) ^ 3 < E) by (intros H; apply H5, Hv, H).
    apply Hm in H2.
    split; [split; [discriminate | intros; exfalso; lra] |].
    split; [split; [intros _; lra | reflexivity] |].
    split; [discriminate | intros H; contradiction].
  - assert (H2' : ~ (2000 / 4.0e-4) ^ 3 < E) by (intros H; apply H2, Hm, H).
    split; [split; [intros _; lra | reflexivity] |].
    split; [split; [discriminate | intros; exfalso; lra] |].
    split; [discriminate | intros; exfalso; lra].
Qed.

Lemma X2_damage_class_thresholds_witness :
  exists r,
    ImpactCalculator.calculateImpactRadius
      (Js.Number (Js.Num 3000)) (Js.Number (Js.Num 20000)) (Js.Number (Js.Num 100)) = Ok r /\
    (ImpactCalculator.damage_classification r = "Light"%string <->
     ImpactCalculator.kinetic_energy_joules r <= (2000 / 4.0e-4) ^ 3).
Proof.
  destruct (X2_damage_class_thresholds 3000 20000 100) as (r & Hr & _ & H & _);
    [lra | lra | lra |].
  exists r; split; assumption.
Defined.

(** X3.  The radii of [calculateImpactRadius] are proportional to the
    diameter: with density and speed kept, a diameter [k] times larger
    gives an energy [k^3] times larger and each radius [k] times larger. *)
Theorem X3_radii_proportional_to_diameter (d s dia k : R) :
  0 < d -> 0 < s -> 0 < dia -> 0 < k ->
  exists r r',
    ImpactCalculator.calculateImpactRadius
      (Js.Number (Js.Num d)) (Js.Number (Js.Num s)) (Js.Number (Js.Num dia)) = Ok r /\
    ImpactCalculator.calculateImpactRadius
      (Js.Number (Js.Num d)) (Js.Number (Js.Num s)) (Js.Number (Js.Num (k * dia))) = Ok r' /\
    ImpactCalculator.kinetic_energy_joules r' =
      k ^ 3 * ImpactCalculator.kinetic_energy_joules r /\
    ImpactCalculator.severe_radius_km r' = k * ImpactCalculator.severe_radius_km r /\
    ImpactCalculator.moderate_radius_km r' = k * ImpactCalculator.moderate_radius_km r /\
    ImpactCalculator.light_radius_km r' = k * ImpactCalculator.light_radius_km r.
Proof.
  intros Hd Hs Hdia Hk.
  assert (Hkdia : 0 < k * dia) by (apply Rmult_lt_0_compat; assumption).
  destruct (calculateImpactRadius_ok (Js.Number (Js.Num d)) (Js.Number (Js.Num s))
              (Js.Number (Js.Num dia)) d s dia eq_refl eq_refl eq_refl Hd Hs Hdia)
    as (r & Hr & HE & _ & Hsev & Hmod & Hlight).
  destruct (calculateImpactRadius_ok (Js.Number (Js.Num d)) (Js.Number (Js.Num s))
              (Js.Number (Js.Num (k * dia))) d s (k * dia) eq_refl eq_refl eq_refl
              Hd Hs Hkdia)
    as (r' & Hr' & HE' & _ & Hsev' & Hmod' & Hlight').
  exists r, r'; split; [exact Hr |]; split; [exact Hr' |].
  assert (HEpos : 0 < ImpactCalculator.kinetic_energy_joules r)
    by (rewrite HE; apply kineticEnergy_pos; assumption).
  assert (HEk : ImpactCalculator.kinetic_energy_joules r' =
                k ^ 3 * ImpactCalculator.kinetic_energy_joules r)
    by (rewrite HE, HE'; ring).
  assert (Hc : Js.cbrt (ImpactCalculator.kinetic_energy_joules r') =
               k * Js.cbrt (ImpactCalculator.kinetic_energy_joules r)).
  { rewrite HEk, cbrt_mult, cbrt_of_cube by (try apply pow_lt; assumption).
    reflexivity. }
  split; [exact HEk |].
  rewrite Hsev', Hmod', Hlight', Hsev, Hmod, Hlight, Hc.
  repeat split; unfold Rdiv; ring.
Qed.

Lemma X3_radii_proportional_to_diameter_witness :
  exists r r',
    ImpactCalculator.calculateImpactRadius
      (Js.Number (Js.Num 3000)) (Js.Number (Js.Num 20000)) (Js.Number (Js.Num 100)) = Ok r /\
    ImpactCalculator.calculateImpactRadius
      (Js.Number (Js.Num 3000)) (Js.Number (Js.Num 20000))
      (Js.Number (Js.Num (2 * 100))) = Ok r' /\
    ImpactCalculator.severe_radius_km r' = 2 * ImpactCalculator.severe_radius_km r.
Proof.
  destruct (X3_radii_proportional_to_diameter 3000 20000 100 2)
    as (r & r' & Hr & Hr' & _ & H & _); [lra | lra | lra | lra |].
  exists r, r'; repeat split; assumption.
Defined.

(** X4.  [calculateCraterDimensions] has one error message, thrown exactly
    when one argument converts to [NaN], zero or a negative number.  On
    arguments that convert to positive numbers it returns a crater of
    diameter [1.2 (E / 1e12)^0.294] m for the kinetic energy
    [E = (pi/12) rho d^3 v^2], which is positive, of depth a fifth of the
    diameter and of volume [pi D^3 / 20]; the kilometre fields are the metre
    fields over 1000. *)
Theorem X4_calculateCraterDimensions_outcomes (diameter speed density : Js.value) :
  (ImpactCalculator.calculateCraterDimensions diameter speed density =
     Throw "All inputs must be positive numeric values." <->
   ImpactCalculator.not_positive (Js.ToNumber diameter) \/
   ImpactCalculator.not_positive (Js.ToNumber speed) \/
   ImpactCalculator.not_positive (Js.ToNumber density)) /\
  (forall msg,
     ImpactCalculator.calculateCraterDimensions diameter speed density = Throw msg ->
     msg = "All inputs must be positive numeric values."%string) /\
  (forall dia s d,
     Js.ToNumber diameter = Js.Num dia -> Js.ToNumber speed = Js.Num s ->
     Js.ToNumber density = Js.Num d -> 0 < dia -> 0 < s -> 0 < d ->
     exists c,
       ImpactCalculator.calculateCraterDimensions diameter speed density = Ok c /\
       let D := ImpactCalculator.crater_diameter_m c in
       ImpactCalculator.crater_kinetic_energy_joules c =
         PI / 12 * d * dia ^ 3 * s ^ 2 /\
       D = 1.2 * Rpower (ImpactCalculator.crater_kinetic_energy_joules c / 1e12) 0.294 /\
       0 < D /\
       ImpactCalculator.crater_depth_m c = D / 5 /\
       ImpactCalculator.crater_volume_m3 c = PI * D ^ 3 / 20 /\
       ImpactCalculator.crater_diameter_km c = D / 1000 /\
       ImpactCalculator.crater_depth_km c = ImpactCalculator.crater_depth_m c / 1000).
Proof.
  split; [| split].
  - split.
    + intros H; apply (calculateCraterDimensions_throws _ _ _ _ H).
    + intros H; apply calculateCraterDimensions_validation in H.
      unfold ImpactCalculator.calculateCraterDimensions; cbv zeta in H |- *.
      rewrite H; reflexivity.
  - intros msg H; apply (calculateCraterDimensions_throws _ _ _ _ H).
  - intros dia s d Edia Es Ed Hdia Hs Hd.
    eexists; split;
      [apply (calculateCraterDimensions_ok _ _ _ dia s d); assumption |].
    cbv zeta;
      cbn [ImpactCalculator.crater_diameter_m ImpactCalculator.crater_diameter_km
             ImpactCalculator.crater_depth_m ImpactCalculator.crater_depth_km
             ImpactCalculator.crater_volume_m3
             ImpactCalculator.crater_kinetic_energy_joules].
    set (P := Rpower _ 0.294).
    assert (HP : 0 < P) by apply exp_pos.
    repeat split; try reflexivity; lra.
Qed.

(** X5.  The crater and the radius calculators take their arguments in
    opposite orders, [(diameter, speed, density)] and
    [(density, speed, diameter)].  Called with the same three quantities
    they accept the same inputs, and they compute the same kinetic
    energy. *)
Theorem X5_crater_energy_is_impact_energy (density speed diameter : Js.value) :
  ((exists r, ImpactCalculator.calculateImpactRadius density speed diameter = Ok r) <->
   (exists c, ImpactCalculator.calculateCraterDimensions diameter speed density = Ok c)) /\
  (forall r c,
     ImpactCalculator.calculateImpactRadius density speed diameter = Ok r ->
     ImpactCalculator.calculateCraterDimensions diameter speed density = Ok c ->
     ImpactCalculator.crater_kinetic_energy_joules c =
       ImpactCalculator.kinetic_energy_joules r /\
     ImpactCalculator.crater_diameter_m c =
       1.2 * Rpower (ImpactCalculator.kinetic_energy_joules r / 1e12) 0.294).
Proof.
  split.
  - split.
    + intros (r & Hr).
      destruct (calculateImpactRadius_ok_inv _ _ _ _ Hr)
        as (d & s & dia & Ed & Es & Edia & Hd & Hs & Hdia).
      eexists; apply (calculateCraterDimensions_ok _ _ _ dia s d); assumption.
    + intros (c & Hc).
      destruct (calculateCraterDimensions_ok_inv _ _ _ _ Hc)
        as (dia & s & d & Edia & Es & Ed & Hdia & Hs & Hd).
      destruct (calculateImpactRadius_ok _ _ _ d s dia Ed Es Edia Hd Hs Hdia)
        as (r & Hr & _).
      exists r; exact Hr.
  - intros r c Hr Hc.
    destruct (calculateImpactRadius_ok_inv _ _ _ _ Hr)
      as (d & s & dia & Ed & Es & Edia & Hd & Hs & Hdia).
    destruct (calculateImpactRadius_ok _ _ _ d s dia Ed Es Edia Hd Hs Hdia)
      as (r0 & Hr0 & HE & _).
    rewrite Hr in Hr0; injection Hr0 as <-.
    rewrite (calculateCraterDimensions_ok _ _ _ dia s d Edia Es Ed Hdia Hs Hd) in Hc.
    injection Hc as <-.
    cbn [ImpactCalculator.crater_kinetic_energy_joules ImpactCalculator.crater_diameter_m].
    rewrite HE; split; reflexivity.
Qed.

(** X6.  Over positive inputs the crater diameter, depth and volume
    returned by [calculateCraterDimensions] strictly increase when one of
    diameter, speed, density increases and the other two are kept. *)
Theorem X6_crater_strictly_increasing (dia s d dia' s' d' : R) :
  0 < dia -> 0 < s -> 0 < d ->
  (d < d' /\ s = s' /\ dia = dia') \/
  (d = d' /\ s < s' /\ dia = dia') \/
  (d = d' /\ s = s' /\ dia < dia') ->
  exists c c',
    ImpactCalculator.calculateCraterDimensions
      (Js.Number (Js.Num dia)) (Js.Number (Js.Num s)) (Js.Number (Js.Num d)) = Ok c /\
    ImpactCalculator.calculateCraterDimensions
      (Js.Number (Js.Num dia')) (Js.Number (Js.Num s')) (Js.Number (Js.Num d')) = Ok c' /\
    ImpactCalculator.crater_diameter_m c < ImpactCalculator.crater_diameter_m c' /\
    ImpactCalculator.crater_depth_m c < ImpactCalculator.crater_depth_m c' /\
    ImpactCalculator.crater_volume_m3 c < ImpactCalculator.crater_volume_m3 c'.
Proof.
  intros Hdia Hs Hd Hcase.
  assert (Hd' : 0 < d') by (destruct Hcase as [H | [H | H]]; lra).
  assert (Hs' : 0 < s') by (destruct Hcase as [H | [H | H]]; lra).
  assert (Hdia' : 0 < dia') by (destruct Hcase as [H | [H | H]]; lra).
  eexists; eexists.
  split; [apply (calculateCraterDimensions_ok _ _ _ dia s d); try reflexivity; assumption |].
  split; [apply (calculateCraterDimensions_ok _ _ _ dia' s' d'); try reflexivity; assumption |].
  cbn [ImpactCalculator.crater_diameter_m ImpactCalculator.crater_depth_m
         ImpactCalculator.crater_volume_m3].
  assert (HE := kineticEnergy_pos d s dia Hd Hs Hdia).
  assert (Hlt := kineticEnergy_lt d s dia d' s' dia' Hd Hs Hdia Hcase).
  set (E := PI / 12 * d * dia ^ 3 * s ^ 2) in *.
  set (E' := PI / 12 * d' * dia' ^ 3 * s' ^ 2) in *.
  assert (HP : Rpower (E / 1e12) 0.294 < Rpower (E' / 1e12) 0.294)
    by (apply Rlt_Rpower_l; lra).
  assert (H0 : 0 < Rpower (E / 1e12) 0.294) by apply exp_pos.
  set (P := Rpower (E / 1e12) 0.294) in *.
  set (P' := Rpower (E' / 1e12) 0.294) in *.
  assert (HPI := PI_RGT_0).
  split; [lra |]; split; [lra |].
  assert (H3 : (1.2 * P) ^ 3 < (1.2 * P') ^ 3) by (apply cube_lt; lra).
  replace (PI * (1.2 * P / 2) ^ 2 * (1.2 * P * 0.2)) with (PI / 20 * (1.2 * P) ^ 3)
    by lra.
  replace (PI * (1.2 * P' / 2) ^ 2 * (1.2 * P' * 0.2)) with (PI / 20 * (1.2 * P') ^ 3)
    by lra.
  apply Rmult_lt_compat_l; lra.
Qed.

Lemma X6_crater_strictly_increasing_witness :
  exists c c',
    ImpactCalculator.calculateCraterDimensions
      (Js.Number (Js.Num 100)) (Js.Number (Js.Num 20000)) (Js.Number (Js.Num 3000)) = Ok c /\
    ImpactCalculator.calculateCraterDimensions
      (Js.Number (Js.Num 200)) (Js.Number (Js.Num 20000)) (Js.Number (Js.Num 3000)) = Ok c' /\
    ImpactCalculator.crater_diameter_m c < ImpactCalculator.crater_diameter_m c'.
Proof.
  destruct (X6_crater_strictly_increasing 100 20000 3000 200 20000 3000)
    as (c & c' & Hc & Hc' & H & _);
    [lra | lra | lra | right; right; repeat split; lra |].
  exists c, c'; repeat split; assumption.
Defined.

(** ** Casualties and the combined assessment *)

Section MoreCasualtyFacts.
Import Js ImpactCalculator.

Lemma round_whole_nonneg (x : R) :
  0 <= x -> exists k : Z, (0 <= k)%Z /\ round x = IZR k.
Proof.
  intros H; exists (Int_part (x + / 2)); split; [| reflexivity].
  apply le_IZR; exact (round_nonneg x H).
Qed.

(** A whole number strictly between [-2] and [2] is at most [1] in
    absolute value. *)
Lemma whole_within_one (k : Z) : -2 < IZR k < 2 -> Rabs (IZR k) <= 1.
Proof.
  intros [H1 H2].
  assert (Hk : (-2 < k < 2)%Z) by (split; apply lt_IZR; assumption).
  assert (Hk' : (-1 <= k <= 1)%Z) by lia.
  destruct Hk' as [Ha Hb]; apply IZR_le in Ha, Hb.
  apply Rabs_le; lra.
Qed.

Lemma casualty_term_nonneg (r p c : R) :
  0 <= r -> 0 <= p -> 0 <= c -> 0 <= PI * r * r * p * c.
Proof.
  intros Hr Hp Hc; assert (HPI := PI_RGT_0).
  apply Rmult_le_pos; [| exact Hc].
  apply Rmult_le_pos; [| exact Hp].
  assert (H : 0 <= r * r) by (apply Rmult_le_pos; assumption).
  rewrite Rmult_assoc; apply Rmult_le_pos; lra.
Qed.

Lemma casualty_term_le (r r' p p' c : R) :
  0 <= r <= r' -> 0 <= p <= p' -> 0 <= c ->
  PI * r * r * p * c <= PI * r' * r' * p' * c.
Proof.
  intros Hr Hp Hc; assert (HPI := PI_RGT_0).
  apply Rmult_le_compat_r; [exact Hc |].
  assert (Hrr : r * r <= r' * r') by nra.
  assert (H0 : 0 <= r * r) by nra.
  replace (PI * r * r * p) with (PI * (r * r * p)) by ring.
  replace (PI * r' * r' * p') with (PI * (r' * r' * p')) by ring.
  apply Rmult_le_compat_l; [lra |].
  apply Rmult_le_compat; lra.
Qed.

End MoreCasualtyFacts.

(** X7.  On non-negative inputs every count returned by
    [estimateCasualties] is a non-negative whole number.  The total is the
    rounded sum of the three unrounded zone estimates, not the sum of the
    three rounded counts: the two differ by at most one. *)
Theorem X7_casualty_counts (severe_r moderate_r light_r pop_density : R) :
  0 <= severe_r -> 0 <= moderate_r -> 0 <= light_r -> 0 <= pop_density ->
  exists r,
    ImpactCalculator.estimateCasualties
      (Js.Number (Js.Num severe_r)) (Js.Number (Js.Num moderate_r))
      (Js.Number (Js.Num light_r)) (Js.Number (Js.Num pop_density)) = Ok r /\
    (exists ks km kl kt : Z,
       (0 <= ks)%Z /\ (0 <= km)%Z /\ (0 <= kl)%Z /\ (0 <= kt)%Z /\
       ImpactCalculator.severe_casualties r = IZR ks /\
       ImpactCalculator.moderate_casualties r = IZR km /\
       ImpactCalculator.light_casualties r = IZR kl /\
       ImpactCalculator.total_casualties r = IZR kt) /\
    ImpactCalculator.total_casualties r =
      Js.round (PI * severe_r * severe_r * pop_density * 0.9 +
                PI * moderate_r * moderate_r * pop_density * 0.3 +
                PI * light_r * light_r * pop_density * 0.05) /\
    Rabs (ImpactCalculator.total_casualties r -
          (ImpactCalculator.severe_casualties r +
           ImpactCalculator.moderate_casualties r +
           ImpactCalculator.light_casualties r)) <= 1.
Proof.
  intros Hs Hm Hl Hp.
  eexists; split;
    [apply (estimateCasualties_ok _ _ _ _ severe_r moderate_r light_r pop_density);
       try reflexivity; assumption |].
  cbn [ImpactCalculator.severe_casualties ImpactCalculator.moderate_casualties
         ImpactCalculator.light_casualties ImpactCalculator.total_casualties].
  assert (H1 := casualty_term_nonneg severe_r pop_density 0.9 Hs Hp ltac:(lra)).
  assert (H2 := casualty_term_nonneg moderate_r pop_density 0.3 Hm Hp ltac:(lra)).
  assert (H3 := casualty_term_nonneg light_r pop_density 0.05 Hl Hp ltac:(lra)).
  set (xs := PI * severe_r * severe_r * pop_density * 0.9) in *.
  set (xm := PI * moderate_r * moderate_r * pop_density * 0.3) in *.
  set (xl := PI * light_r * light_r * pop_density * 0.05) in *.
  destruct (round_whole_nonneg xs H1) as (ks & Hks & Es).
  destruct (round_whole_nonneg xm H2) as (km & Hkm & Em).
  destruct (round_whole_nonneg xl H3) as (kl & Hkl & El).
  destruct (round_whole_nonneg (xs + xm + xl)) as (kt & Hkt & Et); [lra |].
  split; [exists ks, km, kl, kt; repeat split; assumption |].
  split; [reflexivity |].
  assert (Bs := round_bounds xs). assert (Bm := round_bounds xm).
  assert (Bl := round_bounds xl). assert (Bt := round_bounds (xs + xm + xl)).
  rewrite Es, Em, El, Et in *.
  replace (IZR kt - (IZR ks + IZR km + IZR kl)) with (IZR (kt - ks - km - kl))
    by (rewrite !minus_IZR; ring).
  apply whole_within_one; rewrite !minus_IZR; lra.
Qed.

Lemma X7_casualty_counts_witness :
  exists r,
    ImpactCalculator.estimateCasualties
      (Js.Number (Js.Num 1)) (Js.Number (Js.Num 2))
      (Js.Number (Js.Num 4)) (Js.Number (Js.Num 100)) = Ok r /\
    Rabs (ImpactCalculator.total_casualties r -
          (ImpactCalculator.severe_casualties r +
           ImpactCalculator.moderate_casualties r +
           ImpactCalculator.light_casualties r)) <= 1.
Proof.
  destruct (X7_casualty_counts 1 2 4 100) as (r & Hr & _ & _ & H);
    [lra | lra | lra | lra |].
  exists r; split; assumption.
Defined.

(** X8.  [estimateCasualties] never reports fewer casualties for a larger
    zone or a denser population: over non-negative inputs each count and
    the total are non-decreasing in each radius and in the population
    density. *)
Theorem X8_casualties_monotone
    (severe_r moderate_r light_r pop_density severe_r' moderate_r' light_r' pop_density' : R) :
  0 <= severe_r <= severe_r' -> 0 <= moderate_r <= moderate_r' ->
  0 <= light_r <= light_r' -> 0 <= pop_density <= pop_density' ->
  exists r r',
    ImpactCalculator.estimateCasualties
      (Js.Number (Js.Num severe_r)) (Js.Number (Js.Num moderate_r))
      (Js.Number (Js.Num light_r)) (Js.Number (Js.Num pop_density)) = Ok r /\
    ImpactCalculator.estimateCasualties
      (Js.Number (Js.Num severe_r')) (Js.Number (Js.Num moderate_r'))
      (Js.Number (Js.Num light_r')) (Js.Number (Js.Num pop_density')) = Ok r' /\
    ImpactCalculator.severe_casualties r <= ImpactCalculator.severe_casualties r' /\
    ImpactCalculator.moderate_casualties r <= ImpactCalculator.moderate_casualties r' /\
    ImpactCalculator.light_casualties r <= ImpactCalculator.light_casualties r' /\
    ImpactCalculator.total_casualties r <= ImpactCalculator.total_casualties r'.
Proof.
  intros Hs Hm Hl Hp.
  eexists; eexists.
  split;
    [apply (estimateCasualties_ok _ _ _ _ severe_r moderate_r light_r pop_density);
       try reflexivity; lra |].
  split;
    [apply (estimateCasualties_ok _ _ _ _ severe_r' moderate_r' light_r' pop_density');
       try reflexivity; lra |].
  cbn [ImpactCalculator.severe_casualties ImpactCalculator.moderate_casualties
         ImpactCalculator.light_casualties ImpactCalculator.total_casualties].
  assert (H1 := casualty_term_le severe_r severe_r' pop_density pop_density' 0.9
                  Hs Hp ltac:(lra)).
  assert (H2 := casualty_term_le moderate_r moderate_r' pop_density pop_density' 0.3
                  Hm Hp ltac:(lra)).
  assert (H3 := casualty_term_le light_r light_r' pop_density pop_density' 0.05
                  Hl Hp ltac:(lra)).
  repeat split; apply round_le; lra.
Qed.

Lemma X8_casualties_monotone_witness :
  exists r r',
    ImpactCalculator.estimateCasualties
      (Js.Number (Js.Num 1)) (Js.Number (Js.Num 2))
      (Js.Number (Js.Num 4)) (Js.Number (Js.Num 100)) = Ok r /\
    ImpactCalculator.estimateCasualties
      (Js.Number (Js.Num 1)) (Js.Number (Js.Num 2))
      (Js.Number (Js.Num 4)) (Js.Number (Js.Num 250)) = Ok r' /\
    ImpactCalculator.total_casualties r <= ImpactCalculator.total_casualties r'.
Proof.
  destruct (X8_casualties_monotone 1 2 4 100 1 2 4 250)
    as (r & r' & Hr & Hr' & _ & _ & _ & H); [lra | lra | lra | lra |].
  exists r, r'; repeat split; assumption.
Defined.

(** X9.  The radii returned by [calculateImpactRadius] are always accepted
    by [estimateCasualties], with the default population density of 100.
    The three areas are nested, the light-damage disc having four times the
    area of the moderate one, and [total_area_km2] is the sum of the three
    discs, so it exceeds the area of the largest one. *)
Theorem X9_casualties_of_impact (d s dia : R) :
  0 < d -> 0 < s -> 0 < dia ->
  exists r c,
    ImpactCalculator.calculateImpactRadius
      (Js.Number (Js.Num d)) (Js.Number (Js.Num s)) (Js.Number (Js.Num dia)) = Ok r /\
    ImpactCalculator.estimateCasualties
      (Js.Number (Js.Num (ImpactCalculator.severe_radius_km r)))
      (Js.Number (Js.Num (ImpactCalculator.moderate_radius_km r)))
      (Js.Number (Js.Num (ImpactCalculator.light_radius_km r)))
      Js.Undefined = Ok c /\
    let A := ImpactCalculator.affected_areas c in
    0 < ImpactCalculator.severe_area_km2 A /\
    ImpactCalculator.severe_area_km2 A < ImpactCalculator.moderate_area_km2 A /\
    ImpactCalculator.moderate_area_km2 A < ImpactCalculator.light_area_km2 A /\
    ImpactCalculator.light_area_km2 A = 4 * ImpactCalculator.moderate_area_km2 A /\
    ImpactCalculator.total_area_km2 A =
      ImpactCalculator.severe_area_km2 A + ImpactCalculator.moderate_area_km2 A +
      ImpactCalculator.light_area_km2 A /\
    ImpactCalculator.light_area_km2 A < ImpactCalculator.total_area_km2 A /\
    ImpactCalculator.severe_casualties c =
      Js.round (ImpactCalculator.severe_area_km2 A * 100 * 0.9).
Proof.
  intros Hd Hs Hdia.
  destruct (calculateImpactRadius_ok (Js.Number (Js.Num d)) (Js.Number (Js.Num s))
              (Js.Number (Js.Num dia)) d s dia eq_refl eq_refl eq_refl Hd Hs Hdia)
    as (r & Hr & HE & _ & Hsev & Hmod & Hlight).
  assert (HEpos : 0 < ImpactCalculator.kinetic_energy_joules r)
    by (rewrite HE; apply kineticEnergy_pos; assumption).
  assert (Hc := cbrt_pos _ HEpos).
  set (t := Js.cbrt (ImpactCalculator.kinetic_energy_joules r)) in *.
  clearbody t.
  unfold ImpactCalculator.severe_k in Hsev.
  unfold ImpactCalculator.moderate_k in Hmod.
  unfold ImpactCalculator.light_k in Hlight.
  exists r; eexists; split; [exact Hr |].
  split.
  - apply (estimateCasualties_ok _ _ _ _
             (ImpactCalculator.severe_radius_km r)
             (ImpactCalculator.moderate_radius_km r)
             (ImpactCalculator.light_radius_km r) 100); try reflexivity; lra.
  - cbv zeta;
      cbn [ImpactCalculator.affected_areas ImpactCalculator.severe_area_km2
             ImpactCalculator.moderate_area_km2 ImpactCalculator.light_area_km2
             ImpactCalculator.total_area_km2 ImpactCalculator.severe_casualties].
    assert (HPI := PI_RGT_0).
    rewrite Hsev, Hmod, Hlight.
    assert (Ht2 : 0 < PI * t * t)
      by (apply Rmult_lt_0_compat; [apply Rmult_lt_0_compat |]; lra).
    repeat split; try reflexivity; nra.
Qed.

Lemma X9_casualties_of_impact_witness :
  exists r c,
    ImpactCalculator.calculateImpactRadius
      (Js.Number (Js.Num 3000)) (Js.Number (Js.Num 20000)) (Js.Number (Js.Num 100)) = Ok r /\
    ImpactCalculator.estimateCasualties
      (Js.Number (Js.Num (ImpactCalculator.severe_radius_km r)))
      (Js.Number (Js.Num (ImpactCalculator.moderate_radius_km r)))
      (Js.Number (Js.Num (ImpactCalculator.light_radius_km r)))
      Js.Undefined = Ok c.
Proof.
  destruct (X9_casualties_of_impact 3000 20000 100) as (r & c & Hr & Hc & _);
    [lra | lra | lra |].
  exists r, c; split; assumption.
Defined.

Section AssessmentFacts.
Import Js ImpactCalculator.

(** The assessment on a record with a positive diameter and velocity and an
    accepted population density. *)
Lemma comprehensiveImpactAssessment_ok (nasaData : NasaData)
    (population_density : value) (p : R) :
  0 < or_zero (Diameter nasaData) -> 0 < or_zero (Velocity nasaData) ->
  ToNumber (default_param 100 population_density) = Num p -> 0 <= p ->
  exists r c k,
    calculateImpactRadius (Number (Num 3000))
      (Number (Num (or_zero (Velocity nasaData) * 1000)))
      (Number (Num (or_zero (Diameter nasaData) * 1000))) = Ok r /\
    calculateCraterDimensions
      (Number (Num (or_zero (Diameter nasaData) * 1000)))
      (Number (Num (or_zero (Velocity nasaData) * 1000)))
      (Number (Num 3000)) = Ok c /\
    estimateCasualties (Number (Num (severe_radius_km r)))
      (Number (Num (moderate_radius_km r))) (Number (Num (light_radius_km r)))
      (Number (Num p)) = Ok k /\
    comprehensiveImpactAssessment nasaData population_density =
    Assessed
      {| asteroid_info :=
           {| designation :=
                string_or (des nasaData) (string_or (Full_Name nasaData) "Unknown");
              info_diameter_km := or_zero (Diameter nasaData) * 1000 / 1000;
              info_velocity_km_s := or_zero (Velocity nasaData) * 1000 / 1000;
              info_density_kg_m3 := 3000 |};
         impact_assessment := r;
         crater_analysis := c;
         casualty_estimation := k;
         nasa_data := nasaData |}.
Proof.
  intros HD Hv Ep Hp.
  set (D := or_zero (Diameter nasaData)) in *.
  set (v := or_zero (Velocity nasaData)) in *.
  destruct (calculateImpactRadius_ok (Number (Num 3000)) (Number (Num (v * 1000)))
              (Number (Num (D * 1000))) 3000 (v * 1000) (D * 1000)
              eq_refl eq_refl eq_refl)
    as (r & Hr & HE & _ & Hsev & Hmod & Hlight); [lra | lra | lra |].
  assert (HEpos : 0 < kinetic_energy_joules r)
    by (rewrite HE; apply kineticEnergy_pos; lra).
  assert (Hc := cbrt_pos _ HEpos).
  unfold severe_k in Hsev. unfold moderate_k in Hmod. unfold light_k in Hlight.
  assert (Hcr := calculateCraterDimensions_ok (Number (Num (D * 1000)))
                   (Number (Num (v * 1000))) (Number (Num 3000))
                   (D * 1000) (v * 1000) 3000 eq_refl eq_refl eq_refl
                   ltac:(lra) ltac:(lra) ltac:(lra)).
  assert (Hk := estimateCasualties_ok (Number (Num (severe_radius_km r)))
                  (Number (Num (moderate_radius_km r)))
                  (Number (Num (light_radius_km r))) (Number (Num p))
                  _ _ _ p eq_refl eq_refl eq_refl eq_refl
                  ltac:(lra) ltac:(lra) ltac:(lra) Hp).
  assert (Hk' : estimateCasualties (Number (Num (severe_radius_km r)))
                  (Number (Num (moderate_radius_km r)))
                  (Number (Num (light_radius_km r)))
                  (default_param 100 population_density) =
                estimateCasualties (Number (Num (severe_radius_km r)))
                  (Number (Num (moderate_radius_km r)))
                  (Number (Num (light_radius_km r))) (Number (Num p))).
  { rewrite Hk.
    apply (estimateCasualties_ok _ _ _ _ (severe_radius_km r)
             (moderate_radius_km r) (light_radius_km r) p);
      try reflexivity; try lra.
    destruct population_density; exact Ep. }
  eexists r, _, _; split; [exact Hr |]; split; [exact Hcr |]; split; [exact Hk |].
  unfold comprehensiveImpactAssessment, convertNasaDataToParameters;
    cbv zeta; cbn [params_density_kg_m3 params_velocity_m_s params_diameter_m].
  fold D v; rewrite Hr, Hcr, Hk', Hk; reflexivity.
Qed.

End AssessmentFacts.

Section AssessmentFailures.
Import Js ImpactCalculator.

Lemma estimateCasualties_message (sr mr lr pd : value) msg :
  estimateCasualties sr mr lr pd = Throw msg ->
  msg = "All inputs must be non-negative numeric values."%string.
Proof.
  unfold estimateCasualties; cbv zeta.
  destruct (existsb isNaN _ || existsb _ _).
  - intros H; injection H as <-; reflexivity.
  - cbn [map].
    destruct (ToNumber sr); [intros H; injection H as <-; reflexivity |].
    destruct (ToNumber mr); [intros H; injection H as <-; reflexivity |].
    destruct (ToNumber lr); [intros H; injection H as <-; reflexivity |].
    destruct (ToNumber (default_param 100 pd));
      [intros H; injection H as <-; reflexivity | discriminate].
Qed.

Lemma default_param_idem (dflt : R) (v : value) :
  default_param dflt (default_param dflt v) = default_param dflt v.
Proof. destruct v; reflexivity. Qed.

Lemma rejected_dec (n : num) : {rejected n} + {~ rejected n}.
Proof.
  destruct n as [| x]; [left; left; reflexivity |].
  destruct (Rlt_dec x 0) as [H | H].
  - left; right; exists x; split; [reflexivity | exact H].
  - right; intros [E | (y & E & Hy)]; [discriminate |].
    injection E as <-; contradiction.
Qed.

(** A record whose diameter or velocity is absent, unreadable, zero or
    negative is refused by the first stage. *)
Lemma comprehensiveImpactAssessment_no_size (nasaData : NasaData)
    (population_density : value) :
  or_zero (Diameter nasaData) <= 0 \/ or_zero (Velocity nasaData) <= 0 ->
  comprehensiveImpactAssessment nasaData population_density =
  Failed "Density, Speed, and Diameter must be positive values." nasaData.
Proof.
  intros H.
  unfold comprehensiveImpactAssessment, convertNasaDataToParameters,
    calculateImpactRadius; cbv zeta;
    cbn [params_density_kg_m3 params_velocity_m_s params_diameter_m ToNumber].
  rewrite (leb_false 3000 0) by lra; cbn [orb].
  destruct H as [H | H].
  - rewrite (leb_true (or_zero (Diameter nasaData) * 1000) 0) by lra.
    rewrite orb_true_r; reflexivity.
  - rewrite (leb_true (or_zero (Velocity nasaData) * 1000) 0) by lra.
    reflexivity.
Qed.

(** With a positive diameter and velocity, a population density that is
    not a non-negative number is refused by the last stage. *)
Lemma comprehensiveImpactAssessment_no_density (nasaData : NasaData)
    (population_density : value) :
  0 < or_zero (Diameter nasaData) -> 0 < or_zero (Velocity nasaData) ->
  rejected (ToNumber (default_param 100 population_density)) ->
  comprehensiveImpactAssessment nasaData population_density =
  Failed "All inputs must be non-negative numeric values." nasaData.
Proof.
  intros HD Hv Hrej.
  set (D := or_zero (Diameter nasaData)) in *.
  set (v := or_zero (Velocity nasaData)) in *.
  destruct (calculateImpactRadius_ok (Number (Num 3000)) (Number (Num (v * 1000)))
              (Number (Num (D * 1000))) 3000 (v * 1000) (D * 1000)
              eq_refl eq_refl eq_refl)
    as (r & Hr & _); [lra | lra | lra |].
  assert (Hcr := calculateCraterDimensions_ok (Number (Num (D * 1000)))
                   (Number (Num (v * 1000))) (Number (Num 3000))
                   (D * 1000) (v * 1000) 3000 eq_refl eq_refl eq_refl
                   ltac:(lra) ltac:(lra) ltac:(lra)).
  assert (Hthrow : exists msg,
            estimateCasualties (Number (Num (severe_radius_km r)))
              (Number (Num (moderate_radius_km r)))
              (Number (Num (light_radius_km r)))
              (default_param 100 population_density) = Throw msg).
  { apply estimateCasualties_throws.
    exists (ToNumber (default_param 100 population_density)); split; [| exact Hrej].
    rewrite default_param_idem; cbn [map]; right; right; right; left; reflexivity. }
  destruct Hthrow as (msg & Hmsg).
  assert (Emsg := estimateCasualties_message _ _ _ _ _ Hmsg); subst msg.
  unfold comprehensiveImpactAssessment, convertNasaDataToParameters;
    cbv zeta; cbn [params_density_kg_m3 params_velocity_m_s params_diameter_m].
  fold D v; rewrite Hr, Hcr, Hmsg; reflexivity.
Qed.

End AssessmentFailures.

(** X10.  On a record whose [Diameter] and [Velocity] are strings or
    absent, [comprehensiveImpactAssessment] turns every failure into an
    error object that carries the record back.  A diameter or velocity
    that is absent, not numeric, zero or negative is read as zero and
    reported as "Density, Speed, and Diameter must be positive values.";
    otherwise a population density that is not a non-negative number is
    reported as "All inputs must be non-negative numeric values.";
    otherwise the assessment is returned.  No other message can appear:
    neither the "numeric values" message of the radius calculator nor the
    message of the crater calculator is ever reported. *)
Theorem X10_assessment_outcomes (nasaData : ImpactCalculator.NasaData)
    (population_density : Js.value) :
  let D := Js.or_zero (ImpactCalculator.Diameter nasaData) in
  let v := Js.or_zero (ImpactCalculator.Velocity nasaData) in
  let pd := Js.ToNumber (ImpactCalculator.default_param 100 population_density) in
  (D <= 0 \/ v <= 0 ->
   ImpactCalculator.comprehensiveImpactAssessment nasaData population_density =
   ImpactCalculator.Failed
     "Density, Speed, and Diameter must be positive values." nasaData) /\
  (0 < D -> 0 < v -> ImpactCalculator.rejected pd ->
   ImpactCalculator.comprehensiveImpactAssessment nasaData population_density =
   ImpactCalculator.Failed
     "All inputs must be non-negative numeric values." nasaData) /\
  (0 < D -> 0 < v -> ~ ImpactCalculator.rejected pd ->
   exists a,
     ImpactCalculator.comprehensiveImpactAssessment nasaData population_density =
     ImpactCalculator.Assessed a) /\
  (forall msg nd,
     ImpactCalculator.comprehensiveImpactAssessment nasaData population_density =
     ImpactCalculator.Failed msg nd ->
     nd = nasaData /\
     (msg = "Density, Speed, and Diameter must be positive values."%string \/
      msg = "All inputs must be non-negative numeric values."%string)).
Proof.
  intros D v pd.
  assert (Hok : 0 < D -> 0 < v -> ~ ImpactCalculator.rejected pd ->
                exists a,
                  ImpactCalculator.comprehensiveImpactAssessment nasaData
                    population_density = ImpactCalculator.Assessed a).
  { intros HD Hv Hpd.
    destruct pd as [| p] eqn:Ep; [exfalso; apply Hpd; left; reflexivity |].
    assert (Hp : 0 <= p).
    { destruct (Rle_dec 0 p) as [H | H]; [exact H |].
      exfalso; apply Hpd; right; exists p; split; [reflexivity | lra]. }
    destruct (comprehensiveImpactAssessment_ok nasaData population_density p
                HD Hv Ep Hp) as (r & c & k & _ & _ & _ & H).
    eexists; exact H. }
  split; [apply comprehensiveImpactAssessment_no_size |].
  split; [apply comprehensiveImpactAssessment_no_density |].
  split; [exact Hok |].
  intros msg nd H.
  destruct (Rle_dec D 0) as [HD | HD];
    [| destruct (Rle_dec v 0) as [Hv | Hv];
       [| destruct (rejected_dec pd) as [Hpd | Hpd]]].
  - rewrite comprehensiveImpactAssessment_no_size in H by (left; exact HD).
    injection H as <- <-; split; [reflexivity | left; reflexivity].
  - rewrite comprehensiveImpactAssessment_no_size in H by (right; exact Hv).
    injection H as <- <-; split; [reflexivity | left; reflexivity].
  - apply Rnot_le_lt in HD, Hv.
    rewrite comprehensiveImpactAssessment_no_density in H by assumption.
    injection H as <- <-; split; [reflexivity | right; reflexivity].
  - apply Rnot_le_lt in HD, Hv.
    destruct (Hok HD Hv Hpd) as (a & Ha).
    rewrite Ha in H; discriminate.
Qed.

(** X11.  On a record with a positive diameter [D] km and velocity [v]
    km/s and a non-negative population density, the assessment echoes the
    record and the two figures in their input units, assumes a density of
    3000 kg/m^3, converts to metres and metres per second, and its three
    parts agree: the impact and the crater carry the same energy
    [(pi/12) 3000 (1000 D)^3 (1000 v)^2], and the casualty areas are the
    discs of the impact radii.  The designation is "Unknown" when the
    record gives neither [des] nor [Full_Name]. *)
Theorem X11_assessment_content (nasaData : ImpactCalculator.NasaData)
    (population_density : Js.value) (D v p : R) :
  ImpactCalculator.Diameter nasaData = Js.Num D ->
  ImpactCalculator.Velocity nasaData = Js.Num v ->
  Js.ToNumber (ImpactCalculator.default_param 100 population_density) = Js.Num p ->
  0 < D -> 0 < v -> 0 <= p ->
  exists a,
    ImpactCalculator.comprehensiveImpactAssessment nasaData population_density =
      ImpactCalculator.Assessed a /\
    let info := ImpactCalculator.asteroid_info a in
    let impact := ImpactCalculator.impact_assessment a in
    let areas :=
      ImpactCalculator.affected_areas (ImpactCalculator.casualty_estimation a) in
    ImpactCalculator.nasa_data a = nasaData /\
    ImpactCalculator.info_diameter_km info = D /\
    ImpactCalculator.info_velocity_km_s info = v /\
    ImpactCalculator.info_density_kg_m3 info = 3000 /\
    ImpactCalculator.input_parameters impact =
      {| ImpactCalculator.density_kg_m3 := 3000;
         ImpactCalculator.speed_m_s := v * 1000;
         ImpactCalculator.diameter_m := D * 1000 |} /\
    ImpactCalculator.kinetic_energy_joules impact =
      PI / 12 * 3000 * (1000 * D) ^ 3 * (1000 * v) ^ 2 /\
    ImpactCalculator.crater_kinetic_energy_joules (ImpactCalculator.crater_analysis a) =
      ImpactCalculator.kinetic_energy_joules impact /\
    ImpactCalculator.severe_area_km2 areas =
      PI * ImpactCalculator.severe_radius_km impact ^ 2 /\
    ImpactCalculator.moderate_area_km2 areas =
      PI * ImpactCalculator.moderate_radius_km impact ^ 2 /\
    ImpactCalculator.light_area_km2 areas =
      PI * ImpactCalculator.light_radius_km impact ^ 2 /\
    (ImpactCalculator.des nasaData = None ->
     ImpactCalculator.Full_Name nasaData = None ->
     ImpactCalculator.designation info = "Unknown"%string).
Proof.
  intros ED Ev Ep HD Hv Hp.
  assert (HD' : Js.or_zero (ImpactCalculator.Diameter nasaData) = D)
    by (rewrite ED; reflexivity).
  assert (Hv' : Js.or_zero (ImpactCalculator.Velocity nasaData) = v)
    by (rewrite Ev; reflexivity).
  destruct (comprehensiveImpactAssessment_ok nasaData population_density p)
    as (r & c & k & Hr & Hc & Hk & Ha);
    [rewrite HD'; exact HD | rewrite Hv'; exact Hv | exact Ep | exact Hp |].
  rewrite HD', Hv' in *.
  eexists; split; [exact Ha |].
  cbv zeta;
    cbn [ImpactCalculator.asteroid_info ImpactCalculator.impact_assessment
           ImpactCalculator.casualty_estimation ImpactCalculator.crater_analysis
           ImpactCalculator.nasa_data ImpactCalculator.info_diameter_km
           ImpactCalculator.info_velocity_km_s ImpactCalculator.info_density_kg_m3
           ImpactCalculator.designation].
  destruct (calculateImpactRadius_ok (Js.Number (Js.Num 3000))
              (Js.Number (Js.Num (v * 1000))) (Js.Number (Js.Num (D * 1000)))
              3000 (v * 1000) (D * 1000) eq_refl eq_refl eq_refl)
    as (r0 & Hr0 & HE & _ & Hsev & Hmod & Hlight); [lra | lra | lra |].
  rewrite Hr in Hr0; injection Hr0 as <-.
  assert (HEpos : 0 < ImpactCalculator.kinetic_energy_joules r)
    by (rewrite HE; apply kineticEnergy_pos; lra).
  assert (Hcb := cbrt_pos _ HEpos).
  rewrite (calculateCraterDimensions_ok (Js.Number (Js.Num (D * 1000)))
             (Js.Number (Js.Num (v * 1000))) (Js.Number (Js.Num 3000))
             (D * 1000) (v * 1000) 3000 eq_refl eq_refl eq_refl) in Hc by lra.
  injection Hc as <-.
  unfold ImpactCalculator.severe_k in Hsev.
  unfold ImpactCalculator.moderate_k in Hmod.
  unfold ImpactCalculator.light_k in Hlight.
  rewrite (estimateCasualties_ok
             (Js.Number (Js.Num (ImpactCalculator.severe_radius_km r)))
             (Js.Number (Js.Num (ImpactCalculator.moderate_radius_km r)))
             (Js.Number (Js.Num (ImpactCalculator.light_radius_km r)))
             (Js.Number (Js.Num p))
             (ImpactCalculator.severe_radius_km r)
             (ImpactCalculator.moderate_radius_km r)
             (ImpactCalculator.light_radius_km r) p
             eq_refl eq_refl eq_refl eq_refl) in Hk by lra.
  injection Hk as <-.
  cbn [ImpactCalculator.affected_areas ImpactCalculator.severe_area_km2
         ImpactCalculator.moderate_area_km2 ImpactCalculator.light_area_km2
         ImpactCalculator.crater_kinetic_energy_joules].
  split; [reflexivity |].
  split; [field |]. split; [field |]. split; [reflexivity |].
  split.
  { revert Hr; unfold ImpactCalculator.calculateImpactRadius; cbn [Js.ToNumber].
    rewrite !(leb_false _ 0) by lra; cbn [orb].
    intros H; injection H as <-; reflexivity. }
  split; [rewrite HE; ring |].
  split; [rewrite HE; reflexivity |].
  split; [ring |]. split; [ring |]. split; [ring |].
  intros -> ->; reflexivity.
Qed.

Lemma X11_assessment_content_witness :
  exists a,
    ImpactCalculator.comprehensiveImpactAssessment
      {| ImpactCalculator.Diameter := Js.Num 0.1;
         ImpactCalculator.Velocity := Js.Num 20;
         ImpactCalculator.des := None;
         ImpactCalculator.Full_Name := None |} Js.Undefined =
      ImpactCalculator.Assessed a /\
    ImpactCalculator.info_diameter_km (ImpactCalculator.asteroid_info a) = 0.1 /\
    ImpactCalculator.designation (ImpactCalculator.asteroid_info a) = "Unknown"%string.
Proof.
  destruct (X11_assessment_content
              {| ImpactCalculator.Diameter := Js.Num 0.1;
                 ImpactCalculator.Velocity := Js.Num 20;
                 ImpactCalculator.des := None;
                 ImpactCalculator.Full_Name := None |} Js.Undefined 0.1 20 100
              eq_refl eq_refl eq_refl)
    as (a & Ha & _ & HD & _ & _ & _ & _ & _ & _ & _ & _ & Hdes); [lra | lra | lra |].
  exists a; split; [exact Ha |]; split; [exact HD | apply Hdes; reflexivity].
Defined.

(** ** The Palermo scale calculator: background frequency and read-outs *)

Section MorePalermoFacts.
Import Js PalermoCalculator.

Lemma ln10_pos : 0 < ln 10.
Proof. rewrite <- ln_1; apply ln_increasing; lra. Qed.

Lemma log10_lt (x y : R) : 0 < x -> x < y -> log10 x < log10 y.
Proof.
  intros Hx Hxy; unfold log10.
  apply Rmult_lt_compat_r; [apply Rinv_0_lt_compat, ln10_pos |].
  apply ln_increasing; assumption.
Qed.

Lemma log10_lt_inv (x y : R) : 0 < x -> 0 < y -> log10 x < log10 y -> x < y.
Proof.
  intros Hx Hy H; apply ln_lt_inv; [exact Hx | exact Hy |].
  unfold log10 in H; assert (H10 := ln10_pos).
  apply (Rmult_lt_reg_r (/ ln 10)); [apply Rinv_0_lt_compat; exact H10 | exact H].
Qed.

Lemma log10_mult (x y : R) : 0 < x -> 0 < y -> log10 (x * y) = log10 x + log10 y.
Proof.
  intros Hx Hy; unfold log10; rewrite ln_mult by assumption.
  assert (H10 := ln10_pos); field; lra.
Qed.

Lemma log10_Rpower (x a : R) : log10 (Rpower x a) = a * log10 x.
Proof.
  unfold log10, Rpower; rewrite ln_exp.
  assert (H10 := ln10_pos); field; lra.
Qed.

Lemma log10_hundredth : log10 (/ 100) = -2.
Proof.
  unfold log10; rewrite ln_Rinv by lra.
  replace 100 with (10 * 10) by lra.
  rewrite ln_mult by lra.
  assert (H10 := ln10_pos); field; lra.
Qed.

Lemma falsy_pos (x : R) : 0 < x -> falsy (Num x) = false.
Proof.
  intros H; unfold falsy; destruct (Req_dec_T x 0); [lra | reflexivity].
Qed.

(** A negative power decreases. *)
Lemma Rpower_neg_decr (x y a : R) :
  0 < a -> 0 < x -> x < y -> Rpower y (- a) < Rpower x (- a).
Proof.
  intros Ha Hx Hxy; unfold Rpower; apply exp_increasing.
  assert (H := ln_increasing x y Hx Hxy); nra.
Qed.

Lemma estimateFBfromDiameter_pos (d : R) :
  0 < d ->
  estimateFBfromDiameter (Num d) = Some (A_d * Rpower (d / 1000) (- b_d)).
Proof.
  intros H; unfold estimateFBfromDiameter.
  rewrite falsy_pos, leb_false by exact H; cbn [orb].
  unfold gtb; rewrite ltb_true; [reflexivity |].
  apply Rmult_lt_0_compat; [unfold A_d; lra | apply exp_pos].
Qed.

Lemma estimateFBfromDiameter_none (d_m : num) :
  d_m = NaN \/ (exists d, d_m = Num d /\ d <= 0) ->
  estimateFBfromDiameter d_m = None.
Proof.
  intros [-> | (d & -> & H)]; [reflexivity |].
  unfold estimateFBfromDiameter; rewrite (leb_true d 0) by exact H.
  rewrite orb_true_r; reflexivity.
Qed.

Lemma estimateFBfromEnergy_pos (E : R) :
  0 < E ->
  estimateFBfromEnergy (Num E) = Some (A_e * Rpower E (- alpha_e)).
Proof.
  intros H; unfold estimateFBfromEnergy.
  rewrite falsy_pos, leb_false by exact H; cbn [orb].
  unfold gtb; rewrite ltb_true; [reflexivity |].
  apply Rmult_lt_0_compat; [unfold A_e; lra | apply exp_pos].
Qed.

Lemma estimateFBfromEnergy_none (E_mt : num) :
  E_mt = NaN \/ (exists E, E_mt = Num E /\ E <= 0) ->
  estimateFBfromEnergy E_mt = None.
Proof.
  intros [-> | (E & -> & H)]; [reflexivity |].
  unfold estimateFBfromEnergy; rewrite (leb_true E 0) by exact H.
  rewrite orb_true_r; reflexivity.
Qed.

Lemma num_cases (n : num) :
  (exists x, n = Num x /\ 0 < x) \/ n = NaN \/ (exists x, n = Num x /\ x <= 0).
Proof.
  destruct n as [| x]; [right; left; reflexivity |].
  destruct (Rlt_dec 0 x) as [H | H].
  - left; exists x; split; [reflexivity | exact H].
  - right; right; exists x; split; [reflexivity | lra].
Qed.

Lemma palermoScale_NaN (Pi Ti fb : num) :
  palermoScale Pi Ti fb = NaN <->
  (Pi = NaN \/ exists x, Pi = Num x /\ x <= 0) \/
  (Ti = NaN \/ exists x, Ti = Num x /\ x <= 0) \/
  (fb = NaN \/ exists x, fb = Num x /\ x <= 0).
Proof.
  split.
  - destruct (num_cases Pi) as [(p & -> & Hp) | H]; [| intros _; left; exact H].
    destruct (num_cases Ti) as [(t & -> & Ht) | H]; [| intros _; right; left; exact H].
    destruct (num_cases fb) as [(b & -> & Hb) | H]; [| intros _; right; right; exact H].
    rewrite palermoScale_pos by assumption; discriminate.
  - intros H; unfold palermoScale, gtb.
    destruct Pi as [| p]; [reflexivity |].
    destruct Ti as [| t]; [reflexivity |].
    destruct fb as [| b]; [reflexivity |].
    assert (Hle : p <= 0 \/ t <= 0 \/ b <= 0).
    { destruct H as [[H | (x & E & Hx)] | [[H | (x & E & Hx)] | [H | (x & E & Hx)]]];
        try discriminate; injection E as ->; tauto. }
    destruct Hle as [Hle | [Hle | Hle]]; rewrite (ltb_false 0 _ Hle);
      rewrite ?andb_false_r; reflexivity.
Qed.

End MorePalermoFacts.

(** X12.  [estimateFBfromDiameter] returns [null] exactly on a diameter
    that is [NaN], zero or negative.  On a positive diameter [d] (metres)
    it returns the positive frequency [6.3e-3 (d / 1000)^(-2.7)], which
    strictly decreases as the diameter grows. *)
Theorem X12_estimateFBfromDiameter (d_m : Js.num) :
  (PalermoCalculator.estimateFBfromDiameter d_m = None <->
   d_m = Js.NaN \/ exists d, d_m = Js.Num d /\ d <= 0) /\
  (forall d, d_m = Js.Num d -> 0 < d ->
     exists fb,
       PalermoCalculator.estimateFBfromDiameter d_m = Some fb /\
       fb = 6.3e-3 * Rpower (d / 1000) (- (2.7)) /\ 0 < fb /\
       forall d', d < d' ->
         exists fb',
           PalermoCalculator.estimateFBfromDiameter (Js.Num d') = Some fb' /\
           fb' < fb).
Proof.
  split.
  - split; [| apply estimateFBfromDiameter_none].
    destruct (num_cases d_m) as [(d & -> & Hd) | H]; [| intros _; exact H].
    rewrite estimateFBfromDiameter_pos by exact Hd; discriminate.
  - intros d -> Hd; eexists; split; [apply estimateFBfromDiameter_pos; exact Hd |].
    unfold PalermoCalculator.A_d, PalermoCalculator.b_d.
    split; [reflexivity |].
    split; [apply Rmult_lt_0_compat; [lra | apply exp_pos] |].
    intros d' Hd'; eexists; split; [apply estimateFBfromDiameter_pos; lra |].
    unfold PalermoCalculator.A_d, PalermoCalculator.b_d.
    apply Rmult_lt_compat_l; [lra |].
    apply Rpower_neg_decr; lra.
Qed.

(** X13.  [estimateFBfromEnergy] returns [null] exactly on an energy that
    is [NaN], zero or negative.  On a positive energy [E] (megatons) it
    returns the positive frequency [A_e E^(-0.9)], which strictly
    decreases as the energy grows. *)
Theorem X13_estimateFBfromEnergy (E_mt : Js.num) :
  (PalermoCalculator.estimateFBfromEnergy E_mt = None <->
   E_mt = Js.NaN \/ exists E, E_mt = Js.Num E /\ E <= 0) /\
  (forall E, E_mt = Js.Num E -> 0 < E ->
     exists fb,
       PalermoCalculator.estimateFBfromEnergy E_mt = Some fb /\
       fb = PalermoCalculator.A_e * Rpower E (- (0.9)) /\ 0 < fb /\
       forall E', E < E' ->
         exists fb',
           PalermoCalculator.estimateFBfromEnergy (Js.Num E') = Some fb' /\
           fb' < fb).
Proof.
  split.
  - split; [| apply estimateFBfromEnergy_none].
    destruct (num_cases E_mt) as [(E & -> & HE) | H]; [| intros _; exact H].
    rewrite estimateFBfromEnergy_pos by exact HE; discriminate.
  - intros E -> HE; eexists; split; [apply estimateFBfromEnergy_pos; exact HE |].
    unfold PalermoCalculator.alpha_e.
    assert (HA : 0 < PalermoCalculator.A_e) by (unfold PalermoCalculator.A_e; lra).
    split; [reflexivity |].
    split; [apply Rmult_lt_0_compat; [exact HA | apply exp_pos] |].
    intros E' HE'; eexists; split; [apply estimateFBfromEnergy_pos; lra |].
    unfold PalermoCalculator.alpha_e.
    apply Rmult_lt_compat_l; [exact HA |].
    apply Rpower_neg_decr; lra.
Qed.

(** X14.  The background frequency used by [recalc].  With the
    auto-estimate box ticked, a positive driving input (the energy in
    energy mode, the diameter in size mode) replaces whatever was typed in
    the frequency box, and the source reads "auto"; when the driving input
    is absent, zero or negative the typed frequency is kept and the source
    reads "manual", as it does whenever the box is not ticked. *)
Theorem X14_recalc_background_frequency (f : PalermoCalculator.Form) :
  let r := PalermoCalculator.recalc f in
  (PalermoCalculator.calc_auto_fb f = false ->
   PalermoCalculator.out_fb r = PalermoCalculator.calc_fb f /\
   PalermoCalculator.out_fb_src r = "manual"%string) /\
  (PalermoCalculator.calc_auto_fb f = true ->
   PalermoCalculator.mode_energy f = true ->
   (forall E, PalermoCalculator.calc_E_mt f = Js.Num E -> 0 < E ->
      PalermoCalculator.out_fb r =
        Js.Num (PalermoCalculator.A_e * Rpower E (- (0.9))) /\
      PalermoCalculator.out_fb_src r = "auto (from energy)"%string) /\
   (PalermoCalculator.calc_E_mt f = Js.NaN \/
    (exists E, PalermoCalculator.calc_E_mt f = Js.Num E /\ E <= 0) ->
    PalermoCalculator.out_fb r = PalermoCalculator.calc_fb f /\
    PalermoCalculator.out_fb_src r = "manual"%string)) /\
  (PalermoCalculator.calc_auto_fb f = true ->
   PalermoCalculator.mode_energy f = false ->
   (forall D, PalermoCalculator.calc_diam f = Js.Num D -> 0 < D ->
      PalermoCalculator.out_fb r =
        Js.Num (6.3e-3 * Rpower (D / 1000) (- (2.7))) /\
      PalermoCalculator.out_fb_src r = "auto (from diameter)"%string) /\
   (PalermoCalculator.calc_diam f = Js.NaN \/
    (exists D, PalermoCalculator.calc_diam f = Js.Num D /\ D <= 0) ->
    PalermoCalculator.out_fb r = PalermoCalculator.calc_fb f /\
    PalermoCalculator.out_fb_src r = "manual"%string)).
Proof.
  cbv zeta; unfold PalermoCalculator.recalc.
  split; [| split].
  - intros ->; destruct (PalermoCalculator.mode_energy f); split; reflexivity.
  - intros -> ->; split.
    + intros E -> HE; rewrite estimateFBfromEnergy_pos by exact HE.
      split; reflexivity.
    + intros H; rewrite (estimateFBfromEnergy_none _ H); split; reflexivity.
  - intros -> ->; split.
    + intros D -> HD; rewrite estimateFBfromDiameter_pos by exact HD.
      split; reflexivity.
    + intros H; rewrite (estimateFBfromDiameter_none _ H); split; reflexivity.
Qed.

(** X15.  With the auto-estimate on, positive [Pi] and [Ti] and a positive
    driving input, the Palermo scale shown by [recalc] no longer depends on
    the frequency box: in energy mode it is
    [log10 (Pi / Ti) - log10 A_e + 0.9 log10 E], in size mode
    [log10 (Pi / Ti) - log10 6.3e-3 + 2.7 log10 (D / 1000)]. *)
Theorem X15_recalc_auto_palermo_scale (f : PalermoCalculator.Form) (Pi Ti x : R) :
  PalermoCalculator.calc_auto_fb f = true ->
  PalermoCalculator.calc_pi f = Js.Num Pi -> PalermoCalculator.calc_ti f = Js.Num Ti ->
  0 < Pi -> 0 < Ti -> 0 < x ->
  (PalermoCalculator.mode_energy f = true ->
   PalermoCalculator.calc_E_mt f = Js.Num x ->
   PalermoCalculator.out_PS (PalermoCalculator.recalc f) =
     Js.Num (Js.log10 (Pi / Ti) - Js.log10 PalermoCalculator.A_e + 0.9 * Js.log10 x)) /\
  (PalermoCalculator.mode_energy f = false ->
   PalermoCalculator.calc_diam f = Js.Num x ->
   PalermoCalculator.out_PS (PalermoCalculator.recalc f) =
     Js.Num (Js.log10 (Pi / Ti) - Js.log10 6.3e-3 + 2.7 * Js.log10 (x / 1000))).
Proof.
  intros Hauto EPi ETi HPi HTi Hx.
  assert (Hq : 0 < Pi / Ti) by (apply Rdiv_lt_0_compat; assumption).
  assert (Hgen : forall A p a : R, 0 < A -> 0 < p ->
            Js.log10 (Pi / Ti / (A * Rpower p (- a))) =
            Js.log10 (Pi / Ti) - Js.log10 A + a * Js.log10 p).
  { intros A p a HA Hp.
    assert (HP : 0 < Rpower p (- a)) by apply exp_pos.
    unfold Rdiv at 1.
    rewrite Rinv_mult.
    rewrite <- (Rpower_Ropp p (- a)), Ropp_involutive.
    rewrite !log10_mult, log10_Rpower;
      try apply Rmult_lt_0_compat; try apply Rinv_0_lt_compat;
      try apply exp_pos; try assumption.
    unfold Js.log10; rewrite ln_Rinv by exact HA.
    assert (H10 := ln10_pos); field; lra. }
  split; intros Hmode Ex.
  - destruct (recalc_PS f) as [HPS _]; rewrite HPS, EPi, ETi.
    assert (Hfb : PalermoCalculator.out_fb (PalermoCalculator.recalc f) =
                  Js.Num (PalermoCalculator.A_e * Rpower x (- (0.9)))).
    { unfold PalermoCalculator.recalc; rewrite Hmode, Hauto, Ex.
      rewrite estimateFBfromEnergy_pos by exact Hx; reflexivity. }
    assert (HA : 0 < PalermoCalculator.A_e) by (unfold PalermoCalculator.A_e; lra).
    rewrite Hfb, palermoScale_pos;
      [| exact HPi | exact HTi | apply Rmult_lt_0_compat; [exact HA | apply exp_pos]].
    rewrite Hgen by assumption; reflexivity.
  - destruct (recalc_PS f) as [HPS _]; rewrite HPS, EPi, ETi.
    assert (Hfb : PalermoCalculator.out_fb (PalermoCalculator.recalc f) =
                  Js.Num (6.3e-3 * Rpower (x / 1000) (- (2.7)))).
    { unfold PalermoCalculator.recalc; rewrite Hmode, Hauto, Ex.
      rewrite estimateFBfromDiameter_pos by exact Hx; reflexivity. }
    rewrite Hfb, palermoScale_pos;
      [| exact HPi | exact HTi | apply Rmult_lt_0_compat; [lra | apply exp_pos]].
    rewrite Hgen by lra; reflexivity.
Qed.

Lemma X15_recalc_auto_palermo_scale_witness :
  let f := {| PalermoCalculator.calc_pi := Js.Num 1e-4;
              PalermoCalculator.calc_ti := Js.Num 10;
              PalermoCalculator.calc_E_mt := Js.Num 50;
              PalermoCalculator.calc_diam := Js.NaN;
              PalermoCalculator.calc_vel := Js.NaN;
              PalermoCalculator.calc_rho := Js.NaN;
              PalermoCalculator.calc_fb := Js.NaN;
              PalermoCalculator.mode_energy := true;
              PalermoCalculator.calc_auto_fb := true |} in
  PalermoCalculator.out_PS (PalermoCalculator.recalc f) =
    Js.Num (Js.log10 (1e-4 / 10) - Js.log10 PalermoCalculator.A_e + 0.9 * Js.log10 50).
Proof.
  intros f.
  apply (X15_recalc_auto_palermo_scale f 1e-4 10 50);
    try reflexivity; lra.
Defined.

(** X16.  What the reading of [recalc] means in terms of its inputs.
    Let [fB] be the background frequency supplied by the form: the typed
    one when the auto-estimate box is not ticked or the estimate of the
    current mode is [null], the estimate otherwise.  For positive [Pi],
    [Ti] and [fB] the reading is "Above background risk" exactly when the
    yearly impact probability [Pi / Ti] exceeds [fB], "Well below
    background" exactly when it is at most a hundredth of [fB], and
    "Comparable to background" in between. *)
Theorem X16_reading_by_inputs (f : PalermoCalculator.Form) (Pi Ti fB : R) :
  PalermoCalculator.calc_pi f = Js.Num Pi ->
  PalermoCalculator.calc_ti f = Js.Num Ti ->
  (PalermoCalculator.calc_fb f = Js.Num fB /\
   (PalermoCalculator.calc_auto_fb f = false \/
    (PalermoCalculator.mode_energy f = true /\
     PalermoCalculator.estimateFBfromEnergy (PalermoCalculator.calc_E_mt f) = None) \/
    (PalermoCalculator.mode_energy f = false /\
     PalermoCalculator.estimateFBfromDiameter (PalermoCalculator.calc_diam f) = None))) \/
  (PalermoCalculator.calc_auto_fb f = true /\
   PalermoCalculator.mode_energy f = true /\
   PalermoCalculator.estimateFBfromEnergy (PalermoCalculator.calc_E_mt f) = Some fB) \/
  (PalermoCalculator.calc_auto_fb f = true /\
   PalermoCalculator.mode_energy f = false /\
   PalermoCalculator.estimateFBfromDiameter (PalermoCalculator.calc_diam f) = Some fB) ->
  0 < Pi -> 0 < Ti -> 0 < fB ->
  let reading := PalermoCalculator.out_interp (PalermoCalculator.recalc f) in
  (reading = "Above background risk"%string <-> fB < Pi / Ti) /\
  (reading = "Comparable to background"%string <-> fB / 100 < Pi / Ti <= fB) /\
  (reading = "Well below background"%string <-> Pi / Ti <= fB / 100).
Proof.
  intros EPi ETi Hsupplied HPi HTi HfB reading.
  assert (Efb := recalc_out_fb f fB Hsupplied).
  destruct (recalc_PS f) as [HPS Hint].
  rewrite EPi, ETi, Efb, palermoScale_pos in HPS by assumption.
  assert (Hq : 0 < Pi / Ti / fB) by (repeat apply Rdiv_lt_0_compat; assumption).
  set (q := Pi / Ti / fB) in *.
  assert (Hqe : Pi / Ti = q * fB) by (unfold q; field; lra).
  assert (H0 : 0 < Js.log10 q <-> 1 < q).
  { rewrite <- log10_1; split; intros H.
    - apply log10_lt_inv; [lra | exact Hq | exact H].
    - apply log10_lt; [lra | exact H]. }
  assert (H2 : -2 < Js.log10 q <-> / 100 < q).
  { rewrite <- log10_hundredth; split; intros H.
    - apply log10_lt_inv; [lra | exact Hq | exact H].
    - apply log10_lt; [lra | exact H]. }
  unfold reading; rewrite Hint, HPS; clear reading.
  unfold PalermoCalculator.interpretation, Js.gtb, Js.ltb.
  rewrite Hqe.
  destruct (Rlt_dec 0 (Js.log10 q)) as [Ha | Ha];
    [| destruct (Rlt_dec (-2) (Js.log10 q)) as [Hb | Hb]].
  - apply H0 in Ha.
    split; [split; [intros _; nra | reflexivity] |].
    split; split; try discriminate; intros; exfalso; nra.
  - assert (Ha' : q <= 1) by (apply Rnot_lt_le; intros H; apply Ha, H0, H).
    apply H2 in Hb.
    split; [split; [discriminate | intros; exfalso; nra] |].
    split; [split; [intros _; nra | reflexivity] |].
    split; [discriminate | intros; exfalso; nra].
  - assert (Hb' : q <= / 100) by (apply Rnot_lt_le; intros H; apply Hb, H2, H).
    split; [split; [discriminate | intros; exfalso; nra] |].
    split; [split; [discriminate | intros; exfalso; nra] |].
    split; [intros _; nra | reflexivity].
Qed.

Lemma X16_reading_by_inputs_witness :
  let f := {| PalermoCalculator.calc_pi := Js.Num 1e-4;
              PalermoCalculator.calc_ti := Js.Num 10;
              PalermoCalculator.calc_E_mt := Js.NaN;
              PalermoCalculator.calc_diam := Js.NaN;
              PalermoCalculator.calc_vel := Js.NaN;
              PalermoCalculator.calc_rho := Js.NaN;
              PalermoCalculator.calc_fb := Js.Num 1e-6;
              PalermoCalculator.mode_energy := true;
              PalermoCalculator.calc_auto_fb := true |} in
  PalermoCalculator.out_interp (PalermoCalculator.recalc f) =
    "Above background risk"%string.
Proof.
  intros f.
  destruct (X16_reading_by_inputs f 1e-4 10 1e-6 eq_refl eq_refl)
    as (H & _);
    [left; split; [reflexivity | right; left; split; reflexivity] | lra | lra | lra |].
  apply H; lra.
Defined.

(** X17.  In size mode [recalc] shows the kinetic energy of a sphere: for
    a positive diameter [D] (m), density [rho] (kg/m^3) and speed [v]
    (km/s) the joule read-out is [(1/2) m (1000 v)^2] with the mass
    [m = (pi/6) rho D^3], and the megaton read-out is that over 4.184e15.
    When one of the three is absent, zero or negative both read-outs are
    [NaN]. *)
Theorem X17_recalc_size_mode_energy (f : PalermoCalculator.Form) :
  PalermoCalculator.mode_energy f = false ->
  (forall D rho v,
     PalermoCalculator.calc_diam f = Js.Num D ->
     PalermoCalculator.calc_rho f = Js.Num rho ->
     PalermoCalculator.calc_vel f = Js.Num v ->
     0 < D -> 0 < rho -> 0 < v ->
     let m := PI / 6 * rho * D ^ 3 in
     PalermoCalculator.out_EJ (PalermoCalculator.recalc f) =
       Js.Num (1 / 2 * m * (1000 * v) ^ 2) /\
     PalermoCalculator.out_E_mt (PalermoCalculator.recalc f) =
       Js.Num (1 / 2 * m * (1000 * v) ^ 2 / 4.184e15)) /\
  ((PalermoCalculator.calc_diam f = Js.NaN \/
    exists x, PalermoCalculator.calc_diam f = Js.Num x /\ x <= 0) \/
   (PalermoCalculator.calc_rho f = Js.NaN \/
    exists x, PalermoCalculator.calc_rho f = Js.Num x /\ x <= 0) \/
   (PalermoCalculator.calc_vel f = Js.NaN \/
    exists x, PalermoCalculator.calc_vel f = Js.Num x /\ x <= 0) ->
   PalermoCalculator.out_E_mt (PalermoCalculator.recalc f) = Js.NaN /\
   PalermoCalculator.out_EJ (PalermoCalculator.recalc f) = Js.NaN).
Proof.
  intros Hmode.
  assert (HE : PalermoCalculator.out_E_mt (PalermoCalculator.recalc f) =
               PalermoCalculator.energyFromSizeMt (PalermoCalculator.calc_diam f)
                 (PalermoCalculator.calc_rho f) (PalermoCalculator.calc_vel f)).
  { unfold PalermoCalculator.recalc; rewrite Hmode.
    destruct (PalermoCalculator.calc_auto_fb f);
      [destruct (PalermoCalculator.estimateFBfromDiameter _) |]; reflexivity. }
  assert (HJ : PalermoCalculator.out_EJ (PalermoCalculator.recalc f) =
               match PalermoCalculator.out_E_mt (PalermoCalculator.recalc f) with
               | Js.Num E => Js.Num (E * PalermoCalculator.MT_J)
               | Js.NaN => Js.NaN
               end).
  { unfold PalermoCalculator.recalc; rewrite Hmode.
    destruct (PalermoCalculator.calc_auto_fb f);
      [destruct (PalermoCalculator.estimateFBfromDiameter _) |]; reflexivity. }
  split.
  - intros D rho v ED Erho Ev HD Hrho Hv m.
    assert (HE' : PalermoCalculator.out_E_mt (PalermoCalculator.recalc f) =
                  Js.Num (1 / 2 * m * (1000 * v) ^ 2 / 4.184e15)).
    { rewrite HE, ED, Erho, Ev; unfold PalermoCalculator.energyFromSizeMt.
      rewrite !falsy_pos, !(leb_false _ 0) by assumption; cbn [orb].
      f_equal; unfold m, PalermoCalculator.MT_J; lra. }
    split; [| exact HE'].
    rewrite HJ, HE'; f_equal; unfold PalermoCalculator.MT_J; lra.
  - intros H.
    assert (HE' : PalermoCalculator.out_E_mt (PalermoCalculator.recalc f) = Js.NaN).
    { rewrite HE; unfold PalermoCalculator.energyFromSizeMt.
      destruct H as [[-> | (x & -> & Hx)] | [[-> | (x & -> & Hx)] | [-> | (x & -> & Hx)]]].
      - reflexivity.
      - destruct (PalermoCalculator.calc_rho f); [reflexivity |].
        destruct (PalermoCalculator.calc_vel f); [reflexivity |].
        rewrite (leb_true x 0) by exact Hx.
        rewrite !orb_true_r; reflexivity.
      - destruct (PalermoCalculator.calc_diam f); reflexivity.
      - destruct (PalermoCalculator.calc_diam f); [reflexivity |].
        destruct (PalermoCalculator.calc_vel f); [reflexivity |].
        rewrite (leb_true x 0) by exact Hx.
        rewrite !orb_true_r; reflexivity.
      - destruct (PalermoCalculator.calc_diam f); [reflexivity |].
        destruct (PalermoCalculator.calc_rho f); reflexivity.
      - destruct (PalermoCalculator.calc_diam f); [reflexivity |].
        destruct (PalermoCalculator.calc_rho f); [reflexivity |].
        rewrite (leb_true x 0) by exact Hx.
        rewrite !orb_true_r; reflexivity. }
    split; [exact HE' | rewrite HJ, HE'; reflexivity].
Qed.

Lemma X17_recalc_size_mode_energy_witness :
  let f := {| PalermoCalculator.calc_pi := Js.NaN;
              PalermoCalculator.calc_ti := Js.NaN;
              PalermoCalculator.calc_E_mt := Js.NaN;
              PalermoCalculator.calc_diam := Js.Num 100;
              PalermoCalculator.calc_vel := Js.Num 20;
              PalermoCalculator.calc_rho := Js.Num 3000;
              PalermoCalculator.calc_fb := Js.NaN;
              PalermoCalculator.mode_energy := false;
              PalermoCalculator.calc_auto_fb := false |} in
  PalermoCalculator.out_EJ (PalermoCalculator.recalc f) =
    Js.Num (1 / 2 * (PI / 6 * 3000 * 100 ^ 3) * (1000 * 20) ^ 2).
Proof.
  intros f.
  apply (proj1 (X17_recalc_size_mode_energy f eq_refl) 100 3000 20);
    try reflexivity; lra.
Defined.

(** X18.  The Palermo scale of [recalc] is [NaN], and its reading the dash,
    exactly when the impact probability, the time to impact or the
    background frequency in use is absent, zero or negative. *)
Theorem X18_recalc_no_scale (f : PalermoCalculator.Form) :
  let r := PalermoCalculator.recalc f in
  let missing (n : Js.num) := n = Js.NaN \/ exists x, n = Js.Num x /\ x <= 0 in
  (PalermoCalculator.out_PS r = Js.NaN <->
   missing (PalermoCalculator.calc_pi f) \/ missing (PalermoCalculator.calc_ti f) \/
   missing (PalermoCalculator.out_fb r)) /\
  (PalermoCalculator.out_interp r = "—"%string <->
   PalermoCalculator.out_PS r = Js.NaN).
Proof.
  cbv zeta.
  destruct (recalc_PS f) as [HPS Hint].
  split; [rewrite HPS; apply palermoScale_NaN |].
  rewrite Hint; unfold PalermoCalculator.interpretation.
  destruct (PalermoCalculator.out_PS (PalermoCalculator.recalc f)) as [| PS].
  - split; reflexivity.
  - destruct (Js.gtb PS 0); [split; discriminate |].
    destruct (Js.gtb PS (-2)); split; discriminate.
Qed.

(** ** The propagator: symmetries, periodicity, accuracy and distances *)

Section MorePropagatorFacts.
Import Js THREE Model Kepler.

Lemma cos_turns (x : R) (k : Z) : cos (x + 2 * IZR k * PI) = cos x.
Proof.
  destruct (Z_le_gt_dec 0 k) as [Hk | Hk].
  - rewrite <- (Z2Nat.id k Hk), <- INR_IZR_INZ; apply cos_period.
  - rewrite <- (cos_period (x + 2 * IZR k * PI) (Z.to_nat (- k))).
    rewrite INR_IZR_INZ, Z2Nat.id, opp_IZR by lia.
    f_equal; ring.
Qed.

Lemma sin_turns (x : R) (k : Z) : sin (x + 2 * IZR k * PI) = sin x.
Proof.
  destruct (Z_le_gt_dec 0 k) as [Hk | Hk].
  - rewrite <- (Z2Nat.id k Hk), <- INR_IZR_INZ; apply sin_period.
  - rewrite <- (sin_period (x + 2 * IZR k * PI) (Z.to_nat (- k))).
    rewrite INR_IZR_INZ, Z2Nat.id, opp_IZR by lia.
    f_equal; ring.
Qed.

Lemma newton_turns (M e E : R) (k : Z) :
  newton (M + 2 * IZR k * PI) e (E + 2 * IZR k * PI) = newton M e E + 2 * IZR k * PI.
Proof.
  unfold newton; rewrite sin_turns, cos_turns.
  replace (E + 2 * IZR k * PI - e * sin E - (M + 2 * IZR k * PI))
    with (E - e * sin E - M) by ring.
  ring.
Qed.

Lemma loop_turns (n : nat) (M e E : R) (k : Z) :
  solveKepler_loop n (M + 2 * IZR k * PI) e (E + 2 * IZR k * PI) =
  solveKepler_loop n M e E + 2 * IZR k * PI.
Proof.
  revert E; induction n as [| n IH]; intros E; [reflexivity |].
  rewrite !solveKepler_loop_S, newton_turns; apply IH.
Qed.

Lemma solveKepler_turns (M e : R) (k : Z) :
  solveKepler (M + 2 * IZR k * PI) e = solveKepler M e + 2 * IZR k * PI.
Proof. unfold solveKepler; exact (loop_turns 7 M e M k). Qed.

Lemma solveKepler_opp (M e : R) : solveKepler (- M) e = - solveKepler M e.
Proof. unfold solveKepler; exact (loop_opp 7 M e M). Qed.

Lemma degToRad_turns (x : R) (k : Z) :
  degToRad (x + 360 * IZR k) = degToRad x + 2 * IZR k * PI.
Proof. unfold degToRad, DEG2RAD; field. Qed.

(** The remainder differs from the dividend by a whole multiple of the
    divisor. *)
Lemma rem_whole (a b : R) : rem a b = a - b * IZR (trunc (a / b)).
Proof. reflexivity. Qed.

(** Mean anomalies that differ by whole turns give the same orbital-plane
    coordinates. *)
Lemma orbit_plane_turns (currentScale : Scale) (data : Body) (M : R) (k : Z) :
  let E := solveKepler (degToRad M) (e data) in
  let E' := solveKepler (degToRad (M + 360 * IZR k)) (e data) in
  x_orb currentScale data E' = x_orb currentScale data E /\
  y_orb currentScale data E' = y_orb currentScale data E.
Proof.
  cbv zeta; rewrite degToRad_turns, solveKepler_turns.
  unfold x_orb, y_orb; rewrite cos_turns, sin_turns; split; reflexivity.
Qed.

(** One orbital period later the mean anomaly has moved by whole turns. *)
Lemma meanAnomaly_period (data : Body) (days : R) :
  orbitalPeriod data <> 0 ->
  exists k : Z,
    meanAnomaly data (days + orbitalPeriod data) =
    meanAnomaly data days + 360 * IZR k.
Proof.
  intros HP; unfold meanAnomaly; cbv zeta.
  set (x := L data - varpi data + 360 / orbitalPeriod data * days).
  replace (L data - varpi data +
           360 / orbitalPeriod data * (days + orbitalPeriod data))
    with (x + 360) by (unfold x; field; exact HP).
  exists (1 + trunc (x / 360) - trunc ((x + 360) / 360))%Z.
  rewrite !rem_whole, minus_IZR, plus_IZR; ring.
Qed.

Lemma eccentricAnomaly_period (currentScale : Scale) (data : Body) (days : R) :
  orbitalPeriod data <> 0 ->
  x_orb currentScale data (eccentricAnomaly data (days + orbitalPeriod data)) =
    x_orb currentScale data (eccentricAnomaly data days) /\
  y_orb currentScale data (eccentricAnomaly data (days + orbitalPeriod data)) =
    y_orb currentScale data (eccentricAnomaly data days).
Proof.
  intros HP; destruct (meanAnomaly_period data days HP) as (k & Hk).
  unfold eccentricAnomaly; rewrite Hk.
  apply (orbit_plane_turns currentScale data (meanAnomaly data days) k).
Qed.

(** Kepler's equation has at most one solution when [e < 1]. *)
Lemma kepler_root_unique (e M E1 E2 : R) :
  0 <= e < 1 -> E1 - e * sin E1 = M -> E2 - e * sin E2 = M -> E1 = E2.
Proof.
  intros He H1 H2.
  assert (Hs := sin_lipschitz E1 E2).
  assert (Hd : E1 - E2 = e * (sin E1 - sin E2)) by lra.
  assert (Ha : Rabs (E1 - E2) <= e * Rabs (E1 - E2)).
  { rewrite Hd at 1; rewrite Rabs_mult, (Rabs_pos_eq e) by lra.
    apply Rmult_le_compat_l; [lra | exact Hs]. }
  assert (H0 := Rabs_pos (E1 - E2)).
  assert (Hz : Rabs (E1 - E2) = 0) by nra.
  destruct (Req_dec (E1 - E2) 0) as [H | H]; [lra |].
  apply Rabs_no_R0 in H; contradiction.
Qed.

(** The distance of the solver's result to the solution, for a mean anomaly
    in [[0, PI]]. *)
Lemma accuracy_principal (e M : R) :
  0 <= e <= 0.95 -> 0 <= M <= PI ->
  exists Es, Es - e * sin Es = M /\ Rabs (solveKepler M e - Es) <= 5e-7.
Proof.
  intros He HM.
  destruct (kepler_root e M HM) as (Es & HEs & Hroot).
  exists Es; split; [exact Hroot |].
  unfold solveKepler.
  replace M with (Es + - (e * sin Es)) at 2 by lra.
  rewrite <- Hroot, loop_error by lra.
  replace (Es + err_loop 7 e Es (- (e * sin Es)) - Es)
    with (err_loop 7 e Es (- (e * sin Es))) by ring.
  apply error_after_seven; assumption.
Qed.

Lemma accuracy_half_turn (e M : R) :
  0 <= e <= 0.95 -> - PI <= M <= PI ->
  exists Es, Es - e * sin Es = M /\ Rabs (solveKepler M e - Es) <= 5e-7.
Proof.
  intros He HM.
  destruct (Rle_dec 0 M) as [H0 | H0]; [apply accuracy_principal; lra |].
  destruct (accuracy_principal e (- M) He) as (Es & Hroot & Hacc); [lra |].
  exists (- Es); split; [rewrite sin_neg; lra |].
  replace M with (- - M) by ring.
  rewrite solveKepler_opp.
  replace (- solveKepler (- M) e - - Es) with (- (solveKepler (- M) e - Es)) by ring.
  rewrite Rabs_Ropp; exact Hacc.
Qed.

Lemma accuracy_all (e M : R) :
  0 <= e <= 0.95 ->
  exists Es, Es - e * sin Es = M /\ Rabs (solveKepler M e - Es) <= 5e-7.
Proof.
  intros He.
  set (k := Int_part ((M + PI) / (2 * PI))).
  assert (HPI := PI_RGT_0).
  destruct (base_Int_part ((M + PI) / (2 * PI))) as [H1 H2]; fold k in H1, H2.
  assert (Hq : 2 * PI * IZR k <= M + PI < 2 * PI * IZR k + 2 * PI).
  { assert (E : M + PI = 2 * PI * ((M + PI) / (2 * PI))) by (field; lra).
    split; nra. }
  destruct (accuracy_half_turn e (M - 2 * IZR k * PI) He) as (Es & Hroot & Hacc);
    [lra |].
  exists (Es + 2 * IZR k * PI); split; [rewrite sin_turns; lra |].
  replace M with (M - 2 * IZR k * PI + 2 * IZR k * PI) at 1 by ring.
  rewrite solveKepler_turns.
  replace (solveKepler (M - 2 * IZR k * PI) e + 2 * IZR k * PI -
           (Es + 2 * IZR k * PI))
    with (solveKepler (M - 2 * IZR k * PI) e - Es) by ring.
  exact Hacc.
Qed.

(** The residual bound of the solver, for every mean anomaly. *)
Lemma solveKepler_residual_bound (e M : R) :
  0 <= e <= 0.95 ->
  Rabs (Spec.keplerResidual M e (solveKepler M e)) < 1e-6.
Proof.
  intros He.
  destruct (accuracy_all e M He) as (Es & Hroot & Hacc).
  replace (solveKepler M e) with (Es + (solveKepler M e - Es)) by ring.
  rewrite <- Hroot.
  eapply Rle_lt_trans; [apply residual_error; lra |].
  assert (H0 := Rabs_pos (solveKepler (Es - e * sin Es) e - Es)).
  rewrite Hroot in *.
  nra.
Qed.

(** Rotations and the axis change keep lengths. *)
Lemma lengthSq_R_z (t : R) (v : Vector3) : lengthSq (Spec.R_z t v) = lengthSq v.
Proof.
  unfold lengthSq, Spec.R_z; cbn [x y z].
  assert (H := sin2_cos2 t); unfold Rsqr in H.
  transitivity ((x v * x v + y v * y v) * (sin t * sin t + cos t * cos t) + z v * z v);
    [ring | rewrite H; ring].
Qed.

Lemma lengthSq_R_x (t : R) (v : Vector3) : lengthSq (Spec.R_x t v) = lengthSq v.
Proof.
  unfold lengthSq, Spec.R_x; cbn [x y z].
  assert (H := sin2_cos2 t); unfold Rsqr in H.
  transitivity (x v * x v + (y v * y v + z v * z v) * (sin t * sin t + cos t * cos t));
    [ring | rewrite H; ring].
Qed.

Lemma lengthSq_toThree (v : Vector3) : lengthSq (Spec.toThree v) = lengthSq v.
Proof. unfold lengthSq, Spec.toThree; cbn [x y z]; ring. Qed.

Lemma lengthSq_rotation (Omega i omega : R) (v : Vector3) :
  lengthSq (Spec.toThree (Spec.rotation Omega i omega v)) = lengthSq v.
Proof.
  unfold Spec.rotation.
  rewrite lengthSq_toThree, lengthSq_R_z, lengthSq_R_x, lengthSq_R_z; reflexivity.
Qed.

(** The squared distance to the focus in the orbital plane. *)
Lemma orbit_plane_lengthSq (currentScale : Scale) (data : Body) (E : R) :
  0 <= e data < 1 ->
  lengthSq {| x := x_orb currentScale data E; y := y_orb currentScale data E; z := 0 |} =
  (distance currentScale (a data) * (1 - e data * cos E)) ^ 2.
Proof.
  intros He; unfold lengthSq, x_orb, y_orb; cbn [x y z].
  set (a_s := distance currentScale (a data)).
  assert (Hs : sqrt (1 - e data ^ 2) * sqrt (1 - e data ^ 2) = 1 - e data ^ 2)
    by (apply sqrt_sqrt; nra).
  assert (Hsc := sin2_cos2 E); unfold Rsqr in Hsc.
  transitivity (a_s * a_s * ((cos E - e data) ^ 2 +
                  (sqrt (1 - e data ^ 2) * sqrt (1 - e data ^ 2)) * (sin E * sin E)));
    [ring |].
  rewrite Hs.
  replace (sin E * sin E) with (1 - cos E * cos E) by lra.
  ring.
Qed.

End MorePropagatorFacts.

(** X19.  The distance from a body to the Sun that [updatePositions]
    produces is [a_s (1 - e cos E)], in [model.js] and in its sibling copy
    alike: the rotation keeps lengths whichever angle it turns by.  For
    [0 <= e < 1] the body therefore never comes closer than the perihelion
    distance [a_s (1 - e)] nor goes farther than the aphelion distance
    [a_s (1 + e)]. *)
Theorem X19_heliocentric_distance (currentScale : Model.Scale) (data : Model.Body)
    (days : R) :
  0 <= Model.e data < 1 ->
  let a_s := Model.distance currentScale (Model.a data) in
  let e := Model.e data in
  let E := Model.eccentricAnomaly data days in
  THREE.lengthSq (Model.bodyPosition currentScale data days) =
    (a_s * (1 - e * cos E)) ^ 2 /\
  THREE.lengthSq (ModelCopy.bodyPosition currentScale data days) =
    (a_s * (1 - e * cos E)) ^ 2 /\
  (a_s * (1 - e)) ^ 2 <= (a_s * (1 - e * cos E)) ^ 2 <= (a_s * (1 + e)) ^ 2.
Proof.
  intros He a_s e E.
  split; [| split].
  - unfold Model.bodyPosition; rewrite Model_rotateOrbitPlane, lengthSq_rotation.
    apply orbit_plane_lengthSq; exact He.
  - unfold ModelCopy.bodyPosition; rewrite ModelCopy_rotateOrbitPlane, lengthSq_rotation.
    apply orbit_plane_lengthSq; exact He.
  - assert (Hc := COS_bound E).
    assert (H1 : 0 <= 1 - e <= 1 - e * cos E) by (unfold e; split; nra).
    assert (H2 : 1 - e * cos E <= 1 + e) by (unfold e; nra).
    assert (Ha : 0 <= a_s ^ 2) by apply pow2_ge_0.
    rewrite !Rpow_mult_distr.
    split; apply Rmult_le_compat_l; try exact Ha; apply pow_incr; lra.
Qed.

Lemma X19_heliocentric_distance_witness :
  THREE.lengthSq (Model.bodyPosition Model.trueScale Model.mercury 0) =
    (Model.distance Model.trueScale (Model.a Model.mercury) *
     (1 - Model.e Model.mercury * cos (Model.eccentricAnomaly Model.mercury 0))) ^ 2.
Proof.
  apply (X19_heliocentric_distance Model.trueScale Model.mercury 0).
  simpl; lra.
Defined.

(** X20.  [solveKepler] commutes with whole turns and with a change of
    sign of the mean anomaly: for [0 <= e < 1] and every whole number [k],
    [solveKepler(M + 2 k pi, e) = solveKepler(M, e) + 2 k pi] and
    [solveKepler(-M, e) = -solveKepler(M, e)]. *)
Theorem X20_solveKepler_symmetries (M e : R) (k : Z) :
  0 <= e < 1 ->
  Model.solveKepler (M + 2 * IZR k * PI) e = Model.solveKepler M e + 2 * IZR k * PI /\
  Model.solveKepler (- M) e = - Model.solveKepler M e.
Proof.
  intros _; split; [apply solveKepler_turns | apply solveKepler_opp].
Qed.

Lemma X20_solveKepler_symmetries_witness :
  Model.solveKepler (1 + 2 * IZR 3 * PI) 0.5 = Model.solveKepler 1 0.5 + 2 * IZR 3 * PI /\
  Model.solveKepler (- 1) 0.5 = - Model.solveKepler 1 0.5.
Proof.
  apply (X20_solveKepler_symmetries 1 0.5 3); lra.
Defined.

(** X21.  Orbits close: for a body with [0 <= e < 1] and a nonzero orbital
    period, the position that [updatePositions] computes one orbital period
    later is the same position, in [model.js] and in its sibling copy.  In
    particular the sign that the remainder gives the mean anomaly before
    the epoch does not move the body. *)
Theorem X21_position_is_periodic (currentScale : Model.Scale) (data : Model.Body)
    (days : R) :
  0 <= Model.e data < 1 -> Model.orbitalPeriod data <> 0 ->
  Model.bodyPosition currentScale data (days + Model.orbitalPeriod data) =
    Model.bodyPosition currentScale data days /\
  ModelCopy.bodyPosition currentScale data (days + Model.orbitalPeriod data) =
    ModelCopy.bodyPosition currentScale data days.
Proof.
  intros _ HP.
  destruct (eccentricAnomaly_period currentScale data days HP) as [Hx Hy].
  unfold Model.bodyPosition, ModelCopy.bodyPosition.
  rewrite Hx, Hy; split; reflexivity.
Qed.

Lemma X21_position_is_periodic_witness :
  Model.bodyPosition Model.trueScale Model.earth (10 + Model.orbitalPeriod Model.earth) =
    Model.bodyPosition Model.trueScale Model.earth 10.
Proof.
  apply (X21_position_is_periodic Model.trueScale Model.earth 10); simpl; lra.
Defined.

(** X22.  For [0 <= e <= 0.95] and every mean anomaly [M], Kepler's
    equation [E - e sin E = M] has exactly one solution, and the value
    returned by [solveKepler(M, e)] is within [5e-7] radians of it. *)
Theorem X22_solveKepler_accuracy (e M : R) :
  0 <= e <= 0.95 ->
  exists Es,
    Es - e * sin Es = M /\
    (forall E', E' - e * sin E' = M -> E' = Es) /\
    Rabs (Model.solveKepler M e - Es) <= 5e-7.
Proof.
  intros He.
  destruct (accuracy_all e M He) as (Es & Hroot & Hacc).
  exists Es; split; [exact Hroot |]; split; [| exact Hacc].
  intros E' HE'; apply (kepler_root_unique e M); [lra | exact HE' | exact Hroot].
Qed.

Lemma X22_solveKepler_accuracy_witness :
  exists Es,
    Es - 0.5 * sin Es = 1 /\
    (forall E', E' - 0.5 * sin E' = 1 -> E' = Es) /\
    Rabs (Model.solveKepler 1 0.5 - Es) <= 5e-7.
Proof.
  apply (X22_solveKepler_accuracy 0.5 1); lra.
Defined.

(** ** Near-Earth objects, scales, orbit lines, the clock and the slider *)

Section NeoFacts.
Import Js THREE Model.

Lemma Math_sqrt_nonneg (x : R) : 0 <= x -> Math_sqrt x = Num (sqrt x).
Proof.
  intros H; unfold Math_sqrt; destruct (Rlt_dec x 0); [lra | reflexivity].
Qed.

Lemma Math_sqrt_neg (x : R) : x < 0 -> Math_sqrt x = NaN.
Proof.
  intros H; unfold Math_sqrt; destruct (Rlt_dec x 0); [reflexivity | lra].
Qed.

Lemma cube_nonneg (x : R) : 0 <= x -> 0 <= x ^ 3.
Proof. intros H; apply pow_le; exact H. Qed.

Lemma cube_neg (x : R) : x < 0 -> x ^ 3 < 0.
Proof.
  intros H; assert (H2 : 0 < x * x) by nra.
  simpl; nra.
Qed.

(** The elements read from the [userData] that [createNEOs] builds. *)
Lemma createNEOs_body (data : NeoData.t) :
  0 <= NeoData.a data ->
  body_of (createNEOs_userData data) =
  Some {| a := NeoData.a data; e := NeoData.e data; i := NeoData.i data;
          L := UserData.L (createNEOs_userData data);
          varpi := NeoData.varpi data; Omega := NeoData.Omega data;
          orbitalPeriod := sqrt (NeoData.a data ^ 3) * 365.25 |}.
Proof.
  intros Ha; unfold body_of.
  cbn [createNEOs_userData UserData.orbitalPeriod UserData.a UserData.e UserData.i
         UserData.varpi UserData.Omega].
  rewrite Math_sqrt_nonneg by (apply cube_nonneg; exact Ha).
  reflexivity.
Qed.

Lemma fallback_body (u : Draws) :
  0 <= u_a u ->
  body_of (createNEOsRandomFallback_userData u) =
  Some {| a := u_a u * 3 + 0.5; e := u_e u * 0.7 + 0.1; i := u_inc u * 20;
          L := rem (u_M0 u * 360 + u_varpi u * 360) 360;
          varpi := u_varpi u * 360; Omega := u_Omega u * 360;
          orbitalPeriod := sqrt ((u_a u * 3 + 0.5) ^ 3) * 365.25 |}.
Proof.
  intros Ha; unfold body_of.
  cbn [createNEOsRandomFallback_userData UserData.orbitalPeriod UserData.a UserData.e
         UserData.i UserData.L UserData.varpi UserData.Omega].
  rewrite Math_sqrt_nonneg by (apply cube_nonneg; lra).
  reflexivity.
Qed.

Lemma sqrt_lower (x c : R) : 0 <= c -> c * c < x -> c < sqrt x.
Proof.
  intros Hc H; apply Rle_lt_trans with (sqrt (c * c));
    [rewrite sqrt_square by exact Hc; lra |].
  apply sqrt_lt_1_alt; split; [nra | exact H].
Qed.

Lemma sqrt_upper (x c : R) : 0 <= x -> 0 <= c -> x < c * c -> sqrt x < c.
Proof.
  intros Hx Hc H; apply Rlt_le_trans with (sqrt (c * c));
    [| rewrite sqrt_square by exact Hc; lra].
  apply sqrt_lt_1_alt; split; [exact Hx | exact H].
Qed.

End NeoFacts.

(** X23.  The elements that [createNEOs] stores for an entry of [neoData]
    given by its mean anomaly at epoch [M0].  The entry's [a], [e], [i],
    [Omega], [varpi] are kept and the radius is 0.8.  For a positive
    semi-major axis the period follows Kepler's third law,
    [period^2 = a^3 * 365.25^2] days.  The mean longitude stored is
    [(M0 + varpi) % 360], so the mean anomaly that [updatePositions]
    recovers, [L - varpi], is [M0] up to whole turns, and so is the mean
    anomaly at any time.  For a negative semi-major axis the period is
    [NaN]. *)
Theorem X23_createNEOs_elements (data : Model.NeoData.t) (M0 : R) :
  Model.NeoData.M0 data = Some M0 ->
  let u := Model.createNEOs_userData data in
  Model.UserData.enhancedRadius u = 0.8 /\
  (Model.NeoData.a data < 0 -> Model.UserData.orbitalPeriod u = Js.NaN) /\
  (0 < Model.NeoData.a data ->
   exists body,
     Model.body_of u = Some body /\
     Model.a body = Model.NeoData.a data /\ Model.e body = Model.NeoData.e data /\
     Model.i body = Model.NeoData.i data /\
     Model.Omega body = Model.NeoData.Omega data /\
     Model.varpi body = Model.NeoData.varpi data /\
     0 < Model.orbitalPeriod body /\
     Model.orbitalPeriod body ^ 2 = Model.NeoData.a data ^ 3 * 365.25 ^ 2 /\
     (exists k : Z, Model.L body - Model.varpi body = M0 - 360 * IZR k) /\
     (forall days, exists k : Z,
        Model.meanAnomaly body days =
        M0 + 360 / Model.orbitalPeriod body * days - 360 * IZR k)).
Proof.
  intros HM0 u.
  split; [reflexivity |]; split.
  - intros Ha; unfold u;
      cbn [Model.createNEOs_userData Model.UserData.orbitalPeriod].
    rewrite Math_sqrt_neg by (apply cube_neg; exact Ha); reflexivity.
  - intros Ha; eexists; split; [apply createNEOs_body; lra |].
    cbn [Model.a Model.e Model.i Model.Omega Model.varpi Model.orbitalPeriod Model.L].
    assert (H3 : 0 < Model.NeoData.a data ^ 3) by (apply pow_lt; exact Ha).
    assert (Hs : 0 < sqrt (Model.NeoData.a data ^ 3)) by (apply sqrt_lt_R0; exact H3).
    assert (HL : Model.UserData.L (Model.createNEOs_userData data) =
                 M0 + Model.NeoData.varpi data -
                 360 * IZR (Js.trunc ((M0 + Model.NeoData.varpi data) / 360))).
    { cbn [Model.createNEOs_userData Model.UserData.L]; rewrite HM0; reflexivity. }
    repeat (split; [reflexivity |]).
    split; [lra |].
    split.
    { rewrite Rpow_mult_distr, pow2_sqrt by lra; reflexivity. }
    split.
    { exists (Js.trunc ((M0 + Model.NeoData.varpi data) / 360)); rewrite HL; ring. }
    intros days; unfold Model.meanAnomaly;
      cbn [Model.L Model.varpi Model.orbitalPeriod].
    rewrite rem_whole, HL.
    set (k1 := Js.trunc ((M0 + Model.NeoData.varpi data) / 360)).
    match goal with |- context [Js.trunc ?q] => set (k2 := Js.trunc q) end.
    exists (k1 + k2)%Z; rewrite plus_IZR; ring.
Qed.

Lemma X23_createNEOs_elements_witness :
  Model.UserData.enhancedRadius
    (Model.createNEOs_userData
       {| Model.NeoData.name := "1979 XB"; Model.NeoData.a := 2.23;
          Model.NeoData.e := 0.708; Model.NeoData.i := 24.7;
          Model.NeoData.Omega := 86.1; Model.NeoData.varpi := 75.6;
          Model.NeoData.M0 := Some 2444267.667; Model.NeoData.L := None |}) = 0.8.
Proof.
  apply (X23_createNEOs_elements
           {| Model.NeoData.name := "1979 XB"; Model.NeoData.a := 2.23;
              Model.NeoData.e := 0.708; Model.NeoData.i := 24.7;
              Model.NeoData.Omega := 86.1; Model.NeoData.varpi := 75.6;
              Model.NeoData.M0 := Some 2444267.667; Model.NeoData.L := None |}
           2444267.667 eq_refl).
Defined.

(** X24.  Every NEO of the random fallback, whatever [Math.random]
    returns (values in [[0, 1)]), has a semi-major axis in [[0.5, 3.5)] AU,
    an eccentricity in [[0.1, 0.8)], an inclination in [[0, 20)] degrees,
    a mean longitude, node and perihelion longitude in [[0, 360)], a
    radius in [[0.5, 2)] and a period between 129 and 2392 days.  Its
    eccentricity is thus within the range on which the seven Newton steps
    are accurate: at every time its eccentric anomaly solves Kepler's
    equation to within [1e-6]. *)
Theorem X24_fallback_neo_ranges (u : Model.Draws) :
  0 <= Model.u_radius u < 1 -> 0 <= Model.u_a u < 1 -> 0 <= Model.u_e u < 1 ->
  0 <= Model.u_inc u < 1 -> 0 <= Model.u_M0 u < 1 -> 0 <= Model.u_Omega u < 1 ->
  0 <= Model.u_varpi u < 1 ->
  exists body,
    Model.body_of (Model.createNEOsRandomFallback_userData u) = Some body /\
    0.5 <= Model.a body < 3.5 /\ 0.1 <= Model.e body < 0.8 /\
    0 <= Model.i body < 20 /\ 0 <= Model.L body < 360 /\
    0 <= Model.Omega body < 360 /\ 0 <= Model.varpi body < 360 /\
    0.5 <= Model.UserData.enhancedRadius (Model.createNEOsRandomFallback_userData u) < 2 /\
    129 < Model.orbitalPeriod body < 2392 /\
    forall days,
      let M := THREE.degToRad (Model.meanAnomaly body days) in
      let E := Model.eccentricAnomaly body days in
      Rabs (E - Model.e body * sin E - M) < 1e-6.
Proof.
  intros Hr Ha He Hi HM HO Hv.
  eexists; split; [apply fallback_body; lra |].
  cbn [Model.a Model.e Model.i Model.L Model.Omega Model.varpi Model.orbitalPeriod
         Model.createNEOsRandomFallback_userData Model.UserData.enhancedRadius].
  split; [lra |]. split; [lra |]. split; [lra |].
  split; [apply rem_nonneg; lra |].
  split; [lra |]. split; [lra |]. split; [lra |].
  split.
  - set (a := Model.u_a u * 3 + 0.5).
    assert (Hab : 0.5 <= a < 3.5) by (unfold a; lra).
    assert (H3 : 0.125 <= a ^ 3 < 42.875).
    { split.
      - replace 0.125 with (0.5 ^ 3) by lra. apply pow_incr; lra.
      - replace 42.875 with (3.5 ^ 3) by lra. apply cube_lt; lra. }
    assert (H1 : 0.3535 < sqrt (a ^ 3)) by (apply sqrt_lower; lra).
    assert (H2 : sqrt (a ^ 3) < 6.548) by (apply sqrt_upper; lra).
    lra.
  - intros days; cbv zeta.
    apply (solveKepler_residual_bound (Model.u_e u * 0.7 + 0.1)); lra.
Qed.

Lemma X24_fallback_neo_ranges_witness :
  exists body,
    Model.body_of
      (Model.createNEOsRandomFallback_userData
         {| Model.u_radius := 0; Model.u_a := 0; Model.u_e := 0; Model.u_inc := 0;
            Model.u_M0 := 0; Model.u_Omega := 0; Model.u_varpi := 0 |}) = Some body /\
    0.1 <= Model.e body < 0.8.
Proof.
  destruct (X24_fallback_neo_ranges
              {| Model.u_radius := 0; Model.u_a := 0; Model.u_e := 0; Model.u_inc := 0;
                 Model.u_M0 := 0; Model.u_Omega := 0; Model.u_varpi := 0 |})
    as (body & Hb & _ & He & _); try (simpl; lra).
  exists body; split; assumption.
Defined.

Section ScaleFacts.
Import Js THREE Model.

Lemma log10_nonneg (x : R) : 1 <= x -> 0 <= log10 x.
Proof.
  intros [H | <-]; [| rewrite log10_1; lra].
  rewrite <- log10_1; left; apply log10_lt; lra.
Qed.

End ScaleFacts.

(** X25.  The enhanced scale keeps the order of the orbits.  On
    semi-major axes of at least a million kilometres
    ([d * AU >= 1e6], about 0.0067 AU) the scene distance
    [enhancedScale.distance] is positive and strictly increasing. *)
Theorem X25_enhancedScale_distance (d d' : R) :
  1e6 <= d * Model.AU -> d < d' ->
  0 < Model.distance Model.enhancedScale d /\
  Model.distance Model.enhancedScale d < Model.distance Model.enhancedScale d'.
Proof.
  intros Hd Hlt; cbn [Model.distance Model.enhancedScale].
  assert (HAU : 0 < Model.AU) by (unfold Model.AU; lra).
  assert (Hdpos : 0 < d) by (unfold Model.AU in *; nra).
  assert (HL : 0 <= Js.log10 (d * Model.AU / 1e6)) by (apply log10_nonneg; lra).
  assert (HL' : Js.log10 (d * Model.AU / 1e6) < Js.log10 (d' * Model.AU / 1e6)).
  { apply log10_lt; [lra |].
    apply Rmult_lt_compat_r; [lra |]. apply Rmult_lt_compat_r; assumption. }
  assert (HK : 0 < Js.log10 (d * Model.AU / 1e4)).
  { rewrite <- log10_1; apply log10_lt; lra. }
  assert (HK' : Js.log10 (d * Model.AU / 1e4) < Js.log10 (d' * Model.AU / 1e4)).
  { apply log10_lt; [lra |].
    apply Rmult_lt_compat_r; [lra |]. apply Rmult_lt_compat_r; assumption. }
  assert (Hc := cbrt_pos _ HK).
  assert (Hc' := cbrt_lt _ _ HK HK').
  assert (Hs : 0 < sqrt d) by (apply sqrt_lt_R0; exact Hdpos).
  assert (Hs' : sqrt d < sqrt d') by (apply sqrt_lt_1_alt; lra).
  set (l := Js.log10 (d * Model.AU / 1e6)) in *.
  set (l' := Js.log10 (d' * Model.AU / 1e6)) in *.
  set (c := Js.cbrt (Js.log10 (d * Model.AU / 1e4))) in *.
  set (c' := Js.cbrt (Js.log10 (d' * Model.AU / 1e4))) in *.
  clearbody l l' c c'.
  assert (H0 : 0 <= l * sqrt d) by (apply Rmult_le_pos; lra).
  assert (H1 : l * sqrt d < l' * sqrt d').
  { apply Rle_lt_trans with (l * sqrt d'); [apply Rmult_le_compat_l; lra |].
    apply Rmult_lt_compat_r; lra. }
  split; lra.
Qed.

Lemma X25_enhancedScale_distance_witness :
  0 < Model.distance Model.enhancedScale 1 /\
  Model.distance Model.enhancedScale 1 < Model.distance Model.enhancedScale 2.
Proof.
  apply (X25_enhancedScale_distance 1 2); unfold Model.AU; lra.
Defined.

Section OrbitLineFacts.
Import Js THREE Model.

(** The three nested groups turn a vertex like the rotation
    [R_z(Omega) . R_x(i) . R_z(omega)] of the ecliptic frame. *)
Lemma groupWorldPosition_rotation (Omega_deg i_deg omega_deg px py : R) :
  groupWorldPosition Omega_deg i_deg omega_deg {| x := px; y := 0; z := - py |} =
  Spec.toThree
    (Spec.rotation (degToRad Omega_deg) (degToRad i_deg) (degToRad omega_deg)
       {| x := px; y := py; z := 0 |}).
Proof.
  unfold groupWorldPosition, Spec.toThree, Spec.rotation, Spec.R_z, Spec.R_x,
    applyMatrix4, makeRotationY, makeRotationX.
  cbn [x y z n11 n12 n13 n14 n21 n22 n23 n24 n31 n32 n33 n34 n41 n42 n43 n44].
  apply Vector3_eq; field_simplify; try reflexivity; lra.
Qed.

(** The point of an orbit curve at the parameter of an eccentric
    anomaly. *)
Lemma orbit_vertex_at (currentScale : Scale) (data : Body) (E : R) :
  transformPoint (getPoint (orbitCurve currentScale (a data) (e data)) (E / (PI * 2))) =
  {| x := x_orb currentScale data E; y := 0; z := - y_orb currentScale data E |}.
Proof.
  assert (HPI := PI_RGT_0).
  unfold transformPoint, getPoint, orbitCurve, x_orb, y_orb; cbv zeta;
    cbn [Vector2.x Vector2.y aX aY xRadius yRadius].
  replace (0 + E / (PI * 2) * (PI * 2)) with E by (field; lra).
  apply Vector3_eq; ring.
Qed.

(** Every eccentric anomaly is the angle of a parameter in [[0, 1)], up to
    whole turns. *)
Lemma curve_parameter (E : R) :
  exists (t : R) (k : Z), 0 <= t < 1 /\ E = t * (PI * 2) + 2 * IZR k * PI.
Proof.
  assert (HPI := PI_RGT_0).
  destruct (base_Int_part (E / (PI * 2))) as [H1 H2].
  exists (E / (PI * 2) - IZR (Int_part (E / (PI * 2)))), (Int_part (E / (PI * 2))).
  split; [lra | field; lra].
Qed.

Lemma orbit_vertex_turns (currentScale : Scale) (data : Body) (t : R) (k : Z) :
  transformPoint (getPoint (orbitCurve currentScale (a data) (e data)) t) =
  {| x := x_orb currentScale data (t * (PI * 2) + 2 * IZR k * PI); y := 0;
     z := - y_orb currentScale data (t * (PI * 2) + 2 * IZR k * PI) |}.
Proof.
  unfold transformPoint, getPoint, orbitCurve, x_orb, y_orb; cbv zeta;
    cbn [Vector2.x Vector2.y aX aY xRadius yRadius].
  rewrite cos_turns, sin_turns, Rplus_0_l.
  apply Vector3_eq; ring.
Qed.

Lemma In_transformedPoints (currentScale : Scale) (a_au e_ : R) (divisions : nat)
    (v : Vector3) :
  In v (transformedPoints currentScale a_au e_ divisions) ->
  exists d : nat,
    (d <= divisions)%nat /\
    v = transformPoint
          (getPoint (orbitCurve currentScale a_au e_) (INR d / INR divisions)).
Proof.
  unfold transformedPoints, getPoints; rewrite map_map.
  intros H; apply in_map_iff in H; destruct H as (d & Hd & Hin).
  apply in_seq in Hin; exists d; split; [lia | symmetry; exact Hd].
Qed.

End OrbitLineFacts.

(** X26.  In the sibling copy of the viewer a planet moves along the orbit
    line drawn for it.  The position that [updatePositions] gives a planet
    is, at every time, the point of its orbit curve at some parameter in
    [[0, 1)], placed by the three rotation groups of [createPlanets]; and
    each of the 201 vertices of the line is the position of the planet at
    the eccentric anomaly [2 pi d / 200].  The eccentricity is taken in
    [[0, 1)], where [Math.sqrt(1 - e ** 2)] is a number. *)
Theorem X26_planet_on_its_orbit_line (currentScale : Model.Scale) (data : Model.Body) :
  0 <= Model.e data < 1 ->
  let curve := Model.orbitCurve currentScale (Model.a data) (Model.e data) in
  (forall days, exists t,
     0 <= t < 1 /\
     ModelCopy.bodyPosition currentScale data days =
     Model.planetOrbitWorld data (Model.transformPoint (THREE.getPoint curve t))) /\
  (forall v,
     In v (map (Model.planetOrbitWorld data)
             (Model.transformedPoints currentScale (Model.a data) (Model.e data) 200)) ->
     exists d : nat,
       (d <= 200)%nat /\
       let E := 2 * PI * INR d / 200 in
       v = ModelCopy.rotateOrbitPlane data
             (Model.x_orb currentScale data E) (Model.y_orb currentScale data E)).
Proof.
  intros _ curve; split.
  - intros days.
    destruct (curve_parameter (Model.eccentricAnomaly data days)) as (t & k & Ht & HE).
    exists t; split; [exact Ht |].
    unfold curve; rewrite (orbit_vertex_turns currentScale data t k), <- HE.
    unfold Model.planetOrbitWorld; cbv zeta.
    rewrite groupWorldPosition_rotation.
    unfold ModelCopy.bodyPosition; rewrite ModelCopy_rotateOrbitPlane; reflexivity.
  - intros v Hv; apply in_map_iff in Hv; destruct Hv as (p & <- & Hp).
    apply In_transformedPoints in Hp; destruct Hp as (d & Hd & ->).
    exists d; split; [exact Hd |]; cbv zeta.
    assert (HPI := PI_RGT_0).
    replace (INR d / INR 200) with (2 * PI * INR d / 200 / (PI * 2))
      by (rewrite (INR_IZR_INZ 200); simpl; field; lra).
    rewrite orbit_vertex_at.
    unfold Model.planetOrbitWorld; cbv zeta.
    rewrite groupWorldPosition_rotation, ModelCopy_rotateOrbitPlane; reflexivity.
Qed.

Lemma X26_planet_on_its_orbit_line_witness :
  exists t,
    0 <= t < 1 /\
    ModelCopy.bodyPosition Model.trueScale Model.earth 0 =
    Model.planetOrbitWorld Model.earth
      (Model.transformPoint
         (THREE.getPoint
            (Model.orbitCurve Model.trueScale (Model.a Model.earth)
               (Model.e Model.earth)) t)).
Proof.
  apply (X26_planet_on_its_orbit_line Model.trueScale Model.earth).
  simpl; lra.
Defined.

(** X27.  In [model.js] a near-Earth object moves along the orbit line
    drawn for it: the groups of [createNEOs] and the matrix of
    [updatePositions] both turn by [varpi].  For an entry of [neoData]
    with a positive semi-major axis and an eccentricity in [[0, 1)],
    [updateScales] draws the line through the 101 points of the orbit
    curve, the period is positive, the position given to the object is, at
    every time, the point of the curve at some parameter in [[0, 1)],
    placed by its three rotation groups, and each vertex of the line is
    the position of the object at the eccentric anomaly [2 pi d / 100].
    With a semi-major axis of zero [updateScales] draws no line. *)
Theorem X27_neo_on_its_orbit_line (currentScale : Model.Scale) (data : Model.NeoData.t) :
  0 <= Model.NeoData.e data < 1 ->
  let u := Model.createNEOs_userData data in
  let curve :=
    Model.orbitCurve currentScale (Model.UserData.a u) (Model.UserData.e u) in
  (Model.NeoData.a data = 0 ->
   Model.updateScales_neoOrbitLine currentScale u = None) /\
  (0 < Model.NeoData.a data ->
   exists body line,
     Model.body_of u = Some body /\
     0 < Model.orbitalPeriod body /\
     Model.updateScales_neoOrbitLine currentScale u = Some line /\
     line = map Model.transformPoint (THREE.getPoints curve 100) /\
     (forall days, exists t,
        0 <= t < 1 /\
        Model.bodyPosition currentScale body days =
        Model.neoOrbitWorld data (Model.transformPoint (THREE.getPoint curve t))) /\
     (forall v,
        In v (map (Model.neoOrbitWorld data) line) ->
        exists d : nat,
          (d <= 100)%nat /\
          let E := 2 * PI * INR d / 100 in
          v = Model.rotateOrbitPlane body
                (Model.x_orb currentScale body E) (Model.y_orb currentScale body E))).
Proof.
  intros _ u curve; split.
  - intros Ha; unfold Model.updateScales_neoOrbitLine, Js.falsy.
    change (Model.UserData.a u) with (Model.NeoData.a data).
    destruct (Req_dec_T (Model.NeoData.a data) 0) as [_ | Hn];
      [reflexivity | contradiction].
  - intros Ha.
    assert (H3 : 0 < Model.NeoData.a data ^ 3) by (apply pow_lt; exact Ha).
    eexists; exists (map Model.transformPoint (THREE.getPoints curve 100)).
    split; [apply createNEOs_body; lra |].
    set (body := {| Model.a := Model.NeoData.a data |}).
    split.
    { cbn [body Model.orbitalPeriod].
      apply Rmult_lt_0_compat; [apply sqrt_lt_R0; exact H3 | lra]. }
    split.
    { unfold Model.updateScales_neoOrbitLine, Js.falsy.
      change (Model.UserData.a u) with (Model.NeoData.a data).
      destruct (Req_dec_T (Model.NeoData.a data) 0) as [H0 | _];
        [exfalso; lra | reflexivity]. }
    split; [reflexivity |].
    assert (Hc : curve = Model.orbitCurve currentScale (Model.a body) (Model.e body))
      by reflexivity.
    rewrite Hc; clear Hc.
    split.
    + intros days.
      destruct (curve_parameter (Model.eccentricAnomaly body days))
        as (t & k & Ht & HE).
      exists t; split; [exact Ht |].
      rewrite (orbit_vertex_turns currentScale body t k), <- HE.
      unfold Model.neoOrbitWorld; cbv zeta.
      rewrite groupWorldPosition_rotation.
      unfold Model.bodyPosition; rewrite Model_rotateOrbitPlane; reflexivity.
    + intros v Hv; apply in_map_iff in Hv; destruct Hv as (p & <- & Hp).
      apply In_transformedPoints in Hp; destruct Hp as (d & Hd & ->).
      exists d; split; [exact Hd |]; cbv zeta.
      assert (HPI := PI_RGT_0).
      replace (INR d / INR 100) with (2 * PI * INR d / 100 / (PI * 2))
        by (rewrite (INR_IZR_INZ 100); simpl; field; lra).
      rewrite orbit_vertex_at.
      unfold Model.neoOrbitWorld; cbv zeta.
      rewrite groupWorldPosition_rotation, Model_rotateOrbitPlane; reflexivity.
Qed.

Lemma X27_neo_on_its_orbit_line_witness :
  exists body,
    Model.body_of
      (Model.createNEOs_userData
         {| Model.NeoData.name := "2022 KK2"; Model.NeoData.a := 1.2;
            Model.NeoData.e := 0.513; Model.NeoData.i := 3.12;
            Model.NeoData.Omega := 58.9; Model.NeoData.varpi := 75.3;
            Model.NeoData.M0 := Some 2459660.086; Model.NeoData.L := None |}) =
    Some body /\
    0 < Model.orbitalPeriod body.
Proof.
  destruct (X27_neo_on_its_orbit_line Model.trueScale
              {| Model.NeoData.name := "2022 KK2"; Model.NeoData.a := 1.2;
                 Model.NeoData.e := 0.513; Model.NeoData.i := 3.12;
                 Model.NeoData.Omega := 58.9; Model.NeoData.varpi := 75.3;
                 Model.NeoData.M0 := Some 2459660.086; Model.NeoData.L := None |})
    as (_ & H); [simpl; lra |].
  destruct H as (body & line & Hb & Hp & _); [simpl; lra |].
  exists body; split; [exact Hb | exact Hp].
Defined.

Section ClockFacts.
Import Js THREE Model.

(** Truncation rounds toward zero: down on a non-negative argument, up on
    a non-positive one. *)
Lemma trunc_toward_zero (x : R) :
  (0 <= x -> IZR (trunc x) <= x < IZR (trunc x) + 1) /\
  (x <= 0 -> IZR (trunc x) - 1 < x <= IZR (trunc x)).
Proof.
  unfold trunc; destruct (Rle_dec 0 x) as [H | H].
  - destruct (base_Int_part x) as [H1 H2]; split; [intros _; lra |].
    intros Hx; assert (x = 0) by lra; subst x.
    assert (Hz : Int_part 0 = 0%Z).
    { apply Z.le_antisymm.
      - apply le_IZR; exact H1.
      - apply Z.lt_succ_r, lt_IZR; rewrite succ_IZR; lra. }
    rewrite Hz; lra.
  - destruct (base_Int_part (- x)) as [H1 H2]; rewrite opp_IZR.
    split; [intros Hx; lra | intros _; lra].
Qed.

(** Truncation does not go below a whole number that the argument is not
    below, nor above one that the argument is not above. *)
Lemma trunc_ge (t : Z) (x : R) : IZR t <= x -> (t <= trunc x)%Z.
Proof.
  intros H; unfold trunc; destruct (Rle_dec 0 x) as [H0 | H0].
  - destruct (base_Int_part x) as [H1 H2].
    apply Z.lt_succ_r, lt_IZR; rewrite succ_IZR; lra.
  - destruct (base_Int_part (- x)) as [H1 H2].
    apply le_IZR; rewrite opp_IZR; lra.
Qed.

Lemma trunc_le (t : Z) (x : R) : x <= IZR t -> (trunc x <= t)%Z.
Proof.
  intros H; unfold trunc; destruct (Rle_dec 0 x) as [H0 | H0].
  - destruct (base_Int_part x) as [H1 H2].
    apply le_IZR; lra.
  - destruct (base_Int_part (- x)) as [H1 H2].
    assert (Hlt : (- t - 1 < Int_part (- x))%Z)
      by (apply lt_IZR; rewrite minus_IZR, opp_IZR; lra).
    lia.
Qed.

Lemma new_Date_in_range (t : R) :
  Rabs t <= 8.64e15 -> new_Date (Num t) = ValidDate (trunc t).
Proof.
  intros H; unfold new_Date, gtb; rewrite ltb_false by exact H; reflexivity.
Qed.

Lemma new_Date_out_of_range (t : R) :
  8.64e15 < Rabs t -> new_Date (Num t) = InvalidDate.
Proof.
  intros H; unfold new_Date, gtb; rewrite ltb_true by exact H; reflexivity.
Qed.

(** A truncated value within the range of a date is itself within it. *)
Lemma trunc_in_range (t : R) :
  Rabs t <= 8.64e15 -> Rabs (IZR (trunc t)) <= 8.64e15.
Proof.
  intros H.
  assert (HN : 8.64e15 = IZR 8640000000000000) by lra.
  assert (Ht : - IZR 8640000000000000 <= t <= IZR 8640000000000000).
  { rewrite <- HN; split.
    - pose proof (Rle_abs (- t)) as Ha; rewrite Rabs_Ropp in Ha; lra.
    - pose proof (Rle_abs t); lra. }
  destruct Ht as [Hlo Hhi]; rewrite <- opp_IZR in Hlo.
  apply trunc_ge, IZR_le in Hlo; apply trunc_le, IZR_le in Hhi.
  rewrite opp_IZR in Hlo; rewrite HN.
  apply Rabs_le; split; lra.
Qed.

End ClockFacts.

(** X28.  The clock of [updatePositions].  While paused the call changes
    nothing and moves no body.  Otherwise it keeps the pause flag, the
    speed and the scale and gives a position to each body it is handed,
    in order.  From a valid date at [ms] milliseconds, with
    [exact = ms + elapsed * speed * 1000]: when [exact] is within 8.64e15
    of the epoch the new date is valid, at [exact] truncated toward zero
    (rounded down when [exact >= 0], up when [exact <= 0]), still within
    8.64e15, never earlier than the old time when [elapsed * speed] is not
    negative, and each body is placed at its position for that time; when
    [exact] is beyond 8.64e15 the date becomes invalid and every position
    is [NaN].  An invalid date stays invalid, with every position
    [NaN]. *)
Theorem X28_updatePositions_clock (allBodies : list (string * Model.Body))
    (st : Model.State) (elapsedTime : R) :
  (Model.isPaused st = true ->
   Model.updatePositions allBodies st elapsedTime = (st, [])) /\
  (Model.isPaused st = false ->
   let st' := fst (Model.updatePositions allBodies st elapsedTime) in
   let positions := snd (Model.updatePositions allBodies st elapsedTime) in
   Model.isPaused st' = false /\
   Model.timeSpeed st' = Model.timeSpeed st /\
   Model.currentScale st' = Model.currentScale st /\
   map fst positions = map fst allBodies /\
   (Model.simulationTime st = Model.InvalidDate ->
    Model.simulationTime st' = Model.InvalidDate /\
    forall kp, In kp positions -> snd kp = None) /\
   (forall ms, Model.simulationTime st = Model.ValidDate ms ->
      let exact := IZR ms + elapsedTime * Model.timeSpeed st * 1000 in
      (8.64e15 < Rabs exact ->
       Model.simulationTime st' = Model.InvalidDate /\
       forall kp, In kp positions -> snd kp = None) /\
      (Rabs exact <= 8.64e15 ->
       exists ms',
         Model.simulationTime st' = Model.ValidDate ms' /\
         (0 <= exact -> IZR ms' <= exact < IZR ms' + 1) /\
         (exact <= 0 -> IZR ms' - 1 < exact <= IZR ms') /\
         Rabs (IZR ms') <= 8.64e15 /\
         (0 <= elapsedTime * Model.timeSpeed st -> (ms <= ms')%Z) /\
         positions =
           map (fun kd =>
                  (fst kd,
                   Some (Model.bodyPosition (Model.currentScale st) (snd kd)
                           (Model.daysSinceJ2000 ms'))))
               allBodies))).
Proof.
  unfold Model.updatePositions; split; intros Hp; rewrite Hp; [reflexivity |].
  cbv zeta; cbn [fst snd Model.isPaused Model.timeSpeed Model.currentScale
                   Model.simulationTime].
  split; [reflexivity |]. split; [reflexivity |]. split; [reflexivity |].
  split; [rewrite map_map; reflexivity |].
  split.
  - intros ->; cbn [Model.getTime Model.new_Date]; split; [reflexivity |].
    intros kp Hin; apply in_map_iff in Hin; destruct Hin as (kd & <- & _).
    reflexivity.
  - intros ms ->; cbn [Model.getTime]; split; intros Hr.
    + rewrite new_Date_out_of_range by exact Hr.
      cbn [Model.getTime]; split; [reflexivity |].
      intros kp Hin; apply in_map_iff in Hin; destruct Hin as (kd & <- & _).
      reflexivity.
    + rewrite new_Date_in_range by exact Hr.
      cbn [Model.getTime].
      eexists; split; [reflexivity |].
      destruct (trunc_toward_zero (IZR ms + elapsedTime * Model.timeSpeed st * 1000))
        as [Hdown Hup].
      split; [exact Hdown |]. split; [exact Hup |].
      split; [apply trunc_in_range; exact Hr |].
      split; [intros H; apply trunc_ge; nra | reflexivity].
Qed.

Section SliderFacts.
Import Js THREE Model.

Lemma updateSpeed_eq (val : Z) :
  updateSpeed val = exp (ln (86400 * 365 * 20) / 1000 * IZR val).
Proof.
  unfold updateSpeed; cbv zeta; rewrite ln_1; f_equal; field.
Qed.

Lemma ln_top_pos : 0 < ln (86400 * 365 * 20).
Proof. rewrite <- ln_1; apply ln_increasing; lra. Qed.

Lemma updateSpeed_lt (val val' : Z) :
  (val < val')%Z -> updateSpeed val < updateSpeed val'.
Proof.
  intros H; rewrite !updateSpeed_eq; apply exp_increasing.
  apply Rmult_lt_compat_l; [assert (H0 := ln_top_pos); lra | apply IZR_lt; exact H].
Qed.

End SliderFacts.

(** X29.  The time-speed slider is logarithmic.  Position 0 gives a speed
    of 1 second per second and position 1000 gives
    [86400 * 365 * 20 = 630720000]; the speed strictly increases with the
    position, so every position from 0 to 1000 gives a speed between these
    two; a jump of 50 positions multiplies the speed by the same factor
    wherever it starts; and the forward and backward buttons, which jump by
    50 and clamp, keep the position within 0 and 1000. *)
Theorem X29_time_speed_slider :
  Model.updateSpeed 0 = 1 /\
  Model.updateSpeed 1000 = 630720000 /\
  (forall val val', (val < val')%Z -> Model.updateSpeed val < Model.updateSpeed val') /\
  (forall val, (0 <= val <= 1000)%Z -> 1 <= Model.updateSpeed val <= 630720000) /\
  (forall val,
     Model.updateSpeed (val + 50) = Model.updateSpeed val * Model.updateSpeed 50) /\
  (forall val, (0 <= val <= 1000)%Z ->
     (0 <= Model.time_forward_btn val <= 1000)%Z /\
     (0 <= Model.time_backward_btn val <= 1000)%Z /\
     Model.updateSpeed val <= Model.updateSpeed (Model.time_forward_btn val) /\
     Model.updateSpeed (Model.time_backward_btn val) <= Model.updateSpeed val).
Proof.
  assert (H0 : Model.updateSpeed 0 = 1).
  { rewrite updateSpeed_eq, Rmult_0_r; apply exp_0. }
  assert (H1000 : Model.updateSpeed 1000 = 630720000).
  { rewrite updateSpeed_eq.
    replace (ln (86400 * 365 * 20) / 1000 * 1000) with (ln (86400 * 365 * 20))
      by field.
    rewrite exp_ln by lra; lra. }
  assert (Hle : forall a b, (a <= b)%Z -> Model.updateSpeed a <= Model.updateSpeed b).
  { intros a b Hab; destruct (Z.eq_dec a b) as [-> | Hne]; [lra |].
    left; apply updateSpeed_lt; lia. }
  split; [exact H0 |]. split; [exact H1000 |].
  split; [exact updateSpeed_lt |].
  split.
  { intros val Hv; rewrite <- H0, <- H1000; split; apply Hle; lia. }
  split.
  { intros val; rewrite !updateSpeed_eq, <- exp_plus, plus_IZR; f_equal; ring. }
  intros val Hv; unfold Model.time_forward_btn, Model.time_backward_btn.
  split; [lia |]. split; [lia |].
  split; apply Hle; lia.
Qed.
